(** * The Google EC flash driver of flashrom, embedded in Rocq

    The driver keeps a registry of the three firmware copies of the
    candidate image (fwcopy), two session flags (need_2nd_pass and
    try_latest_firmware) and talks to the embedded controller through
    priv->ec_command.  Every C function of the driver is translated to a
    function in a state-and-error monad over [world]; the commands sent to
    the controller are recorded, with the status and the response the
    transport returned, in the [trace] of the world.

    The driver is embedded as it compiles without SUPPORT_CHECKSUM: the
    checksum retries of read, erase and write are not part of it.  Time is
    not modelled: the one-second sleep after a reboot command leaves no
    mark.  Where C leaves the behaviour undefined (a NULL priv is
    dereferenced, memcpy leaves an array, the [int] counter of gec_read
    overflows) the embedding stops with [Fault]. *)

From Stdlib Require Import ZArith Lia List Bool String.
From Stdlib.Strings Require Import Byte.
From stdpp Require Import base tactics list list_numbers.
Import ListNotations.
Local Open Scope Z_scope.

(** ** C integers *)

Module C.

(** [unsigned int] and [uint32_t]: arithmetic modulo 2^32. *)
Definition to_unsigned (x : Z) : Z := x mod 2 ^ 32.

Definition INT_MAX : Z := 2 ^ 31 - 1.
Definition INT_MIN : Z := - 2 ^ 31.

(** Conversion of an unsigned value to [int], as GCC and Clang define it
    (two's complement). *)
Definition to_int (x : Z) : Z :=
  let y := x mod 2 ^ 32 in if y <? 2 ^ 31 then y else y - 2 ^ 32.

(** Modelled from the spec: the [min] macro of flash.h, which is not among
    the sources; the chunk sizes are "no larger than a transport-advertised
    maximum", so it is the usual [((a) < (b) ? (a) : (b))]. *)
Definition min (a b : Z) : Z := if a <? b then a else b.

End C.

(** ** Outcomes of a C function *)

Inductive result (A : Type) : Type :=
| Ok (a : A)
| Fault       (* no defined behaviour: NULL dereference, out-of-bounds access,
                 signed overflow *)
| OutOfFuel.  (* the loop did not stop within the fuel *)
Arguments Ok {A} a.
Arguments Fault {A}.
Arguments OutOfFuel {A}.

(** State and error monad over a state [S]. *)
Definition M (S A : Type) : Type := S -> result (A * S).

Definition ret {S A : Type} (a : A) : M S A := fun s => Ok (a, s).

Definition bind {S A B : Type} (m : M S A) (k : A -> M S B) : M S B :=
  fun s =>
    match m s with
    | Ok (a, s') => k a s'
    | Fault => Fault
    | OutOfFuel => OutOfFuel
    end.

Definition fault {S A : Type} : M S A := fun _ => Fault.
Definition get {S : Type} : M S S := fun s => Ok (s, s).
Definition modify {S : Type} (f : S -> S) : M S unit := fun s => Ok (tt, f s).

Declare Scope gec_scope.
Delimit Scope gec_scope with gec.
Notation "x <- c1 ;; c2" := (bind c1 (fun x => c2))
  (at level 100, c1 at next level, right associativity) : gec_scope.
Notation "c1 ;;; c2" := (bind c1 (fun _ => c2))
  (at level 100, right associativity) : gec_scope.

(** ** Protocol constants (gec_lpc_commands.h) *)

(** enum lpc_status *)
Definition EC_LPC_RESULT_SUCCESS : Z := 0.
Definition EC_LPC_RESULT_INVALID_COMMAND : Z := 1.
Definition EC_LPC_RESULT_ERROR : Z := 2.
Definition EC_LPC_RESULT_INVALID_PARAM : Z := 3.
Definition EC_LPC_RESULT_ACCESS_DENIED : Z := 4.

(** Size of param areas in bytes: [sizeof (struct lpc_response_flash_read)]. *)
Definition EC_LPC_PARAM_SIZE : Z := 128.
(** Capacity of [data] in [struct lpc_params_flash_write]. *)
Definition FLASH_WRITE_DATA_SIZE : Z := 64.

(** enum lpc_current_image.  The header among the sources declares UNKNOWN,
    RO and RW; the driver uses RW_A and RW_B, which index [fwcopy] and
    [sections] at 2 and 3, as the comments of [sections] say. *)
Inductive lpc_current_image : Type :=
| EC_LPC_IMAGE_UNKNOWN
| EC_LPC_IMAGE_RO
| EC_LPC_IMAGE_RW_A
| EC_LPC_IMAGE_RW_B.

Global Instance lpc_current_image_eq_dec : EqDecision lpc_current_image.
Proof. solve_decision. Defined.

(** The names of enum lpc_current_image to match in FMAP area names. *)
Definition sections (t : lpc_current_image) : string :=
  match t with
  | EC_LPC_IMAGE_UNKNOWN => "UNKNOWN SECTION"
  | EC_LPC_IMAGE_RO => "RO_SECTION"
  | EC_LPC_IMAGE_RW_A => "RW_SECTION_A"
  | EC_LPC_IMAGE_RW_B => "RW_SECTION_B"
  end.

(** [for (i = EC_LPC_IMAGE_RO; i < ARRAY_SIZE(fwcopy); i++)] *)
Definition copies : list lpc_current_image :=
  [EC_LPC_IMAGE_RO; EC_LPC_IMAGE_RW_A; EC_LPC_IMAGE_RW_B].

(** The commands the driver sends, each with its parameter struct. *)
Inductive command : Type :=
| EC_LPC_COMMAND_FLASH_READ (offset size : Z)
| EC_LPC_COMMAND_FLASH_WRITE (offset size : Z) (data : list byte)
| EC_LPC_COMMAND_FLASH_ERASE (offset size : Z)
| EC_LPC_COMMAND_REBOOT_EC (target : lpc_current_image) (reboot_flags : Z).

(** One round trip on the transport: the command, the status returned and
    the bytes left in the response buffer. *)
Record exchange : Type := {
  command_sent : command;
  status : Z;
  response : list byte
}.

(** ** The region map (fmap.h) *)

(** Modelled from the spec: struct fmap_area of fmap.h, which is not among
    the sources.  "Each area has a name string, offset, size"; the driver
    also uses its [flags], as the valid flag: the copy is new iff it is not
    0. *)
Record fmap_area : Type := {
  offset : Z;
  size : Z;
  name : string;
  flags : Z
}.

Definition set_flags (v : Z) (fa : fmap_area) : fmap_area :=
  {| offset := offset fa; size := size fa; name := name fa; flags := v |}.

(** Modelled from the spec: struct fmap of fmap.h, "a named-area table";
    [areas] holds the [nareas] areas of the map. *)
Record fmap : Type := { areas : list fmap_area }.

(** static struct fmap_area fwcopy[4], indexed by enum lpc_current_image;
    static storage is zero-initialised. *)
Definition registry : Type := lpc_current_image -> fmap_area.

Definition empty_area : fmap_area :=
  {| offset := 0; size := 0; name := ""; flags := 0 |}.
Definition fwcopy_init : registry := fun _ => empty_area.

Definition store (j : lpc_current_image) (fa : fmap_area) (fw : registry)
  : registry :=
  fun k => if decide (k = j) then fa else fw k.

Definition is_new (fw : registry) (j : lpc_current_image) : bool :=
  negb (flags (fw j) =? 0).

(** Given the range not able to update, mark the corresponding firmware as
    old.  The sums are [unsigned int] sums. *)
Definition in_range (addr len : Z) (fw : fmap_area) : bool :=
  ((offset fw <=? addr) && (addr <? C.to_unsigned (offset fw + size fw)))
  || ((addr <=? offset fw) && (offset fw <? C.to_unsigned (addr + len))).

Definition gec_invalidate_copy (addr len : Z) (fwcopy : registry) : registry :=
  fold_left
    (fun fwcopy i =>
       let fw := fwcopy i in
       if in_range addr len fw
       then store i (set_flags 0 fw) fwcopy  (* mark as old *)
       else fwcopy)
    copies fwcopy.

(** Lookup RO/A/B sections in FMAP: the two nested loops of gec_prepare. *)
Definition lookup_area (fa : fmap_area) (fwcopy : registry) : registry :=
  fold_left
    (fun fwcopy j =>
       if String.eqb (sections j) (name fa)
       then store j (set_flags 1 fa) fwcopy  (* memcpy, then mark as new *)
       else fwcopy)
    copies fwcopy.

Definition lookup_sections (fm : fmap) (fwcopy : registry) : registry :=
  fold_left (fun fwcopy fa => lookup_area fa fwcopy) (areas fm) fwcopy.

(** The address range of a region intersects [addr, addr + len). *)
Definition intersects (fw : fmap_area) (addr len : Z) : Prop :=
  exists x, offset fw <= x < offset fw + size fw /\ addr <= x < addr + len.

(** ** Chunking, as the specification words it *)

(** ceil (n / max) *)
Definition ceil_div (n max : Z) : Z := (n + max - 1) / max.

(** The [k]-th of the chunks of a request of [n] bytes at [off], none larger
    than [max]: its offset and its size. *)
Definition chunk (off n max k : Z) : Z * Z :=
  (off + k * max, Z.min max (n - k * max)).

(** "exactly ceil(N / max) commands, each at most max, covering the range
    contiguously with no gaps or overlaps". *)
Definition chunks (off n max : Z) : list (Z * Z) :=
  map (chunk off n max) (seqZ 0 (ceil_div n max)).

(** The same list, built chunk by chunk from the bytes that remain. *)
Fixpoint chunks_from (count : nat) (off rem max : Z) : list (Z * Z) :=
  match count with
  | O => []
  | S count =>
      (off, Z.min max rem) :: chunks_from count (off + max) (rem - max) max
  end.

(** [cs] tiles [lo, hi): each chunk starts where the one before it ends, no
    chunk is empty, the first starts at [lo] and the last ends at [hi]. *)
Fixpoint covers (lo hi : Z) (cs : list (Z * Z)) : Prop :=
  match cs with
  | [] => lo = hi
  | c :: cs => fst c = lo /\ 0 < snd c /\ covers (lo + snd c) hi cs
  end.

Definition read_command (c : Z * Z) : command :=
  EC_LPC_COMMAND_FLASH_READ (fst c) (snd c).

Definition read_commands (blockaddr readcnt max : Z) : list command :=
  map read_command (chunks blockaddr readcnt max).

(** The bytes of [buf] that the chunk at [off] carries, [buf] being written
    at [addr]. *)
Definition slice (buf : list byte) (addr : Z) (c : Z * Z) : list byte :=
  take (Z.to_nat (snd c)) (drop (Z.to_nat (fst c - addr)) buf).

Definition write_command (buf : list byte) (addr : Z) (c : Z * Z) : command :=
  EC_LPC_COMMAND_FLASH_WRITE (fst c) (snd c) (slice buf addr c).

Definition write_commands (buf : list byte) (addr nbytes max : Z)
  : list command :=
  map (write_command buf addr) (chunks addr nbytes max).

(** The payload of a read: the bytes of the response that were asked for. *)
Definition payload (e : exchange) : list byte :=
  match command_sent e with
  | EC_LPC_COMMAND_FLASH_READ _ size => take (Z.to_nat size) (response e)
  | _ => []
  end.

(** ** The driver *)

Section Driver.

(** State of the embedded controller behind the transport. *)
Context {D : Type}.

(** Not among the sources: the region-map parser of fmap.c (NULL is
    [None]) and the return code ACCESS_DENIED of flash.h. *)
Variable fmap_find_in_memory : list byte -> Z -> option fmap.
Variable ACCESS_DENIED : Z.

(** struct gec_priv of programmer.h, with the fields the driver uses.
    [ec_command] returns the status, the bytes it left in the response
    buffer and the controller's next state. *)
Record gec_priv : Type := {
  detected : Z;
  ec_command : command -> D -> Z * list byte * D
}.

(** opaque_programmer of programmer.h, with the fields the driver reads. *)
Record opaque_programmer : Type := {
  max_data_read : Z;
  max_data_write : Z;
  data : option gec_priv
}.

Record world : Type := {
  programmer : opaque_programmer;
  need_2nd_pass : Z;        (* 1 if flashrom is to erase and write again *)
  try_latest_firmware : Z;  (* 1 to try the new firmware after the update *)
  fwcopy : registry;
  ec : D;
  trace : list exchange  (* the commands sent so far, oldest first *)
}.

Definition set_need_2nd_pass (v : Z) (w : world) : world :=
  {| programmer := programmer w; need_2nd_pass := v;
     try_latest_firmware := try_latest_firmware w; fwcopy := fwcopy w;
     ec := ec w; trace := trace w |}.

Definition set_try_latest_firmware (v : Z) (w : world) : world :=
  {| programmer := programmer w; need_2nd_pass := need_2nd_pass w;
     try_latest_firmware := v; fwcopy := fwcopy w;
     ec := ec w; trace := trace w |}.

Definition set_fwcopy (fw : registry) (w : world) : world :=
  {| programmer := programmer w; need_2nd_pass := need_2nd_pass w;
     try_latest_firmware := try_latest_firmware w; fwcopy := fw;
     ec := ec w; trace := trace w |}.

Definition sent (e : exchange) (d : D) (w : world) : world :=
  {| programmer := programmer w; need_2nd_pass := need_2nd_pass w;
     try_latest_firmware := try_latest_firmware w; fwcopy := fwcopy w;
     ec := d; trace := trace w ++ [e] |}.

Local Open Scope gec_scope.

(** [priv->ec_command (...)]: dereferences priv. *)
Definition priv_ec_command (c : command) : M world (Z * list byte) :=
  fun w =>
    match data (programmer w) with
    | None => Fault
    | Some priv =>
        let '(rc, r, d) := ec_command priv c (ec w) in
        Ok ((rc, r),
            sent {| command_sent := c; status := rc; response := r |} d w)
    end.

(** [priv && priv->detected] *)
Definition priv_detected (w : world) : bool :=
  match data (programmer w) with
  | None => false
  | Some priv => negb (detected priv =? 0)
  end.

(** Asks EC to jump to a firmware copy. If target is EC_LPC_IMAGE_UNKNOWN,
    then this functions picks a NEW firmware copy and jumps to it. Note
    that RO is preferred, then A, finally B.  Returns 0 for success.
    (The one-second sleep after the command is not modelled.) *)
Definition jump_target (target : lpc_current_image) (fwcopy : registry)
  : lpc_current_image :=
  if negb (bool_decide (target = EC_LPC_IMAGE_UNKNOWN)) then target
  else if is_new fwcopy EC_LPC_IMAGE_RO then EC_LPC_IMAGE_RO
  else if is_new fwcopy EC_LPC_IMAGE_RW_A then EC_LPC_IMAGE_RW_A
  else if is_new fwcopy EC_LPC_IMAGE_RW_B then EC_LPC_IMAGE_RW_B
  else EC_LPC_IMAGE_UNKNOWN.

Definition gec_jump_copy (target : lpc_current_image) : M world Z :=
  w <- get ;;
  let p_target := jump_target target (fwcopy w) in
  if bool_decide (p_target = EC_LPC_IMAGE_UNKNOWN) then ret 1
  else
    r <- priv_ec_command (EC_LPC_COMMAND_REBOOT_EC p_target 0) ;;
    ret (fst r).

(** Given an image, this function parses FMAP and recognize the firmware
    ranges. *)
Definition gec_prepare (image : list byte) (size : Z) : M world Z :=
  w <- get ;;
  if negb (priv_detected w) then ret 0
  else
    match fmap_find_in_memory image size with
    | None => ret 0
    | Some fm =>
        modify (fun w => set_fwcopy (lookup_sections fm (fwcopy w)) w) ;;;
        gec_jump_copy EC_LPC_IMAGE_RO
    end.

(** Returns >0 if we need 2nd pass of erase_and_write_flash().
            <0 if we cannot jump to any firmware copy.
           ==0 if no more pass is needed. *)
Definition gec_need_2nd_pass : M world Z :=
  w <- get ;;
  if negb (priv_detected w) then ret 0
  else if negb (need_2nd_pass w =? 0) then
    rc <- gec_jump_copy EC_LPC_IMAGE_UNKNOWN ;;
    if negb (rc =? 0) then ret (-1)
    else (w' <- get ;; ret (need_2nd_pass w'))
  else ret (need_2nd_pass w).

(** [if (fwcopy[t].flags && gec_jump_copy(t) == 0) return 0;] followed by
    the rest of the function. *)
Definition return_0_if_jumped (t : lpc_current_image) (rest : M world Z)
  : M world Z :=
  w <- get ;;
  if is_new (fwcopy w) t then
    rc <- gec_jump_copy t ;;
    if rc =? 0 then ret 0 else rest
  else rest.

(** Returns 0 for success.  Try latest firmware: B > A > RO *)
Definition gec_finish : M world Z :=
  w <- get ;;
  if negb (priv_detected w) then ret 0
  else if negb (try_latest_firmware w =? 0) then
    return_0_if_jumped EC_LPC_IMAGE_RW_B
      (return_0_if_jumped EC_LPC_IMAGE_RW_A
         (gec_jump_copy EC_LPC_IMAGE_RO))
  else ret 0.

(** *** Buffers *)

(** [memcpy (dst + i, src, n)]: defined when the [n] bytes lie inside both
    arrays. *)
Definition memcpy_to (dst : list byte) (i : Z) (src : list byte) (n : Z)
  : M world (list byte) :=
  if (0 <=? i) && (0 <=? n) && (i + n <=? Z.of_nat (length dst))
     && (n <=? Z.of_nat (length src))
  then ret (take (Z.to_nat i) dst ++ take (Z.to_nat n) src
            ++ drop (Z.to_nat (i + n)) dst)
  else fault.

(** [memcpy (p.data, &buf[i], n)] into an array of [cap] bytes: the bytes
    copied. *)
Definition memcpy_from (cap : Z) (buf : list byte) (i : Z) (n : Z)
  : M world (list byte) :=
  if (0 <=? i) && (0 <=? n) && (i + n <=? Z.of_nat (length buf))
     && (n <=? cap)
  then ret (take (Z.to_nat n) (drop (Z.to_nat i) buf))
  else fault.

(** [i += maxlen] on [int]s. *)
Definition int_add (a b : Z) : M world Z :=
  if (C.INT_MIN <=? a + b) && (a + b <=? C.INT_MAX) then ret (a + b)
  else fault.

(** *** gec_read *)

(** The loop of gec_read from counter [i] on; [i] and [maxlen] are [int]s,
    [blockaddr] and [readcnt] are [unsigned int]s.  The response buffer
    [r] has EC_LPC_PARAM_SIZE bytes. *)
Fixpoint gec_read_loop (fuel : nat) (blockaddr readcnt maxlen : Z)
    (i rc : Z) (readarr : list byte) : M world (Z * list byte) :=
  match fuel with
  | O => fun _ => OutOfFuel
  | S fuel =>
      if C.to_unsigned i <? readcnt then
        let p_offset := C.to_unsigned (blockaddr + i) in
        let p_size :=
          C.min (C.to_unsigned (readcnt - i)) (C.to_unsigned maxlen) in
        r <- priv_ec_command (EC_LPC_COMMAND_FLASH_READ p_offset p_size) ;;
        let rc := fst r in
        let r_data := take (Z.to_nat EC_LPC_PARAM_SIZE) (snd r) in
        if negb (rc =? 0) then ret (rc, readarr)
        else
          readarr <- memcpy_to readarr i r_data p_size ;;
          i <- int_add i maxlen ;;
          gec_read_loop fuel blockaddr readcnt maxlen i rc readarr
      else ret (rc, readarr)
  end.

(** Returns the status and the contents of [readarr]. *)
Definition gec_read (readarr : list byte) (blockaddr readcnt : Z)
  : M world (Z * list byte) :=
  w <- get ;;
  let maxlen := max_data_read (programmer w) in
  gec_read_loop (S (Z.to_nat readcnt)) blockaddr readcnt maxlen 0 0 readarr.

(** *** gec_block_erase *)

Definition gec_block_erase (blockaddr len : Z) : M world Z :=
  r <- priv_ec_command (EC_LPC_COMMAND_FLASH_ERASE blockaddr len) ;;
  let rc := fst r in
  if rc =? EC_LPC_RESULT_ACCESS_DENIED then
    (* this is active image. *)
    modify (fun w =>
              set_fwcopy (gec_invalidate_copy blockaddr len (fwcopy w)) w) ;;;
    modify (set_need_2nd_pass 1) ;;;
    ret ACCESS_DENIED
  else if negb (rc =? 0) then ret rc
  else
    modify (set_try_latest_firmware 1) ;;;
    ret rc.

(** *** gec_write *)

(** The statements after the loop of gec_write. *)
Definition gec_write_end (rc : Z) : M world Z :=
  modify (set_try_latest_firmware 1) ;;;
  ret rc.

(** The loop of gec_write from counter [i] on, and what follows it. *)
Fixpoint gec_write_loop (fuel : nat) (buf : list byte) (addr nbytes : Z)
    (maxlen : Z) (i rc : Z) : M world Z :=
  match fuel with
  | O => fun _ => OutOfFuel
  | S fuel =>
      if C.to_unsigned i <? nbytes then
        let written :=
          C.min (C.to_unsigned (nbytes - i)) (C.to_unsigned maxlen) in
        let p_offset := C.to_unsigned (addr + i) in
        let p_size := written in
        p_data <- memcpy_from FLASH_WRITE_DATA_SIZE buf i written ;;
        r <- priv_ec_command
               (EC_LPC_COMMAND_FLASH_WRITE p_offset p_size p_data) ;;
        let rc := fst r in
        if rc =? EC_LPC_RESULT_ACCESS_DENIED then
          (* this is active image. *)
          modify (fun w =>
                    set_fwcopy
                      (gec_invalidate_copy addr nbytes (fwcopy w)) w) ;;;
          modify (set_need_2nd_pass 1) ;;;
          ret ACCESS_DENIED
        else if negb (rc =? 0) then gec_write_end rc  (* break *)
        else
          gec_write_loop fuel buf addr nbytes maxlen
            (C.to_int (C.to_unsigned i + written)) rc
      else gec_write_end rc
  end.

Definition gec_write (buf : list byte) (addr nbytes : Z) : M world Z :=
  w <- get ;;
  let maxlen := max_data_write (programmer w) in
  gec_write_loop (S (Z.to_nat nbytes)) buf addr nbytes maxlen 0 0.

(** *** What the specification calls things *)

(** "prefer RO if fresh, else RW-A if fresh, else RW-B if fresh": the first
    fresh region in the order RO, RW-A, RW-B. *)
Definition first_fresh (fw : registry) : option lpc_current_image :=
  List.find (is_new fw) copies.

(** The jumps finish may attempt, in order: RW-B if fresh, RW-A if fresh,
    then RO. *)
Definition finish_candidates (fw : registry) : list lpc_current_image :=
  (if is_new fw EC_LPC_IMAGE_RW_B then [EC_LPC_IMAGE_RW_B] else [])
  ++ (if is_new fw EC_LPC_IMAGE_RW_A then [EC_LPC_IMAGE_RW_A] else [])
  ++ [EC_LPC_IMAGE_RO].

Definition reboot (t : lpc_current_image) : command :=
  EC_LPC_COMMAND_REBOOT_EC t 0.

Definition succeeded (e : exchange) : Prop := status e = 0.
Definition failed (e : exchange) : Prop := status e <> 0.

(** The status and the response the transport returns for [c] in world [w],
    and the world after the command. *)
Definition status_of (priv : gec_priv) (c : command) (w : world) : Z :=
  fst (fst (ec_command priv c (ec w))).
Definition response_of (priv : gec_priv) (c : command) (w : world)
  : list byte :=
  snd (fst (ec_command priv c (ec w))).
Definition exchange_of (priv : gec_priv) (c : command) (w : world)
  : exchange :=
  {| command_sent := c; status := status_of priv c w;
     response := response_of priv c w |}.
Definition after (priv : gec_priv) (c : command) (w : world) : world :=
  sent (exchange_of priv c w) (snd (ec_command priv c (ec w))) w.

(** The transport leaves the bytes a read asks for in the response buffer. *)
Definition fills_reads (priv : gec_priv) : Prop :=
  forall off size d,
    0 <= size <= EC_LPC_PARAM_SIZE ->
    size <= Z.of_nat (length (snd (fst (ec_command priv
                        (EC_LPC_COMMAND_FLASH_READ off size) d)))).

(** What a call of gec_write that sent [new] has done, [cmds] being the
    commands of all its chunks: it went through all of them, or stopped at
    the first status that is not success. *)
Definition write_post (addr nbytes : Z) (cmds : list command) (w : world)
    (new : list exchange) (rv : Z) (w' : world) : Prop :=
  (Forall succeeded new /\ map command_sent new = cmds /\ rv = 0
   /\ fwcopy w' = fwcopy w /\ need_2nd_pass w' = need_2nd_pass w
   /\ try_latest_firmware w' = 1)
  \/ (exists pre e,
        new = pre ++ [e] /\ Forall succeeded pre
        /\ status e = EC_LPC_RESULT_ACCESS_DENIED
        /\ map command_sent new `prefix_of` cmds
        /\ rv = ACCESS_DENIED
        /\ fwcopy w' = gec_invalidate_copy addr nbytes (fwcopy w)
        /\ need_2nd_pass w' = 1
        /\ try_latest_firmware w' = try_latest_firmware w)
  \/ (exists pre e,
        new = pre ++ [e] /\ Forall succeeded pre
        /\ status e <> 0 /\ status e <> EC_LPC_RESULT_ACCESS_DENIED
        /\ map command_sent new `prefix_of` cmds
        /\ rv = status e
        /\ fwcopy w' = fwcopy w /\ need_2nd_pass w' = need_2nd_pass w
        /\ try_latest_firmware w' = 1).

(** A request gec_write has defined behaviour on: the maximum the
    programmer advertises fits the data array of the write command, the
    range lies in the 32-bit address space, the count fits the [int] loop
    counter and [buf] holds the bytes. *)
Definition write_request (w : world) (buf : list byte) (addr nbytes : Z)
  : Prop :=
  0 < max_data_write (programmer w) <= FLASH_WRITE_DATA_SIZE
  /\ 0 <= addr /\ addr + nbytes <= 2 ^ 32
  /\ 0 <= nbytes <= C.INT_MAX
  /\ nbytes <= Z.of_nat (length buf).

(** The same for gec_read: the maximum fits the response buffer, the [int]
    loop counter does not overflow and [readarr] has room for the bytes. *)
Definition read_request (w : world) (readarr : list byte)
    (blockaddr readcnt : Z) : Prop :=
  0 < max_data_read (programmer w) <= EC_LPC_PARAM_SIZE
  /\ 0 <= blockaddr /\ blockaddr + readcnt <= 2 ^ 32
  /\ 0 <= readcnt /\ readcnt + max_data_read (programmer w) <= C.INT_MAX + 1
  /\ readcnt <= Z.of_nat (length readarr).

(** Every copy whose range, lying in the 32-bit address space, overlaps
    [addr, addr + len) is stale in [w']. *)
Definition overlapping_stale (addr len : Z) (w w' : world) : Prop :=
  forall t, In t copies ->
    0 <= offset (fwcopy w t) ->
    offset (fwcopy w t) + size (fwcopy w t) < 2 ^ 32 ->
    0 <= addr -> addr + len < 2 ^ 32 ->
    intersects (fwcopy w t) addr len ->
    flags (fwcopy w' t) = 0.

(** The programmer is not detected: [!(priv && priv->detected)]. *)
Definition not_detected (w : world) : Prop :=
  data (programmer w) = None
  \/ exists priv, data (programmer w) = Some priv /\ detected priv = 0.

Definition is_detected (w : world) (priv : gec_priv) : Prop :=
  data (programmer w) = Some priv /\ detected priv <> 0.

(** The calls of a session after prepare: the flash access engine, jumps
    and the rest of the orchestrator. *)
Inductive call : Type :=
| Erase (blockaddr len : Z)
| Write (buf : list byte) (addr nbytes : Z)
| Read (readarr : list byte) (blockaddr readcnt : Z)
| Jump (target : lpc_current_image)
| Need_2nd_pass
| Finish.

Definition do_call (c : call) : M world unit :=
  match c with
  | Erase blockaddr len => gec_block_erase blockaddr len ;;; ret tt
  | Write buf addr nbytes => gec_write buf addr nbytes ;;; ret tt
  | Read readarr blockaddr readcnt =>
      gec_read readarr blockaddr readcnt ;;; ret tt
  | Jump target => gec_jump_copy target ;;; ret tt
  | Need_2nd_pass => gec_need_2nd_pass ;;; ret tt
  | Finish => gec_finish ;;; ret tt
  end.

Fixpoint do_calls (cs : list call) : M world unit :=
  match cs with
  | [] => ret tt
  | c :: cs => do_call c ;;; do_calls cs
  end.

(** Every copy that is stale in [w] is stale in [w']. *)
Definition stale_kept (w w' : world) : Prop :=
  forall t, flags (fwcopy w t) = 0 -> flags (fwcopy w' t) = 0.

(** A computation that, when it returns, has kept stale copies stale. *)
Definition keeps_stale {A : Type} (m : M world A) : Prop :=
  forall w a w', m w = Ok (a, w') -> stale_kept w w'.

End Driver.

(** ** The claims of the specification that the code does not satisfy,
    as the specification words them *)

Section AsStated.

Context {D : Type}.
Variable fmap_find_in_memory : list byte -> Z -> option fmap.

(** "invalidate clears the freshness flag of exactly those regions whose
    address range intersects the half-open interval [addr, addr + len)". *)
Definition invalidate_as_stated (addr len : Z) (fw : registry) : Prop :=
  forall t, In t copies ->
    (intersects (fw t) addr len ->
     flags (gec_invalidate_copy addr len fw t) = 0)
    /\ (~ intersects (fw t) addr len ->
        flags (gec_invalidate_copy addr len fw t) = flags (fw t)).

(** "prepare returns failure if and only if the region map embedded in the
    candidate image cannot be parsed". *)
Definition prepare_as_stated (image : list byte) (size : Z) (w : @world D)
  : Prop :=
  forall rv w', gec_prepare fmap_find_in_memory image size w = Ok (rv, w') ->
    (rv <> 0 <-> fmap_find_in_memory image size = None).

(** "need_second_pass returns 0 if and only if deferred_pass_needed is false;
    otherwise it returns a negative value if no fresh region exists, and a
    positive value otherwise". *)
Definition need_2nd_pass_as_stated (w : @world D) : Prop :=
  forall rv w', gec_need_2nd_pass w = Ok (rv, w') ->
    (rv = 0 <-> need_2nd_pass w = 0)
    /\ (need_2nd_pass w <> 0 ->
        (first_fresh (fwcopy w) = None -> rv < 0)
        /\ (first_fresh (fwcopy w) <> None -> 0 < rv)).

End AsStated.

(** ** The scenarios of the specification

    An image with RO = [0, 0x20000), RW-A = [0x20000, 0x40000) and
    RW-B = [0x40000, 0x60000), and a controller that denies erasing and
    writing the copy it runs. *)

Module Scenario.

Definition RO_area : fmap_area :=
  {| offset := 0; size := 0x20000; name := "RO_SECTION"; flags := 0 |}.
Definition RW_A_area : fmap_area :=
  {| offset := 0x20000; size := 0x20000; name := "RW_SECTION_A"; flags := 0 |}.
Definition RW_B_area : fmap_area :=
  {| offset := 0x40000; size := 0x20000; name := "RW_SECTION_B"; flags := 0 |}.

Definition image_fmap : fmap := {| areas := [RO_area; RW_A_area; RW_B_area] |}.

(** The registry after prepare on that image: all three copies new. *)
Definition all_new : registry := lookup_sections image_fmap fwcopy_init.

(** The candidate image of the scenarios: 0x60000 bytes. *)
Definition candidate_size : Z := 0x60000.
Definition candidate : list byte := repeat xff (Z.to_nat candidate_size).

(** fmap.c is not among the sources.  The scenarios take for it a function
    that finds [image_fmap] in an image of the candidate's size and no
    region map in any other image, the empty one among them. *)
Definition fmap_find_in_memory (image : list byte) (size : Z) : option fmap :=
  if size =? candidate_size then Some image_fmap else None.

(** A value for ACCESS_DENIED; no statement depends on which. *)
Definition ACCESS_DENIED : Z := -7.

Definition area_of (t : lpc_current_image) : fmap_area :=
  match t with
  | EC_LPC_IMAGE_UNKNOWN => empty_area
  | EC_LPC_IMAGE_RO => RO_area
  | EC_LPC_IMAGE_RW_A => RW_A_area
  | EC_LPC_IMAGE_RW_B => RW_B_area
  end.

Definition byte_at (addr : Z) : byte :=
  match Byte.of_N (Z.to_N (addr mod 256)) with
  | Some b => b
  | None => x00
  end.

(** The controller's state is the copy it runs.  It denies erase and write
    commands that touch the running copy, reboots into the copy it is told
    to, and answers a read at [off] with 128 bytes, each [byte_at off]. *)
Definition controller (c : command) (active : lpc_current_image)
  : Z * list byte * lpc_current_image :=
  match c with
  | EC_LPC_COMMAND_FLASH_READ off _ =>
      (EC_LPC_RESULT_SUCCESS, repeat (byte_at off) 128, active)
  | EC_LPC_COMMAND_FLASH_WRITE off sz _
  | EC_LPC_COMMAND_FLASH_ERASE off sz =>
      if in_range off sz (area_of active)
      then (EC_LPC_RESULT_ACCESS_DENIED, [], active)
      else (EC_LPC_RESULT_SUCCESS, [], active)
  | EC_LPC_COMMAND_REBOOT_EC t _ => (EC_LPC_RESULT_SUCCESS, [], t)
  end.

(** A controller that answers every command with EC_LPC_RESULT_ERROR. *)
Definition broken (c : command) (active : lpc_current_image)
  : Z * list byte * lpc_current_image :=
  (EC_LPC_RESULT_ERROR, [], active).

Definition detected_priv
    (cmd : command -> lpc_current_image -> Z * list byte * lpc_current_image)
  : gec_priv :=
  {| detected := 1; ec_command := cmd |}.

Definition session
    (priv : option (@gec_priv lpc_current_image))
    (need try : Z) (fw : registry) (active : lpc_current_image)
  : world :=
  {| programmer :=
       {| max_data_read := 128; max_data_write := 64; data := priv |};
     need_2nd_pass := need; try_latest_firmware := try;
     fwcopy := fw; ec := active; trace := [] |}.

(** The session right after start-up, and after prepare. *)
Definition started : world :=
  session (Some (detected_priv controller)) 0 0 fwcopy_init EC_LPC_IMAGE_RW_A.
Definition prepared : world :=
  session (Some (detected_priv controller)) 0 0 all_new EC_LPC_IMAGE_RO.

(** After [erase (0, 0x8000)] was denied: RO is stale and a second pass is
    needed. *)
Definition denied : world :=
  session (Some (detected_priv controller)) 1 0
    (gec_invalidate_copy 0 0x8000 all_new) EC_LPC_IMAGE_RO.

(** After the second pass: both flags set, the controller runs RW-A. *)
Definition updated : world :=
  session (Some (detected_priv controller)) 1 1
    (gec_invalidate_copy 0 0x8000 all_new) EC_LPC_IMAGE_RW_A.

(** A prepared session whose controller runs RW-A. *)
Definition running_A : world :=
  session (Some (detected_priv controller)) 0 0 all_new EC_LPC_IMAGE_RW_A.

(** Sessions on a controller that fails every command. *)
Definition started_broken : world :=
  session (Some (detected_priv broken)) 0 0 fwcopy_init EC_LPC_IMAGE_RO.
Definition denied_broken : world :=
  session (Some (detected_priv broken)) 1 0
    (gec_invalidate_copy 0 0x8000 all_new) EC_LPC_IMAGE_RO.
Definition prepared_broken : world :=
  session (Some (detected_priv broken)) 0 0 all_new EC_LPC_IMAGE_RO.

(** Sessions whose programmer is not detected, with both flags set: no
    private data, and private data with [detected] 0. *)
Definition no_priv : world :=
  session None 1 1 all_new EC_LPC_IMAGE_RO.
Definition undetected : world :=
  session (Some {| detected := 0; ec_command := controller |}) 1 1 all_new
    EC_LPC_IMAGE_RO.

(** A buffer of 128 bytes, and one of 300. *)
Definition buffer : list byte := repeat xa5 128.
Definition large_buffer : list byte := repeat x00 300.

Definition priv : gec_priv := detected_priv controller.
Definition broken_priv : gec_priv := detected_priv broken.

End Scenario.

(** ** Sessions that call prepare too *)

Section Sessions.

Context {D : Type}.
Variable fmap_find_in_memory : list byte -> Z -> option fmap.
Variable ACCESS_DENIED : Z.

Inductive session_call : Type :=
| Prepare (image : list byte) (size : Z)
| Call (c : call).

Definition do_session_call (c : session_call) : M (@world D) unit :=
  match c with
  | Prepare image size =>
      bind (gec_prepare fmap_find_in_memory image size) (fun _ => ret tt)
  | Call c => do_call ACCESS_DENIED c
  end.

Fixpoint do_session (cs : list session_call) : M (@world D) unit :=
  match cs with
  | [] => ret tt
  | c :: cs => bind (do_session_call c) (fun _ => do_session cs)
  end.

(** A computation that, when it returns, has taken the world to one that
    [R] relates it to. *)
Definition respects (R : @world D -> @world D -> Prop) {A : Type}
    (m : M (@world D) A) : Prop :=
  forall w a w', m w = Ok (a, w') -> R w w'.

(** [w'] is [w] after some commands that all satisfy [P], nothing else
    having changed but the controller. *)
Definition only_sent (P : command -> Prop) (w w' : @world D) : Prop :=
  programmer w' = programmer w
  /\ need_2nd_pass w' = need_2nd_pass w
  /\ try_latest_firmware w' = try_latest_firmware w
  /\ fwcopy w' = fwcopy w
  /\ exists new, trace w' = trace w ++ new
                 /\ Forall (fun e => P (command_sent e)) new.

(** The two session flags are 0 or 1 and are never cleared; the programmer
    is never changed. *)
Definition flag (v : Z) : Prop := v = 0 \/ v = 1.

Definition flags_kept (w w' : @world D) : Prop :=
  programmer w' = programmer w
  /\ (flag (need_2nd_pass w) -> flag (need_2nd_pass w'))
  /\ (flag (try_latest_firmware w) -> flag (try_latest_firmware w'))
  /\ (need_2nd_pass w = 1 -> need_2nd_pass w' = 1)
  /\ (try_latest_firmware w = 1 -> try_latest_firmware w' = 1).

(** The ranges and names of the registry are as they were; entry 0 is as it
    was. *)
Definition ranges_kept (w w' : @world D) : Prop :=
  fwcopy w' EC_LPC_IMAGE_UNKNOWN = fwcopy w EC_LPC_IMAGE_UNKNOWN
  /\ forall t, offset (fwcopy w' t) = offset (fwcopy w t)
               /\ size (fwcopy w' t) = size (fwcopy w t)
               /\ name (fwcopy w' t) = name (fwcopy w t).

(** The area that bears the section name of copy [t], and the last such
    area of a map. *)
Definition named (t : lpc_current_image) (fa : fmap_area) : bool :=
  String.eqb (sections t) (name fa).

Definition last_named (t : lpc_current_image) (l : list fmap_area)
  : option fmap_area :=
  List.find (named t) (rev l).

(** Entry 0 of the registry, which the driver does not use, is as it was. *)
Definition entry_0_kept (w w' : @world D) : Prop :=
  fwcopy w' EC_LPC_IMAGE_UNKNOWN = fwcopy w EC_LPC_IMAGE_UNKNOWN.

Definition is_read (c : command) : Prop :=
  exists off size, c = EC_LPC_COMMAND_FLASH_READ off size.

Definition is_reboot (c : command) : Prop :=
  exists t, c = EC_LPC_COMMAND_REBOOT_EC t 0.

(** A computation that returns on every world whose programmer has the
    private data [priv], and leaves the programmer as it was. *)
Definition returns (priv : @gec_priv D) {A : Type} (m : M (@world D) A)
  : Prop :=
  forall w,
    data (programmer w) = Some priv ->
    exists a w', m w = Ok (a, w') /\ programmer w' = programmer w.

(** A write command for 1 to [max] bytes that lie in
    [addr, addr + nbytes), with as many bytes of data as it says. *)
Definition writes_within (addr nbytes max : Z) (c : command) : Prop :=
  exists off size data,
    c = EC_LPC_COMMAND_FLASH_WRITE off size data
    /\ addr <= off /\ off + size <= addr + nbytes
    /\ 0 < size <= max
    /\ Z.of_nat (length data) = size.

(** The bytes a command carries to the flash. *)
Definition written (c : command) : list byte :=
  match c with
  | EC_LPC_COMMAND_FLASH_WRITE _ _ data => data
  | _ => []
  end.

(** A read command for 1 to [max] bytes that lie in
    [blockaddr, blockaddr + readcnt). *)
Definition reads_within (blockaddr readcnt max : Z) (c : command) : Prop :=
  exists off size,
    c = EC_LPC_COMMAND_FLASH_READ off size
    /\ blockaddr <= off /\ off + size <= blockaddr + readcnt
    /\ 0 < size <= max.

(** An erase or a write command that the controller answered with access
    denied. *)
Definition denial (e : exchange) : Prop :=
  status e = EC_LPC_RESULT_ACCESS_DENIED
  /\ ((exists off size,
         command_sent e = EC_LPC_COMMAND_FLASH_ERASE off size)
      \/ (exists off size data,
            command_sent e = EC_LPC_COMMAND_FLASH_WRITE off size data)).

(** [w'] is [w] after some commands; if none of them is a denial, the
    registry and need_2nd_pass are as they were. *)
Definition marked_on_denial (w w' : @world D) : Prop :=
  exists new,
    trace w' = trace w ++ new
    /\ (Forall (fun e => ~ denial e) new ->
        fwcopy w' = fwcopy w /\ need_2nd_pass w' = need_2nd_pass w).

(** The calls that decide where the controller runs. *)
Definition is_jump (c : call) : Prop :=
  match c with
  | Jump _ | Need_2nd_pass | Finish => True
  | _ => False
  end.

End Sessions.

(** ** The probe of the flash size (gec_probe_size) *)

Module Probe.

(** struct lpc_response_flash_info: four [uint32_t]. *)
Record lpc_response_flash_info : Type := {
  flash_size : Z;          (* Usable flash size, in bytes *)
  write_block_size : Z;
  erase_block_size : Z;
  protect_block_size : Z
}.

(** struct flashchip of flash.h, which is not among the sources, with the
    fields gec_probe_size writes; [eraseblock_size] and [eraseblock_count]
    are [block_erasers[0].eraseblocks[0].size] and [.count], and [wp] tells
    whether the write-protect operations of the driver are installed. *)
Record flashchip : Type := {
  total_size : Z;          (* in kilobytes *)
  page_size : Z;
  tested : Z;
  eraseblock_size : Z;
  eraseblock_count : Z;
  wp : bool
}.

Section Info.

(** TEST_OK_PREW of flash.h. *)
Variable TEST_OK_PREW : Z.

(** [priv->ec_command (EC_LPC_COMMAND_FLASH_INFO, NULL, 0, &info,
    sizeof (info))]: the status and the response; [None] is a NULL
    [priv]. *)
Variable ec_command_flash_info : option (Z * lpc_response_flash_info).

(** Returns 0 when the command fails, 1 when the chip is described.  The
    divisions are [uint32_t] divisions; a division by 0 has no defined
    behaviour. *)
Definition gec_probe_size (flash : flashchip) : result (Z * flashchip) :=
  match ec_command_flash_info with
  | None => Fault
  | Some (rc, info) =>
      if negb (rc =? 0) then Ok (0, flash)
      else if erase_block_size info =? 0 then Fault
      else
        Ok (1,
            {| total_size := flash_size info / 1024;
               page_size := 64;
               tested := TEST_OK_PREW;
               eraseblock_size := erase_block_size info;
               eraseblock_count := flash_size info / erase_block_size info;
               wp := true |})
  end.

End Info.

End Probe.

(** * The programmer of 3COM network cards (nic3com.c) *)

Module Nic3com.

Definition PCI_IO_BASE_ADDRESS : Z := 0x10.
Definition PCI_VENDOR_ID_3COM : Z := 0x10b7.

Definition OK : Z := 0.
Definition NT : Z := 1.  (* Not tested *)

(** struct nic_status; a NULL [device_name] is [None]. *)
Record nic_status : Type := {
  device_id : Z;  (* uint16_t *)
  status : Z;
  device_name : option string
}.

Definition nic (device_id status : Z) (device_name : string) : nic_status :=
  {| device_id := device_id; status := status;
     device_name := Some device_name |}.

(** The table of the cards, with the zeroed entry that ends it. *)
Definition nics : list nic_status := [
  (* 3C90xB *)
  nic 0x9055 NT "3C90xB: PCI 10/100 Mbps; shared 10BASE-T/100BASE-TX";
  nic 0x9001 NT "3C90xB: PCI 10/100 Mbps; shared 10BASE-T/100BASE-T4";
  nic 0x9004 NT "3C90xB: PCI 10BASE-T (TPO)";
  nic 0x9005 NT "3C90xB: PCI 10BASE-T/10BASE2/AUI (COMBO)";
  nic 0x9006 NT "3C90xB: PCI 10BASE-T/10BASE2 (TPC)";
  nic 0x900a NT "3C90xB: PCI 10BASE-FL";
  nic 0x905a NT "3C90xB: PCI 10BASE-FX";
  (* 3C905C *)
  nic 0x9200 OK "3C905C: EtherLink 10/100 PCI (TX)";
  (* 3C980C *)
  nic 0x9805 NT "3C980C: EtherLink Server 10/100 PCI (TX)";
  {| device_id := 0; status := 0; device_name := None |}
].

(** struct pci_dev of libpci, with the fields the driver reads; its
    [device_id] is [pci_device_id] here. *)
Record pci_dev : Type := {
  vendor_id : Z;
  pci_device_id : Z
}.

(** What the driver prints: the card found, and the warning that it is
    untested. *)
Inductive message : Type :=
| Found_NIC (device_name : string) (vendor device addr : Z)
| UNTESTED.

Section Validate.

(** pci_read_long of libpci, which returns a [u32]. *)
Variable pci_read_long : pci_dev -> Z -> Z.

(** The loop of nic3com_validate over the entries from [nics] on: the
    address it returns and what it prints.  [None] is a read past the end
    of the table. *)
Fixpoint nic3com_validate_from (nics : list nic_status) (dev : pci_dev)
  : option (Z * list message) :=
  match nics with
  | [] => None
  | n :: nics =>
      match device_name n with
      | None => Some (C.to_unsigned (-1), [])
      | Some name =>
          if negb (pci_device_id dev =? device_id n)
          then nic3com_validate_from nics dev  (* continue *)
          else
            let addr :=
              Z.land (C.to_unsigned (pci_read_long dev PCI_IO_BASE_ADDRESS))
                (C.to_unsigned (Z.lnot 0x03)) in
            Some (addr,
                  Found_NIC name PCI_VENDOR_ID_3COM (device_id n) addr
                  :: (if status n =? NT then [UNTESTED] else []))
      end
  end.

Definition nic3com_validate (dev : pci_dev) : option (Z * list message) :=
  nic3com_validate_from nics dev.

(** The cards of the table. *)
Definition supported (id : Z) : Prop :=
  exists n name,
    In n nics /\ device_name n = Some name /\ device_id n = id.

End Validate.

(** The test of [supported]. *)
Definition supportedb (id : Z) : bool :=
  existsb (fun n => match device_name n with
                    | Some _ => id =? device_id n
                    | None => false
                    end) nics.

End Nic3com.

(** ** More scenarios *)

Module Cases.

(** A controller that answers every command with success, and a session on
    a programmer that advertises limits of 0 bytes a command. *)
Definition obliging (c : command) (d : unit) : Z * list byte * unit :=
  (EC_LPC_RESULT_SUCCESS, repeat x00 128, d).

Definition obliging_priv : @gec_priv unit :=
  {| detected := 1; ec_command := obliging |}.

Definition no_limit : @world unit :=
  {| programmer :=
       {| max_data_read := 0; max_data_write := 0;
          data := Some obliging_priv |};
     need_2nd_pass := 0; try_latest_firmware := 0;
     fwcopy := fwcopy_init; ec := tt; trace := [] |}.

(** A flash of 0x60000 bytes with erase blocks of 0x800 bytes, and a chip
    that is not described yet. *)
Definition info_384K : Probe.lpc_response_flash_info :=
  {| Probe.flash_size := 0x60000; Probe.write_block_size := 64;
     Probe.erase_block_size := 0x800; Probe.protect_block_size := 0x2000 |}.

Definition blank_chip : Probe.flashchip :=
  {| Probe.total_size := 0; Probe.page_size := 0; Probe.tested := 0;
     Probe.eraseblock_size := 0; Probe.eraseblock_count := 0;
     Probe.wp := false |}.

(** A 3C905C whose I/O base address register reads 0xe001, and a card that
    is not of 3COM's. *)
Definition card_3C905C : Nic3com.pci_dev :=
  {| Nic3com.vendor_id := 0x10b7; Nic3com.pci_device_id := 0x9200 |}.

Definition pci_read_long (dev : Nic3com.pci_dev) (pos : Z) : Z :=
  if pos =? 0x10 then 0xe001 else 0.

End Cases.

(** ** Basic facts *)

Section Facts.

Context {D : Type}.
Variable fmap_find_in_memory : list byte -> Z -> option fmap.
Variable ACCESS_DENIED : Z.
Local Open Scope gec_scope.

Local Abbreviation world := (@world D).
Local Abbreviation gec_priv := (@gec_priv D).

Lemma not_detected_false (w : world) :
  not_detected w -> priv_detected w = false.
Proof.
  unfold priv_detected.
  intros [H | (priv & H & H0)]; rewrite H; [reflexivity|].
  rewrite H0. reflexivity.
Qed.

Lemma is_detected_true (w : world) (priv : gec_priv) :
  is_detected w priv -> priv_detected w = true.
Proof.
  unfold priv_detected. intros [H H0]. rewrite H.
  apply negb_true_iff, Z.eqb_neq, H0.
Qed.

Lemma priv_ec_command_eq (c : command) (w : world) (priv : gec_priv) :
  data (programmer w) = Some priv ->
  priv_ec_command c w =
    Ok ((status_of priv c w, response_of priv c w), after priv c w).
Proof.
  intros H. unfold priv_ec_command, after, exchange_of, status_of, response_of.
  rewrite H. destruct (ec_command priv c (ec w)) as [[rc r] d]. reflexivity.
Qed.

Lemma jump_target_unknown (fw : registry) :
  jump_target EC_LPC_IMAGE_UNKNOWN fw =
    match first_fresh fw with
    | Some t => t
    | None => EC_LPC_IMAGE_UNKNOWN
    end.
Proof.
  unfold jump_target, first_fresh, copies. simpl.
  destruct (is_new fw EC_LPC_IMAGE_RO); [reflexivity|].
  destruct (is_new fw EC_LPC_IMAGE_RW_A); [reflexivity|].
  destruct (is_new fw EC_LPC_IMAGE_RW_B); reflexivity.
Qed.

Lemma first_fresh_known (fw : registry) (t : lpc_current_image) :
  first_fresh fw = Some t -> t <> EC_LPC_IMAGE_UNKNOWN /\ is_new fw t = true.
Proof.
  unfold first_fresh. intros H.
  destruct (find_some _ _ H) as [Hin Hnew]. split; [|exact Hnew].
  intros ->. unfold copies in Hin. simpl in Hin.
  repeat destruct Hin as [Hin | Hin]; try discriminate; exact Hin.
Qed.

Lemma first_fresh_none (fw : registry) :
  first_fresh fw = None <-> (forall t, In t copies -> is_new fw t = false).
Proof.
  unfold first_fresh. split.
  - intros H t Ht. exact (find_none _ _ H t Ht).
  - intros H. destruct (List.find (is_new fw) copies) as [t|] eqn:E;
      [|reflexivity].
    destruct (find_some _ _ E) as [Hin Hnew].
    rewrite (H t Hin) in Hnew. discriminate.
Qed.

(** A jump to an explicit copy sends one reboot command and returns its
    status. *)
Lemma gec_jump_copy_known (t : lpc_current_image) (w : world)
    (priv : gec_priv) :
  data (programmer w) = Some priv ->
  t <> EC_LPC_IMAGE_UNKNOWN ->
  gec_jump_copy t w =
    Ok (status_of priv (reboot t) w, after priv (reboot t) w).
Proof.
  intros Hp Ht. unfold gec_jump_copy, bind, get, ret, jump_target.
  rewrite !(bool_decide_eq_false_2 _ Ht). cbn beta iota delta [negb].
  rewrite (priv_ec_command_eq _ _ _ Hp). reflexivity.
Qed.

Lemma gec_jump_copy_unknown_none (w : world) :
  first_fresh (fwcopy w) = None ->
  gec_jump_copy EC_LPC_IMAGE_UNKNOWN w = Ok (1, w).
Proof.
  intros H. unfold gec_jump_copy, bind, get, ret.
  rewrite jump_target_unknown, H. reflexivity.
Qed.

Lemma gec_jump_copy_unknown_some (w : world) (priv : gec_priv)
    (t : lpc_current_image) :
  data (programmer w) = Some priv ->
  first_fresh (fwcopy w) = Some t ->
  gec_jump_copy EC_LPC_IMAGE_UNKNOWN w =
    Ok (status_of priv (reboot t) w, after priv (reboot t) w).
Proof.
  intros Hp H. destruct (first_fresh_known _ _ H) as [Ht _].
  unfold gec_jump_copy, bind, get, ret.
  rewrite jump_target_unknown, H, (bool_decide_eq_false_2 _ Ht).
  rewrite (priv_ec_command_eq _ _ _ Hp). reflexivity.
Qed.

Lemma trace_after (priv : gec_priv) (c : command) (w : world) :
  trace (after priv c w) = trace w ++ [exchange_of priv c w].
Proof. reflexivity. Qed.

Lemma fwcopy_after (priv : gec_priv) (c : command) (w : world) :
  fwcopy (after priv c w) = fwcopy w.
Proof. reflexivity. Qed.

Lemma programmer_after (priv : gec_priv) (c : command) (w : world) :
  programmer (after priv c w) = programmer w.
Proof. reflexivity. Qed.

(** ** The copy-jump protocol *)

(** C3: jump(unspecified) selects the first fresh region in the order RO,
    RW-A, RW-B.  When no region is fresh it returns failure (1) and leaves
    the world, hence the trace, as it was; otherwise it sends exactly one
    reboot command, naming the selected region, and returns its status.  It
    fails without a command being sent if and only if no region is fresh. *)
Theorem gec_jump_copy_unspecified (w : world) (priv : gec_priv) :
  data (programmer w) = Some priv ->
  match first_fresh (fwcopy w) with
  | None => gec_jump_copy EC_LPC_IMAGE_UNKNOWN w = Ok (1, w)
  | Some t =>
      gec_jump_copy EC_LPC_IMAGE_UNKNOWN w =
        Ok (status_of priv (reboot t) w, after priv (reboot t) w)
      /\ trace (after priv (reboot t) w) =
           trace w
           ++ [{| command_sent := EC_LPC_COMMAND_REBOOT_EC t 0;
                  status := status_of priv (reboot t) w;
                  response := response_of priv (reboot t) w |}]
  end
  /\ ((exists rv w', gec_jump_copy EC_LPC_IMAGE_UNKNOWN w = Ok (rv, w')
                     /\ rv <> 0 /\ trace w' = trace w)
      <-> (forall t, In t copies -> is_new (fwcopy w) t = false)).
Proof.
  intros Hp. rewrite <- first_fresh_none.
  destruct (first_fresh (fwcopy w)) as [t|] eqn:E.
  - pose proof (gec_jump_copy_unknown_some w priv t Hp E) as Hj.
    split; [split; [exact Hj | reflexivity]|].
    split; [|discriminate].
    intros (rv & w' & Hr & _ & Htr). rewrite Hj in Hr.
    injection Hr as _ <-. rewrite trace_after in Htr.
    apply (f_equal (@length _)) in Htr. rewrite length_app in Htr.
    simpl in Htr. lia.
  - pose proof (gec_jump_copy_unknown_none w E) as Hj.
    split; [exact Hj|]. split; [reflexivity|].
    intros _. exists 1, w. rewrite Hj. repeat split; lia.
Qed.

(** ** The update orchestrator *)

(** C10: while the programmer is not detected, prepare, need_2nd_pass and
    finish return 0 and leave the world as it was: no command is sent and
    the registry and both session flags keep their values. *)
Theorem not_detected_returns_0 (w : world) (image : list byte) (size : Z) :
  not_detected w ->
  gec_prepare fmap_find_in_memory image size w = Ok (0, w)
  /\ gec_need_2nd_pass w = Ok (0, w)
  /\ gec_finish w = Ok (0, w).
Proof.
  intros H. apply not_detected_false in H.
  unfold gec_prepare, gec_need_2nd_pass, gec_finish, bind, get, ret.
  rewrite H. repeat split.
Qed.

Lemma return_0_if_jumped_stale (t : lpc_current_image) (rest : M world Z)
    (w : world) :
  is_new (fwcopy w) t = false -> return_0_if_jumped t rest w = rest w.
Proof.
  intros H. unfold return_0_if_jumped, bind, get. rewrite H. reflexivity.
Qed.

Lemma return_0_if_jumped_fresh (t : lpc_current_image) (rest : M world Z)
    (w : world) (priv : gec_priv) :
  data (programmer w) = Some priv ->
  t <> EC_LPC_IMAGE_UNKNOWN ->
  is_new (fwcopy w) t = true ->
  return_0_if_jumped t rest w =
    if status_of priv (reboot t) w =? 0
    then Ok (0, after priv (reboot t) w)
    else rest (after priv (reboot t) w).
Proof.
  intros Hp Ht H. unfold return_0_if_jumped, bind, get. rewrite H.
  rewrite (gec_jump_copy_known t w priv Hp Ht).
  destruct (status_of priv (reboot t) w =? 0); reflexivity.
Qed.

(** C5: finish returns 0 at once, with nothing sent, when
    try_latest_firmware is 0.  Otherwise the jumps it attempts are an initial
    part of: RW-B if RW-B is fresh, then RW-A if RW-A is fresh, then RO; every
    attempt but the last one failed, the value returned is the status of the
    last attempt, and a failing last attempt can only be the jump to RO.  So
    a fresh RW-B whose jump succeeds is the only jump, a succeeding RW-A jump
    is not followed by a RO jump, and the result of the RO jump is returned
    verbatim. *)
Theorem gec_finish_order (w : world) (priv : gec_priv) :
  is_detected w priv ->
  (try_latest_firmware w = 0 -> gec_finish w = Ok (0, w))
  /\ (try_latest_firmware w <> 0 ->
      exists rv w' pre last t,
        gec_finish w = Ok (rv, w')
        /\ trace w' = trace w ++ pre ++ [last]
        /\ command_sent last = reboot t
        /\ status last = rv
        /\ Forall failed pre
        /\ map command_sent (pre ++ [last])
             `prefix_of` map reboot (finish_candidates (fwcopy w))
        /\ (rv <> 0 -> t = EC_LPC_IMAGE_RO)).
Proof.
  intros Hd. pose proof (is_detected_true w priv Hd) as Hdet.
  destruct Hd as [Hp _].
  unfold gec_finish, bind, get. rewrite Hdet. cbv beta iota delta [negb].
  split.
  { intros ->. reflexivity. }
  intros Hl. apply Z.eqb_neq in Hl. rewrite Hl. cbv beta iota delta [negb].
  unfold finish_candidates.
  set (cB := reboot EC_LPC_IMAGE_RW_B).
  set (cA := reboot EC_LPC_IMAGE_RW_A).
  set (cR := reboot EC_LPC_IMAGE_RO).
  assert (HjR : forall w0, data (programmer w0) = Some priv ->
            gec_jump_copy EC_LPC_IMAGE_RO w0 =
              Ok (status_of priv cR w0, after priv cR w0)).
  { intros w0 H0. apply gec_jump_copy_known; [exact H0 | discriminate]. }
  assert (HA : forall w0 pre,
            data (programmer w0) = Some priv ->
            fwcopy w0 = fwcopy w ->
            trace w0 = trace w ++ pre ->
            Forall failed pre ->
            map command_sent pre `prefix_of`
              (if is_new (fwcopy w) EC_LPC_IMAGE_RW_B then [cB] else []) ->
            length pre =
              length (if is_new (fwcopy w) EC_LPC_IMAGE_RW_B
                      then [cB] else []) ->
            exists rv w' pre' last t,
              return_0_if_jumped EC_LPC_IMAGE_RW_A
                (gec_jump_copy EC_LPC_IMAGE_RO) w0 = Ok (rv, w')
              /\ trace w' = trace w ++ pre' ++ [last]
              /\ command_sent last = reboot t
              /\ status last = rv
              /\ Forall failed pre'
              /\ map command_sent (pre' ++ [last]) `prefix_of`
                   ((if is_new (fwcopy w) EC_LPC_IMAGE_RW_B
                     then [cB] else [])
                    ++ map reboot
                         ((if is_new (fwcopy w) EC_LPC_IMAGE_RW_A
                           then [EC_LPC_IMAGE_RW_A] else [])
                          ++ [EC_LPC_IMAGE_RO]))
              /\ (rv <> 0 -> t = EC_LPC_IMAGE_RO)).
  { intros w0 pre H0 Hfw Htr Hf Hpre Hlen.
    assert (Hpre' : map command_sent pre =
              if is_new (fwcopy w) EC_LPC_IMAGE_RW_B then [cB] else []).
    { destruct Hpre as [k Hk]. rewrite Hk in Hlen |- *.
      rewrite length_app, <- (length_map command_sent pre) in Hlen.
      destruct k; [rewrite app_nil_r; reflexivity | simpl in Hlen; lia]. }
    destruct (is_new (fwcopy w) EC_LPC_IMAGE_RW_A) eqn:EA.
    - rewrite (return_0_if_jumped_fresh _ _ w0 priv H0);
        [| discriminate | rewrite Hfw; exact EA].
      fold cA. destruct (status_of priv cA w0 =? 0) eqn:EsA.
      + apply Z.eqb_eq in EsA.
        exists 0, (after priv cA w0), pre, (exchange_of priv cA w0),
          EC_LPC_IMAGE_RW_A.
        split; [reflexivity|]. split.
        { rewrite trace_after, Htr, <- app_assoc. reflexivity. }
        split; [reflexivity|]. split; [exact EsA|].
        split; [exact Hf|]. split; [|intros H; lia].
        rewrite map_app, Hpre'. simpl. apply prefix_app.
        exists [cR]. reflexivity.
      + apply Z.eqb_neq in EsA.
        rewrite HjR by exact H0.
        exists (status_of priv cR (after priv cA w0)),
          (after priv cR (after priv cA w0)),
          (pre ++ [exchange_of priv cA w0]),
          (exchange_of priv cR (after priv cA w0)), EC_LPC_IMAGE_RO.
        split; [reflexivity|]. split.
        { rewrite !trace_after, Htr, <- !app_assoc. reflexivity. }
        split; [reflexivity|]. split; [reflexivity|].
        split.
        { apply Forall_app. split; [exact Hf|].
          constructor; [exact EsA | constructor]. }
        split; [|reflexivity].
        rewrite !map_app, Hpre', <- !app_assoc. simpl. reflexivity.
    - rewrite return_0_if_jumped_stale by (rewrite Hfw; exact EA).
      rewrite HjR by exact H0.
      exists (status_of priv cR w0), (after priv cR w0), pre,
        (exchange_of priv cR w0), EC_LPC_IMAGE_RO.
      split; [reflexivity|]. split.
      { rewrite trace_after, Htr, <- app_assoc. reflexivity. }
      split; [reflexivity|]. split; [reflexivity|].
      split; [exact Hf|]. split; [|reflexivity].
      rewrite map_app, Hpre'. simpl. reflexivity. }
  rewrite map_app.
  destruct (is_new (fwcopy w) EC_LPC_IMAGE_RW_B) eqn:EB.
  - rewrite (return_0_if_jumped_fresh _ _ w priv Hp);
      [| discriminate | exact EB].
    fold cB. destruct (status_of priv cB w =? 0) eqn:EsB.
    + apply Z.eqb_eq in EsB.
      exists 0, (after priv cB w), [], (exchange_of priv cB w),
        EC_LPC_IMAGE_RW_B.
      split; [reflexivity|]. split.
      { rewrite trace_after. reflexivity. }
      split; [reflexivity|]. split; [exact EsB|].
      split; [constructor|]. split; [|intros H; lia].
      simpl. eexists. reflexivity.
    + apply Z.eqb_neq in EsB.
      apply (HA (after priv cB w) [exchange_of priv cB w]).
      * exact Hp.
      * reflexivity.
      * apply trace_after.
      * constructor; [exact EsB | constructor].
      * reflexivity.
      * reflexivity.
  - rewrite return_0_if_jumped_stale by exact EB.
    apply (HA w []).
    + exact Hp.
    + reflexivity.
    + rewrite app_nil_r. reflexivity.
    + constructor.
    + reflexivity.
    + reflexivity.
Qed.

(** C2, amended: with the programmer detected, prepare returns 0, the value
    of success, and leaves the world as it was when no region map is found in
    the image; when one is found it records the copies, always jumps to RO
    and returns the status of that reboot command.  So prepare returns
    failure exactly when the map was found and the jump to RO failed. *)
Theorem gec_prepare_detected (w : world) (priv : gec_priv)
    (image : list byte) (size : Z) :
  is_detected w priv ->
  match fmap_find_in_memory image size with
  | None => gec_prepare fmap_find_in_memory image size w = Ok (0, w)
  | Some fm =>
      let w1 := set_fwcopy (lookup_sections fm (fwcopy w)) w in
      gec_prepare fmap_find_in_memory image size w =
        Ok (status_of priv (reboot EC_LPC_IMAGE_RO) w1,
            after priv (reboot EC_LPC_IMAGE_RO) w1)
  end
  /\ (forall rv w',
        gec_prepare fmap_find_in_memory image size w = Ok (rv, w') ->
        (rv <> 0 <->
         exists fm, fmap_find_in_memory image size = Some fm
           /\ status_of priv (reboot EC_LPC_IMAGE_RO)
                (set_fwcopy (lookup_sections fm (fwcopy w)) w) <> 0)).
Proof.
  intros Hd. pose proof (is_detected_true w priv Hd) as Hdet.
  destruct Hd as [Hp _].
  unfold gec_prepare, bind, get, modify. rewrite Hdet.
  cbv beta iota delta [negb].
  destruct (fmap_find_in_memory image size) as [fm|].
  - cbv beta iota.
    rewrite (gec_jump_copy_known EC_LPC_IMAGE_RO _ priv)
      by (exact Hp || discriminate).
    split; [reflexivity|].
    intros rv w' H. injection H as <- <-. split.
    + intros Hrv. exists fm. split; [reflexivity | exact Hrv].
    + intros (fm' & Hfm & Hrv). injection Hfm as <-. exact Hrv.
  - split; [reflexivity|].
    intros rv w' H. injection H as <- <-. split.
    + intros Hrv. exfalso. apply Hrv. reflexivity.
    + intros (fm' & Hfm & _). discriminate.
Qed.

(** C4, amended: with the programmer detected and need_2nd_pass 0 or 1,
    need_2nd_pass returns 0, sending nothing, if and only if the flag is 0.
    With the flag set it jumps to the first fresh copy and returns -1 when
    that jump fails, because no copy is fresh or because the reboot command
    returns a non-zero status, and the positive 1 when the jump succeeds. *)
Theorem gec_need_2nd_pass_detected (w : world) (priv : gec_priv) :
  is_detected w priv ->
  need_2nd_pass w = 0 \/ need_2nd_pass w = 1 ->
  (need_2nd_pass w = 0 -> gec_need_2nd_pass w = Ok (0, w))
  /\ (need_2nd_pass w = 1 ->
      match first_fresh (fwcopy w) with
      | None => gec_need_2nd_pass w = Ok (-1, w)
      | Some t =>
          gec_need_2nd_pass w =
            Ok (if status_of priv (reboot t) w =? 0 then 1 else -1,
                after priv (reboot t) w)
      end)
  /\ (forall rv w', gec_need_2nd_pass w = Ok (rv, w') ->
        (rv = 0 <-> need_2nd_pass w = 0)).
Proof.
  intros Hd Hflag. pose proof (is_detected_true w priv Hd) as Hdet.
  destruct Hd as [Hp _].
  assert (H1 : need_2nd_pass w = 1 ->
            match first_fresh (fwcopy w) with
            | None => gec_need_2nd_pass w = Ok (-1, w)
            | Some t =>
                gec_need_2nd_pass w =
                  Ok (if status_of priv (reboot t) w =? 0 then 1 else -1,
                      after priv (reboot t) w)
            end).
  { intros E. unfold gec_need_2nd_pass, bind, get. rewrite Hdet, E.
    change (1 =? 0) with false. cbv beta iota delta [negb].
    destruct (first_fresh (fwcopy w)) as [t|] eqn:Ef.
    - rewrite (gec_jump_copy_unknown_some w priv t Hp Ef).
      destruct (status_of priv (reboot t) w =? 0) eqn:Es; cbv beta iota.
      + unfold ret. cbv beta iota.
        change (need_2nd_pass (after priv (reboot t) w))
          with (need_2nd_pass w).
        rewrite E. reflexivity.
      + reflexivity.
    - rewrite (gec_jump_copy_unknown_none w Ef). reflexivity. }
  assert (H0 : need_2nd_pass w = 0 -> gec_need_2nd_pass w = Ok (0, w)).
  { intros E. unfold gec_need_2nd_pass, bind, get, ret. rewrite Hdet, E.
    reflexivity. }
  split; [exact H0|]. split; [exact H1|].
  intros rv w' Hr. destruct Hflag as [E | E].
  - rewrite (H0 E) in Hr. injection Hr as <- <-. tauto.
  - specialize (H1 E). rewrite E.
    destruct (first_fresh (fwcopy w)) as [t|].
    + rewrite H1 in Hr. injection Hr as <- <-.
      destruct (status_of priv (reboot t) w =? 0); lia.
    + rewrite H1 in Hr. injection Hr as <- <-. lia.
Qed.

(** ** The region registry *)

(** What gec_invalidate_copy leaves in each entry of fwcopy. *)
Lemma gec_invalidate_copy_entry (addr len : Z) (fw : registry)
    (t : lpc_current_image) :
  gec_invalidate_copy addr len fw t =
    if bool_decide (t <> EC_LPC_IMAGE_UNKNOWN) && in_range addr len (fw t)
    then set_flags 0 (fw t)
    else fw t.
Proof.
  unfold gec_invalidate_copy, copies. cbn [fold_left].
  destruct (in_range addr len (fw EC_LPC_IMAGE_RO)) eqn:ERO;
    cbv beta iota delta [store];
    repeat match goal with
      | |- context [decide (?a = ?b)] =>
          let d := eval vm_compute in (decide (a = b)) in
          change (decide (a = b)) with d; cbv beta iota
      end;
  destruct (in_range addr len (fw EC_LPC_IMAGE_RW_A)) eqn:EA;
    cbv beta iota;
    repeat match goal with
      | |- context [decide (?a = ?b)] =>
          let d := eval vm_compute in (decide (a = b)) in
          change (decide (a = b)) with d; cbv beta iota
      end;
  destruct (in_range addr len (fw EC_LPC_IMAGE_RW_B)) eqn:EB;
    cbv beta iota;
  destruct t; cbn; rewrite ?ERO, ?EA, ?EB; reflexivity.
Qed.

Lemma to_unsigned_small (x : Z) : 0 <= x < 2 ^ 32 -> C.to_unsigned x = x.
Proof. intros H. unfold C.to_unsigned. apply Z.mod_small. exact H. Qed.

(** The test of gec_invalidate_copy, read on mathematical intervals. *)
Lemma in_range_true (addr len : Z) (fw : fmap_area) :
  0 <= offset fw -> 0 <= size fw -> offset fw + size fw < 2 ^ 32 ->
  0 <= addr -> 0 <= len -> addr + len < 2 ^ 32 ->
  (in_range addr len fw = true <->
   offset fw <= addr < offset fw + size fw
   \/ addr <= offset fw < addr + len).
Proof.
  intros Ho Hs Hos Ha Hl Hal. unfold in_range.
  rewrite !to_unsigned_small by lia.
  rewrite orb_true_iff, !andb_true_iff, !Z.leb_le, !Z.ltb_lt. tauto.
Qed.

Lemma in_range_intersects (addr len : Z) (fw : fmap_area) :
  0 <= offset fw -> 0 < size fw -> offset fw + size fw < 2 ^ 32 ->
  0 <= addr -> 0 < len -> addr + len < 2 ^ 32 ->
  (in_range addr len fw = true <-> intersects fw addr len).
Proof.
  intros Ho Hs Hos Ha Hl Hal. rewrite in_range_true by lia.
  unfold intersects. split.
  - intros [H | H]; [exists addr | exists (offset fw)]; lia.
  - intros (x & H1 & H2). lia.
Qed.

(** A range that intersects the region passes the test, empty or not. *)
Lemma intersects_in_range (addr len : Z) (fw : fmap_area) :
  0 <= offset fw -> offset fw + size fw < 2 ^ 32 ->
  0 <= addr -> addr + len < 2 ^ 32 ->
  intersects fw addr len -> in_range addr len fw = true.
Proof.
  intros Ho Hos Ha Hal (x & H1 & H2).
  apply in_range_true; lia.
Qed.

(** C8, amended: invalidate clears the flag of exactly the regions among RO,
    RW-A and RW-B that pass the test of the code: addr lies in the region's
    range, or the region's offset lies in [addr, addr + len), the sums being
    32-bit; every other flag, and every offset and size, is unchanged.  When
    the queried interval and the region are both non-empty and end below
    2^32, the regions that pass the test are exactly those whose range
    intersects [addr, addr + len). *)
Theorem gec_invalidate_copy_clears (addr len : Z) (fw : registry)
    (t : lpc_current_image) :
  In t copies ->
  flags (gec_invalidate_copy addr len fw t) =
    (if in_range addr len (fw t) then 0 else flags (fw t))
  /\ offset (gec_invalidate_copy addr len fw t) = offset (fw t)
  /\ size (gec_invalidate_copy addr len fw t) = size (fw t)
  /\ (0 <= offset (fw t) -> 0 < size (fw t) ->
      offset (fw t) + size (fw t) < 2 ^ 32 ->
      0 <= addr -> 0 < len -> addr + len < 2 ^ 32 ->
      (intersects (fw t) addr len ->
       flags (gec_invalidate_copy addr len fw t) = 0)
      /\ (~ intersects (fw t) addr len ->
          flags (gec_invalidate_copy addr len fw t) = flags (fw t))).
Proof.
  intros Hin. rewrite gec_invalidate_copy_entry.
  assert (Ht : bool_decide (t <> EC_LPC_IMAGE_UNKNOWN) = true).
  { apply bool_decide_eq_true_2. intros ->. unfold copies in Hin.
    simpl in Hin. repeat destruct Hin as [Hin | Hin]; try discriminate.
    exact Hin. }
  rewrite Ht. cbn [andb].
  split; [destruct (in_range addr len (fw t)); reflexivity|].
  split; [destruct (in_range addr len (fw t)); reflexivity|].
  split; [destruct (in_range addr len (fw t)); reflexivity|].
  intros Ho Hs Hos Ha Hl Hal.
  pose proof (in_range_intersects addr len (fw t) Ho Hs Hos Ha Hl Hal) as Hi.
  destruct (in_range addr len (fw t)).
  - split; [reflexivity|]. intros Hn. exfalso. apply Hn, Hi. reflexivity.
  - split; [|reflexivity]. intros Hx. apply Hi in Hx. discriminate.
Qed.

(** ** Stale copies stay stale *)

Lemma stale_kept_refl (w : world) : stale_kept w w.
Proof. intros t H. exact H. Qed.

Lemma stale_kept_trans (w1 w2 w3 : world) :
  stale_kept w1 w2 -> stale_kept w2 w3 -> stale_kept w1 w3.
Proof. intros H12 H23 t H. apply H23, H12, H. Qed.

Lemma gec_invalidate_copy_flags (addr len : Z) (fw : registry)
    (t : lpc_current_image) :
  flags (gec_invalidate_copy addr len fw t) = 0
  \/ flags (gec_invalidate_copy addr len fw t) = flags (fw t).
Proof.
  rewrite gec_invalidate_copy_entry.
  destruct (bool_decide (t <> EC_LPC_IMAGE_UNKNOWN)
            && in_range addr len (fw t));
    [left | right]; reflexivity.
Qed.

Lemma keeps_ret {A : Type} (a : A) : keeps_stale (D := D) (ret a).
Proof. intros w a' w' H. injection H as _ <-. apply stale_kept_refl. Qed.

Lemma keeps_fault {A : Type} : keeps_stale (D := D) (fault (A := A)).
Proof. intros w a' w' H. discriminate. Qed.

Lemma keeps_get : keeps_stale (D := D) get.
Proof. intros w a' w' H. injection H as _ <-. apply stale_kept_refl. Qed.

Lemma keeps_bind {A B : Type} (m : M world A) (k : A -> M world B) :
  keeps_stale (D := D) m -> (forall a, keeps_stale (D := D) (k a)) ->
  keeps_stale (D := D) (bind m k).
Proof.
  intros Hm Hk w b w' H. unfold bind in H.
  destruct (m w) as [[a w1]| |] eqn:E; try discriminate.
  eapply stale_kept_trans; [eapply Hm, E | eapply Hk, H].
Qed.

Lemma keeps_modify (f : world -> world) :
  (forall w, stale_kept w (f w)) -> keeps_stale (D := D) (modify f).
Proof. intros Hf w a w' H. injection H as _ <-. apply Hf. Qed.

Lemma keeps_priv_ec_command (c : command) :
  keeps_stale (D := D) (priv_ec_command c).
Proof.
  intros w a w' H. unfold priv_ec_command in H.
  destruct (data (programmer w)) as [priv|]; [|discriminate].
  destruct (ec_command priv c (ec w)) as [[rc r] d].
  injection H as _ <-. intros t Ht. exact Ht.
Qed.

Lemma keeps_invalidate (addr len : Z) :
  keeps_stale (D := D)
    (modify (fun w : world =>
               set_fwcopy (gec_invalidate_copy addr len (fwcopy w)) w)).
Proof.
  apply keeps_modify. intros w t Ht.
  change (flags (gec_invalidate_copy addr len (fwcopy w) t) = 0).
  destruct (gec_invalidate_copy_flags addr len (fwcopy w) t) as [H | H];
    [exact H | rewrite H; exact Ht].
Qed.

Lemma keeps_set_need_2nd_pass (v : Z) :
  keeps_stale (D := D) (modify (set_need_2nd_pass v)).
Proof. apply keeps_modify. intros w t Ht. exact Ht. Qed.

Lemma keeps_set_try_latest_firmware (v : Z) :
  keeps_stale (D := D) (modify (set_try_latest_firmware v)).
Proof. apply keeps_modify. intros w t Ht. exact Ht. Qed.

Create HintDb keeps.
#[local] Hint Resolve keeps_get keeps_priv_ec_command keeps_invalidate
  keeps_set_need_2nd_pass keeps_set_try_latest_firmware : keeps.
#[local] Hint Extern 1 (keeps_stale (ret _)) => apply keeps_ret : keeps.
#[local] Hint Extern 1 (keeps_stale fault) => apply keeps_fault : keeps.

(** Walks through a monadic body: binds, conditionals and matches. *)
Ltac keeps_step :=
  match goal with
  | |- keeps_stale (bind _ _) => apply keeps_bind; [|intros ?]
  | |- keeps_stale (if ?b then _ else _) => destruct b
  | |- keeps_stale (match ?x with _ => _ end) => destruct x
  | |- keeps_stale _ => solve [auto with keeps]
  end.

Lemma keeps_gec_jump_copy (t : lpc_current_image) :
  keeps_stale (D := D) (gec_jump_copy t).
Proof. unfold gec_jump_copy. repeat keeps_step. Qed.

Lemma keeps_memcpy_to (dst : list byte) (i : Z) (src : list byte) (n : Z) :
  keeps_stale (D := D) (memcpy_to dst i src n).
Proof. unfold memcpy_to. repeat keeps_step. Qed.

Lemma keeps_memcpy_from (cap : Z) (buf : list byte) (i n : Z) :
  keeps_stale (D := D) (memcpy_from cap buf i n).
Proof. unfold memcpy_from. repeat keeps_step. Qed.

Lemma keeps_int_add (a b : Z) : keeps_stale (D := D) (int_add a b).
Proof. unfold int_add. repeat keeps_step. Qed.

#[local] Hint Resolve keeps_gec_jump_copy keeps_memcpy_to keeps_memcpy_from
  keeps_int_add : keeps.

Lemma keeps_gec_need_2nd_pass : keeps_stale (D := D) gec_need_2nd_pass.
Proof. unfold gec_need_2nd_pass. repeat keeps_step. Qed.

Lemma keeps_return_0_if_jumped (t : lpc_current_image) (rest : M world Z) :
  keeps_stale (D := D) rest -> keeps_stale (D := D) (return_0_if_jumped t rest).
Proof. intros H. unfold return_0_if_jumped. repeat keeps_step; exact H. Qed.

Lemma keeps_gec_finish : keeps_stale (D := D) gec_finish.
Proof.
  unfold gec_finish. repeat keeps_step.
  apply keeps_return_0_if_jumped, keeps_return_0_if_jumped.
  auto with keeps.
Qed.

Lemma keeps_gec_block_erase (blockaddr len : Z) :
  keeps_stale (D := D) (gec_block_erase ACCESS_DENIED blockaddr len).
Proof. unfold gec_block_erase. repeat keeps_step. Qed.

Lemma keeps_gec_read_loop (fuel : nat) (blockaddr readcnt maxlen : Z) :
  forall (i rc : Z) (readarr : list byte),
    keeps_stale (D := D)
      (gec_read_loop fuel blockaddr readcnt maxlen i rc readarr).
Proof.
  induction fuel as [|fuel IH]; intros i rc readarr.
  - intros w a w' H. discriminate.
  - cbn [gec_read_loop]. repeat keeps_step.
Qed.

Lemma keeps_gec_read (readarr : list byte) (blockaddr readcnt : Z) :
  keeps_stale (D := D) (gec_read readarr blockaddr readcnt).
Proof.
  unfold gec_read. repeat keeps_step; apply keeps_gec_read_loop.
Qed.

Lemma keeps_gec_write_loop (fuel : nat) (buf : list byte)
    (addr nbytes maxlen : Z) :
  forall i rc : Z,
    keeps_stale (D := D)
      (gec_write_loop ACCESS_DENIED fuel buf addr nbytes maxlen i rc).
Proof.
  induction fuel as [|fuel IH]; intros i rc.
  - intros w a w' H. discriminate.
  - cbn [gec_write_loop]. unfold gec_write_end.
    repeat keeps_step.
Qed.

Lemma keeps_gec_write (buf : list byte) (addr nbytes : Z) :
  keeps_stale (D := D) (gec_write ACCESS_DENIED buf addr nbytes).
Proof.
  unfold gec_write. repeat keeps_step; apply keeps_gec_write_loop.
Qed.

Lemma keeps_do_call (c : call) : keeps_stale (D := D) (do_call ACCESS_DENIED c).
Proof.
  destruct c; cbn [do_call]; apply keeps_bind;
    auto using keeps_gec_block_erase, keeps_gec_write, keeps_gec_read,
      keeps_gec_jump_copy, keeps_gec_need_2nd_pass, keeps_gec_finish;
    intros ?; apply keeps_ret.
Qed.

(** C9: invalidate only clears flags, and no sequence of erase, write, read,
    jump, need_2nd_pass and finish calls sets one: a copy that is stale
    before the calls is stale after them.  Only prepare marks a copy new. *)
Theorem stale_stays_stale (cs : list call) (w w' : world) (u : unit)
    (t : lpc_current_image) :
  do_calls ACCESS_DENIED cs w = Ok (u, w') ->
  flags (fwcopy w t) = 0 ->
  flags (fwcopy w' t) = 0
  /\ (forall addr len fw,
        flags (gec_invalidate_copy addr len fw t) = 0
        \/ flags (gec_invalidate_copy addr len fw t) = flags (fw t)).
Proof.
  intros Hrun Hstale. split; [|intros; apply gec_invalidate_copy_flags].
  revert w Hrun Hstale. induction cs as [|c cs IH]; intros w Hrun Hstale.
  - injection Hrun as _ <-. exact Hstale.
  - cbn [do_calls] in Hrun. unfold bind in Hrun.
    destruct (do_call ACCESS_DENIED c w) as [[a w1]| |] eqn:E;
      try discriminate.
    apply (IH w1 Hrun). exact (keeps_do_call c w a w1 E t Hstale).
Qed.

(** ** Chunks *)

Lemma ceil_div_nonpos (rem max : Z) :
  0 < max -> ceil_div rem max <= 0 -> rem <= 0.
Proof.
  unfold ceil_div. intros Hm H.
  destruct (Z.le_gt_cases rem 0) as [Hle | Hgt]; [exact Hle|].
  assert (1 <= (rem + max - 1) / max); [|lia].
  apply Z.div_le_lower_bound; lia.
Qed.

Lemma ceil_div_pos (rem max : Z) :
  0 < max -> 0 < ceil_div rem max -> 0 < rem.
Proof.
  unfold ceil_div. intros Hm H.
  destruct (Z.le_gt_cases rem 0) as [Hle | Hgt]; [|lia].
  assert ((rem + max - 1) / max <= 0); [|lia].
  assert ((rem + max - 1) / max < 1); [|lia].
  apply Z.div_lt_upper_bound; lia.
Qed.

Lemma ceil_div_step (rem max : Z) :
  0 < max -> ceil_div (rem - max) max = ceil_div rem max - 1.
Proof.
  unfold ceil_div. intros Hm.
  replace (rem - max + max - 1) with (rem + max - 1 + (-1) * max) by lia.
  rewrite Z.div_add by lia. lia.
Qed.

Lemma ceil_div_last (rem max : Z) :
  0 < rem <= max -> ceil_div rem max = 1.
Proof.
  unfold ceil_div. intros H. symmetry.
  apply Z.div_unique with (r := rem - 1); lia.
Qed.

Lemma ceil_div_0 (max : Z) : 0 < max -> ceil_div 0 max = 0.
Proof. unfold ceil_div. intros H. apply Z.div_small. lia. Qed.

(** The count of chunks that remain after one more chunk. *)
Lemma chunk_count_step (count : nat) (rem max : Z) :
  0 < max ->
  S count = Z.to_nat (ceil_div rem max) ->
  0 < rem /\ count = Z.to_nat (ceil_div (rem - max) max).
Proof.
  intros Hm Hc. split.
  - apply (ceil_div_pos rem max Hm). lia.
  - rewrite ceil_div_step by exact Hm. lia.
Qed.

Lemma chunks_from_seqZ (off n max : Z) (count : nat) (k : Z) :
  chunks_from count (off + k * max) (n - k * max) max =
    map (chunk off n max) (seqZ k (Z.of_nat count)).
Proof.
  revert k. induction count as [|count IH]; intros k.
  - reflexivity.
  - rewrite seqZ_cons by lia. cbn [chunks_from map].
    replace (Z.pred (Z.of_nat (S count))) with (Z.of_nat count) by lia.
    rewrite <- IH. unfold chunk at 1. f_equal. f_equal; lia.
Qed.

Lemma chunks_chunks_from (off n max : Z) :
  chunks off n max = chunks_from (Z.to_nat (ceil_div n max)) off n max.
Proof.
  unfold chunks.
  pose proof (chunks_from_seqZ off n max (Z.to_nat (ceil_div n max)) 0) as H.
  rewrite Z.mul_0_l, Z.add_0_r, Z.sub_0_r in H. rewrite H.
  destruct (Z.le_gt_cases 0 (ceil_div n max)) as [Hc | Hc].
  - rewrite Z2Nat.id by exact Hc. reflexivity.
  - rewrite seqZ_nil by lia.
    replace (Z.to_nat (ceil_div n max)) with O by lia. reflexivity.
Qed.

Lemma chunks_from_covers (max : Z) (count : nat) :
  forall off rem,
    0 < max -> 0 <= rem -> count = Z.to_nat (ceil_div rem max) ->
    covers off (off + rem) (chunks_from count off rem max).
Proof.
  induction count as [|count IH]; intros off rem Hm Hr Hc.
  - cbn. pose proof (ceil_div_nonpos rem max Hm). lia.
  - destruct (chunk_count_step count rem max Hm Hc) as [Hpos Hc'].
    cbn [chunks_from covers fst snd]. split; [reflexivity|].
    split; [lia|].
    destruct (Z.le_gt_cases rem max) as [Hle | Hgt].
    + rewrite (ceil_div_last rem max) in Hc by lia.
      assert (count = O) as -> by lia. cbn. lia.
    + replace (off + Z.min max rem) with (off + max) by lia.
      replace (off + rem) with (off + max + (rem - max)) by lia.
      apply IH; [exact Hm | lia | exact Hc'].
Qed.

Lemma chunks_from_sizes (max : Z) (count : nat) :
  forall off rem,
    0 < max -> count = Z.to_nat (ceil_div rem max) ->
    Forall (fun c => 0 < snd c <= max) (chunks_from count off rem max).
Proof.
  induction count as [|count IH]; intros off rem Hm Hc.
  - constructor.
  - destruct (chunk_count_step count rem max Hm Hc) as [Hpos Hc'].
    cbn [chunks_from]. constructor; [cbn; lia|].
    apply IH; [exact Hm | exact Hc'].
Qed.

(** The chunks of the specification: ceil (n / max) of them, none empty and
    none larger than max, tiling [off, off + n). *)
Lemma chunks_spec (off n max : Z) :
  0 < max -> 0 <= n ->
  length (chunks off n max) = Z.to_nat (ceil_div n max)
  /\ Forall (fun c => 0 < snd c <= max) (chunks off n max)
  /\ covers off (off + n) (chunks off n max).
Proof.
  intros Hm Hn. split.
  - unfold chunks. rewrite length_map, length_seqZ. reflexivity.
  - rewrite chunks_chunks_from. split.
    + apply chunks_from_sizes; [exact Hm | reflexivity].
    + apply chunks_from_covers; [exact Hm | exact Hn | reflexivity].
Qed.

(** ** The loop of gec_write *)

Lemma C_min_unsigned (a b : Z) :
  0 <= a < 2 ^ 32 -> 0 <= b < 2 ^ 32 ->
  C.min (C.to_unsigned a) (C.to_unsigned b) = Z.min b a.
Proof.
  intros Ha Hb. rewrite !to_unsigned_small by assumption.
  unfold C.min. destruct (a <? b) eqn:E;
    [apply Z.ltb_lt in E | apply Z.ltb_ge in E]; lia.
Qed.

Lemma to_int_small (x : Z) : 0 <= x <= C.INT_MAX -> C.to_int x = x.
Proof.
  unfold C.to_int, C.INT_MAX. intros H.
  rewrite Z.mod_small by lia.
  destruct (x <? 2 ^ 31) eqn:E; [reflexivity|]. apply Z.ltb_ge in E. lia.
Qed.

Lemma memcpy_from_ok (cap : Z) (buf : list byte) (i n : Z) (w : world) :
  0 <= i -> 0 <= n -> i + n <= Z.of_nat (length buf) -> n <= cap ->
  memcpy_from cap buf i n w = Ok (take (Z.to_nat n) (drop (Z.to_nat i) buf), w).
Proof.
  intros Hi Hn Hb Hc. unfold memcpy_from.
  rewrite (proj2 (Z.leb_le 0 i) Hi), (proj2 (Z.leb_le 0 n) Hn),
    (proj2 (Z.leb_le _ _) Hb), (proj2 (Z.leb_le _ _) Hc).
  reflexivity.
Qed.

(** One turn of the loop of gec_write on a well-formed request. *)
Lemma gec_write_loop_step (priv : gec_priv) (buf : list byte)
    (addr nbytes maxlen : Z) (fuel : nat) (i rc : Z) (w : world) :
  data (programmer w) = Some priv ->
  0 < maxlen <= FLASH_WRITE_DATA_SIZE ->
  0 <= addr -> addr + nbytes <= 2 ^ 32 ->
  nbytes <= C.INT_MAX -> nbytes <= Z.of_nat (length buf) ->
  0 <= i < nbytes ->
  let c := write_command buf addr (addr + i, Z.min maxlen (nbytes - i)) in
  gec_write_loop ACCESS_DENIED (S fuel) buf addr nbytes maxlen i rc w =
    if status_of priv c w =? EC_LPC_RESULT_ACCESS_DENIED then
      Ok (ACCESS_DENIED,
          set_need_2nd_pass 1
            (set_fwcopy
               (gec_invalidate_copy addr nbytes (fwcopy (after priv c w)))
               (after priv c w)))
    else if negb (status_of priv c w =? 0) then
      Ok (status_of priv c w, set_try_latest_firmware 1 (after priv c w))
    else
      gec_write_loop ACCESS_DENIED fuel buf addr nbytes maxlen
        (i + Z.min maxlen (nbytes - i)) (status_of priv c w) (after priv c w).
Proof.
  intros Hp Hm Ha Han Hn Hb Hi c.
  unfold FLASH_WRITE_DATA_SIZE, C.INT_MAX in *.
  cbn [gec_write_loop].
  rewrite (to_unsigned_small i) by lia.
  rewrite (proj2 (Z.ltb_lt i nbytes)) by lia.
  rewrite C_min_unsigned by lia.
  rewrite (to_unsigned_small (addr + i)) by lia.
  rewrite (to_int_small (i + Z.min maxlen (nbytes - i)))
    by (unfold C.INT_MAX; lia).
  unfold bind at 1.
  rewrite (memcpy_from_ok 64) by lia.
  unfold bind at 1.
  assert (Hc : EC_LPC_COMMAND_FLASH_WRITE (addr + i)
                 (Z.min maxlen (nbytes - i))
                 (take (Z.to_nat (Z.min maxlen (nbytes - i)))
                    (drop (Z.to_nat i) buf)) = c).
  { unfold c, write_command, slice. cbn [fst snd].
    replace (addr + i - addr) with i by lia. reflexivity. }
  rewrite Hc, (priv_ec_command_eq c w priv Hp). cbn [fst].
  destruct (status_of priv c w =? EC_LPC_RESULT_ACCESS_DENIED);
    [reflexivity|].
  destruct (status_of priv c w =? 0); reflexivity.
Qed.

Lemma succeeded_exchange_of (priv : gec_priv) (c : command) (w : world) :
  (status_of priv c w =? 0) = true -> succeeded (exchange_of priv c w).
Proof. intros H. apply Z.eqb_eq in H. exact H. Qed.

(** The loop of gec_write on a well-formed request, from counter [i] on: it
    returns, having sent the commands of the chunks that remain up to the
    first one that did not succeed. *)
Lemma gec_write_loop_run (priv : gec_priv) (buf : list byte)
    (addr nbytes maxlen : Z) :
  0 < maxlen <= FLASH_WRITE_DATA_SIZE ->
  0 <= addr -> addr + nbytes <= 2 ^ 32 ->
  nbytes <= C.INT_MAX -> nbytes <= Z.of_nat (length buf) ->
  forall (count fuel : nat) (i : Z) (w : world),
    data (programmer w) = Some priv ->
    0 <= i <= nbytes ->
    count = Z.to_nat (ceil_div (nbytes - i) maxlen) ->
    (count < fuel)%nat ->
    exists rv w' new,
      gec_write_loop ACCESS_DENIED fuel buf addr nbytes maxlen i 0 w
        = Ok (rv, w')
      /\ trace w' = trace w ++ new
      /\ write_post ACCESS_DENIED addr nbytes
           (map (write_command buf addr)
              (chunks_from count (addr + i) (nbytes - i) maxlen))
           w new rv w'.
Proof.
  intros Hm Ha Han Hn Hb.
  induction count as [|count IH]; intros fuel i w Hp Hi Hc Hf.
  - (* nothing remains *)
    pose proof (ceil_div_nonpos (nbytes - i) maxlen (proj1 Hm)) as H0.
    assert (i = nbytes) as -> by lia.
    destruct fuel as [|fuel]; [lia|]. cbn [gec_write_loop].
    rewrite to_unsigned_small by (unfold C.INT_MAX in Hn; lia).
    rewrite Z.ltb_irrefl.
    exists 0, (set_try_latest_firmware 1 w), [].
    split; [reflexivity|]. split; [symmetry; apply app_nil_r|].
    left. repeat split. constructor.
  - destruct (chunk_count_step count _ _ (proj1 Hm) Hc) as [Hpos Hc'].
    destruct fuel as [|fuel]; [lia|].
    rewrite (gec_write_loop_step priv) by (assumption || lia).
    cbn [chunks_from map].
    set (c := write_command buf addr (addr + i, Z.min maxlen (nbytes - i))).
    destruct (status_of priv c w =? EC_LPC_RESULT_ACCESS_DENIED) eqn:E4.
    { (* access denied: stop here *)
      apply Z.eqb_eq in E4.
      eexists _, _, [exchange_of priv c w].
      split; [reflexivity|]. split; [apply trace_after|].
      right. left. exists [], (exchange_of priv c w).
      split; [reflexivity|]. split; [constructor|]. split; [exact E4|].
      split; [eexists; reflexivity|]. repeat split. }
    destruct (status_of priv c w =? 0) eqn:E0; cbn [negb].
    2:{ (* any other failure: break *)
      apply Z.eqb_neq in E4, E0.
      eexists _, _, [exchange_of priv c w].
      split; [reflexivity|]. split; [apply trace_after|].
      right. right. exists [], (exchange_of priv c w).
      split; [reflexivity|]. split; [constructor|]. split; [exact E0|].
      split; [exact E4|]. split; [eexists; reflexivity|]. repeat split. }
    (* success: go on with the next chunk *)
    pose proof (succeeded_exchange_of priv c w E0) as Hs.
    apply Z.eqb_eq in E0. rewrite E0.
    assert (Hnext :
      chunks_from count (addr + (i + Z.min maxlen (nbytes - i)))
        (nbytes - (i + Z.min maxlen (nbytes - i))) maxlen
      = chunks_from count (addr + i + maxlen) (nbytes - i - maxlen) maxlen
      /\ count =
           Z.to_nat (ceil_div (nbytes - (i + Z.min maxlen (nbytes - i)))
                       maxlen)).
    { destruct (Z.le_gt_cases (nbytes - i) maxlen) as [Hle | Hgt].
      - rewrite (ceil_div_last (nbytes - i) maxlen) in Hc by lia.
        assert (count = O) as -> by lia.
        replace (nbytes - (i + Z.min maxlen (nbytes - i))) with 0 by lia.
        rewrite ceil_div_0 by lia. split; reflexivity.
      - replace (i + Z.min maxlen (nbytes - i)) with (i + maxlen) by lia.
        split; [f_equal; lia|]. rewrite Hc'. f_equal. f_equal. lia. }
    destruct Hnext as [Hl Hc''].
    destruct (IH fuel (i + Z.min maxlen (nbytes - i)) (after priv c w))
      as (rv & w' & new & Hrun & Htr & Hpost);
      [exact Hp | lia | exact Hc'' | lia |].
    rewrite Hl in Hpost.
    exists rv, w', (exchange_of priv c w :: new).
    split; [exact Hrun|].
    split; [rewrite Htr, trace_after, <- app_assoc; reflexivity|].
    destruct Hpost as [H | [H | H]].
    + left. destruct H as (Hall & Hcmds & Hrest).
      split; [constructor; assumption|].
      split; [cbn [map]; rewrite Hcmds; reflexivity | exact Hrest].
    + right. left. destruct H as (pre & e & Hnew & Hall & He & Hpre & Hrest).
      exists (exchange_of priv c w :: pre), e.
      split; [rewrite Hnew; reflexivity|].
      split; [constructor; assumption|]. split; [exact He|].
      split; [|exact Hrest].
      cbn [map]. apply prefix_cons. exact Hpre.
    + right. right.
      destruct H as (pre & e & Hnew & Hall & He0 & He4 & Hpre & Hrest).
      exists (exchange_of priv c w :: pre), e.
      split; [rewrite Hnew; reflexivity|].
      split; [constructor; assumption|]. split; [exact He0|].
      split; [exact He4|]. split; [|exact Hrest].
      cbn [map]. apply prefix_cons. exact Hpre.
Qed.

Lemma ceil_div_le (n max : Z) : 0 < max -> 0 <= n -> ceil_div n max <= n.
Proof.
  intros Hm Hn. unfold ceil_div.
  destruct (Z.eq_dec n 0) as [-> | Hne].
  - rewrite Z.div_small by lia. lia.
  - assert ((n + max - 1) / max < n + 1); [|lia].
    apply Z.div_lt_upper_bound; nia.
Qed.

(** gec_write returns on every well-formed request. *)
Lemma gec_write_run (priv : gec_priv) (buf : list byte) (addr nbytes : Z)
    (w : world) :
  data (programmer w) = Some priv ->
  write_request w buf addr nbytes ->
  exists rv w' new,
    gec_write ACCESS_DENIED buf addr nbytes w = Ok (rv, w')
    /\ trace w' = trace w ++ new
    /\ write_post ACCESS_DENIED addr nbytes
         (write_commands buf addr nbytes (max_data_write (programmer w)))
         w new rv w'.
Proof.
  intros Hp (Hm & Ha & Han & Hn & Hb).
  unfold gec_write, bind, get. unfold write_commands.
  rewrite chunks_chunks_from.
  pose proof (ceil_div_le nbytes _ (proj1 Hm) (proj1 Hn)) as Hle.
  destruct (gec_write_loop_run priv buf addr nbytes
              (max_data_write (programmer w)) Hm Ha Han (proj2 Hn) Hb
              (Z.to_nat (ceil_div nbytes (max_data_write (programmer w))))
              (S (Z.to_nat nbytes)) 0 w Hp)
    as (rv & w' & new & Hrun & Htr & Hpost).
  - lia.
  - rewrite Z.sub_0_r. reflexivity.
  - lia.
  - rewrite Z.add_0_r, Z.sub_0_r in Hpost.
    exists rv, w', new. split; [exact Hrun|]. split; [exact Htr | exact Hpost].
Qed.

Lemma invalidate_overlapping_stale (addr len : Z) (w w' : world) :
  fwcopy w' = gec_invalidate_copy addr len (fwcopy w) ->
  overlapping_stale addr len w w'.
Proof.
  intros Hfw t Hin Ho Hos Ha Hal Hx.
  rewrite Hfw, gec_invalidate_copy_entry.
  rewrite (intersects_in_range addr len (fwcopy w t)) by assumption.
  rewrite bool_decide_eq_true_2; [reflexivity|].
  intros ->. unfold copies in Hin. simpl in Hin.
  repeat destruct Hin as [Hin | Hin]; try discriminate. exact Hin.
Qed.

(** ** Access denied *)

(** gec_block_erase sends one erase command for the whole range. *)
Lemma gec_block_erase_run (priv : gec_priv) (blockaddr len : Z) (w : world) :
  data (programmer w) = Some priv ->
  let c := EC_LPC_COMMAND_FLASH_ERASE blockaddr len in
  gec_block_erase ACCESS_DENIED blockaddr len w =
    if status_of priv c w =? EC_LPC_RESULT_ACCESS_DENIED then
      Ok (ACCESS_DENIED,
          set_need_2nd_pass 1
            (set_fwcopy (gec_invalidate_copy blockaddr len (fwcopy w))
               (after priv c w)))
    else if negb (status_of priv c w =? 0) then
      Ok (status_of priv c w, after priv c w)
    else Ok (status_of priv c w, set_try_latest_firmware 1 (after priv c w)).
Proof.
  intros Hp c. subst c. unfold gec_block_erase, bind.
  rewrite (priv_ec_command_eq _ w priv Hp). cbn [fst].
  destruct (status_of priv _ w =? EC_LPC_RESULT_ACCESS_DENIED);
    [reflexivity|].
  destruct (status_of priv _ w =? 0); reflexivity.
Qed.

Lemma last_of_succeeded (pre : list exchange) (e e' : exchange) :
  Forall succeeded pre -> In e (pre ++ [e']) -> status e <> 0 -> e = e'.
Proof.
  intros Hall Hin Hne. apply in_app_or in Hin. destruct Hin as [Hin | Hin].
  - exfalso. apply Hne. rewrite Forall_forall in Hall.
    apply Hall, list_elem_of_In, Hin.
  - destruct Hin as [<- | []]. reflexivity.
Qed.

(** C1: when the controller answers an erase command, or the write command
    of a chunk, with access denied, the call invalidates the copies that
    overlap the whole range of the call, sets need_2nd_pass and returns
    ACCESS_DENIED; the denied command is the last one the call sends.  Any
    other status that is not success is returned as it is, again after no
    further command. *)
Theorem access_denied_is_deferred (w : world) (priv : gec_priv) :
  data (programmer w) = Some priv ->
  (forall blockaddr len,
     exists rv w' e,
       gec_block_erase ACCESS_DENIED blockaddr len w = Ok (rv, w')
       /\ trace w' = trace w ++ [e]
       /\ command_sent e = EC_LPC_COMMAND_FLASH_ERASE blockaddr len
       /\ (status e = EC_LPC_RESULT_ACCESS_DENIED ->
           rv = ACCESS_DENIED
           /\ need_2nd_pass w' = 1
           /\ fwcopy w' = gec_invalidate_copy blockaddr len (fwcopy w)
           /\ overlapping_stale blockaddr len w w')
       /\ (status e <> 0 -> status e <> EC_LPC_RESULT_ACCESS_DENIED ->
           rv = status e))
  /\ (forall buf addr nbytes,
       write_request w buf addr nbytes ->
       exists rv w' new,
         gec_write ACCESS_DENIED buf addr nbytes w = Ok (rv, w')
         /\ trace w' = trace w ++ new
         /\ (forall e, In e new ->
               status e = EC_LPC_RESULT_ACCESS_DENIED ->
               rv = ACCESS_DENIED
               /\ need_2nd_pass w' = 1
               /\ fwcopy w' = gec_invalidate_copy addr nbytes (fwcopy w)
               /\ overlapping_stale addr nbytes w w'
               /\ exists pre, new = pre ++ [e] /\ Forall succeeded pre)
         /\ (forall e, In e new ->
               status e <> 0 -> status e <> EC_LPC_RESULT_ACCESS_DENIED ->
               rv = status e
               /\ exists pre, new = pre ++ [e] /\ Forall succeeded pre)).
Proof.
  intros Hp. split.
  - intros blockaddr len.
    pose proof (gec_block_erase_run priv blockaddr len w Hp) as Hrun.
    cbv zeta in Hrun.
    set (c := EC_LPC_COMMAND_FLASH_ERASE blockaddr len) in *.
    destruct (status_of priv c w =? EC_LPC_RESULT_ACCESS_DENIED) eqn:E4;
      [|destruct (status_of priv c w =? 0) eqn:E0; cbn [negb] in Hrun];
      eexists _, _, (exchange_of priv c w);
      (split; [exact Hrun|]); (split; [reflexivity|]);
      (split; [reflexivity|]).
    + split; [|intros _ H; apply Z.eqb_eq in E4; contradiction].
      intros _. repeat split.
      apply invalidate_overlapping_stale. reflexivity.
    + apply Z.eqb_eq in E0. split; [|intros H; contradiction].
      intros H. apply Z.eqb_neq in E4. contradiction.
    + split; [|reflexivity].
      intros H. apply Z.eqb_neq in E4. contradiction.
  - intros buf addr nbytes Hreq.
    destruct (gec_write_run priv buf addr nbytes w Hp Hreq)
      as (rv & w' & new & Hrun & Htr & Hpost).
    exists rv, w', new. split; [exact Hrun|]. split; [exact Htr|].
    unfold EC_LPC_RESULT_ACCESS_DENIED in *.
    destruct Hpost as [H | [H | H]].
    + destruct H as (Hall & _). rewrite Forall_forall in Hall.
      split; intros e Hin He; exfalso;
        apply list_elem_of_In, Hall in Hin; unfold succeeded in Hin; lia.
    + destruct H as (pre & e' & Hnew & Hall & He' & _ & Hrv & Hfw & Hneed & _).
      split.
      * intros e Hin He. rewrite Hnew in Hin.
        assert (e = e') as ->
          by (apply (last_of_succeeded pre); [assumption.. | lia]).
        split; [exact Hrv|]. split; [exact Hneed|]. split; [exact Hfw|].
        split; [apply invalidate_overlapping_stale, Hfw|].
        exists pre. split; assumption.
      * intros e Hin He0 He4. rewrite Hnew in Hin.
        assert (e = e') as -> by (apply (last_of_succeeded pre); assumption).
        contradiction.
    + destruct H as (pre & e' & Hnew & Hall & He0' & He4' & _ & Hrv & _).
      split.
      * intros e Hin He. rewrite Hnew in Hin.
        assert (e = e') as ->
          by (apply (last_of_succeeded pre); [assumption.. | lia]).
        contradiction.
      * intros e Hin He0 He4. rewrite Hnew in Hin.
        assert (e = e') as -> by (apply (last_of_succeeded pre); assumption).
        split; [exact Hrv|]. exists pre. split; assumption.
Qed.

(** ** The loop of gec_read *)

Lemma memcpy_to_ok (dst : list byte) (i : Z) (src : list byte) (n : Z)
    (w : world) :
  0 <= i -> 0 <= n -> i + n <= Z.of_nat (length dst) ->
  n <= Z.of_nat (length src) ->
  memcpy_to dst i src n w =
    Ok (take (Z.to_nat i) dst ++ take (Z.to_nat n) src
        ++ drop (Z.to_nat (i + n)) dst, w).
Proof.
  intros Hi Hn Hd Hs. unfold memcpy_to.
  rewrite (proj2 (Z.leb_le 0 i) Hi), (proj2 (Z.leb_le 0 n) Hn),
    (proj2 (Z.leb_le _ _) Hd), (proj2 (Z.leb_le _ _) Hs).
  reflexivity.
Qed.

Lemma int_add_ok (a b : Z) (w : world) :
  C.INT_MIN <= a + b <= C.INT_MAX -> int_add a b w = Ok (a + b, w).
Proof.
  intros [H1 H2]. unfold int_add.
  rewrite (proj2 (Z.leb_le _ _) H1), (proj2 (Z.leb_le _ _) H2). reflexivity.
Qed.

Lemma payload_exchange_of (priv : gec_priv) (off size : Z) (w : world) :
  payload (exchange_of priv (EC_LPC_COMMAND_FLASH_READ off size) w) =
    take (Z.to_nat size)
      (response_of priv (EC_LPC_COMMAND_FLASH_READ off size) w).
Proof. reflexivity. Qed.

Lemma length_payload (priv : gec_priv) (off size : Z) (w : world) :
  fills_reads priv -> 0 <= size <= EC_LPC_PARAM_SIZE ->
  length (payload (exchange_of priv (EC_LPC_COMMAND_FLASH_READ off size) w))
    = Z.to_nat size.
Proof.
  intros Hf Hs. rewrite payload_exchange_of. apply length_take_le.
  specialize (Hf off size (ec w) Hs). unfold response_of. lia.
Qed.

(** One turn of the loop of gec_read on a well-formed request. *)
Lemma gec_read_loop_step (priv : gec_priv) (readarr : list byte)
    (blockaddr readcnt maxlen : Z) (fuel : nat) (i rc : Z) (w : world) :
  data (programmer w) = Some priv ->
  fills_reads priv ->
  0 < maxlen <= EC_LPC_PARAM_SIZE ->
  0 <= blockaddr -> blockaddr + readcnt <= 2 ^ 32 ->
  readcnt + maxlen <= C.INT_MAX + 1 ->
  0 <= i < readcnt ->
  readcnt <= Z.of_nat (length readarr) ->
  let size := Z.min maxlen (readcnt - i) in
  let c := EC_LPC_COMMAND_FLASH_READ (blockaddr + i) size in
  gec_read_loop (S fuel) blockaddr readcnt maxlen i rc readarr w =
    if negb (status_of priv c w =? 0) then
      Ok ((status_of priv c w, readarr), after priv c w)
    else
      gec_read_loop fuel blockaddr readcnt maxlen (i + maxlen)
        (status_of priv c w)
        (take (Z.to_nat i) readarr ++ payload (exchange_of priv c w)
         ++ drop (Z.to_nat (i + size)) readarr)
        (after priv c w).
Proof.
  intros Hp Hf Hm Ha Har Hov Hi Hl size c.
  unfold EC_LPC_PARAM_SIZE, C.INT_MAX in *.
  cbn [gec_read_loop].
  rewrite (to_unsigned_small i) by lia.
  rewrite (proj2 (Z.ltb_lt i readcnt)) by lia.
  rewrite C_min_unsigned by lia.
  rewrite (to_unsigned_small (blockaddr + i)) by lia.
  fold size. fold c.
  unfold bind at 1. rewrite (priv_ec_command_eq c w priv Hp). cbn [fst snd].
  destruct (status_of priv c w =? 0); cbn [negb]; [|reflexivity].
  assert (Hresp : size <= Z.of_nat (length (response_of priv c w))).
  { apply Hf. unfold EC_LPC_PARAM_SIZE. lia. }
  unfold bind at 1.
  rewrite memcpy_to_ok; [| lia | lia | lia |].
  2:{ rewrite length_take. unfold EC_LPC_PARAM_SIZE. lia. }
  unfold bind at 1.
  rewrite int_add_ok by (unfold C.INT_MIN, C.INT_MAX; lia).
  rewrite take_take.
  replace (Nat.min (Z.to_nat size) (Z.to_nat EC_LPC_PARAM_SIZE))
    with (Z.to_nat size) by (unfold EC_LPC_PARAM_SIZE; lia).
  reflexivity.
Qed.

Lemma take_splice (l P : list byte) (i n : nat) :
  (i <= length l)%nat ->
  take (i + length P) (take i l ++ P ++ drop n l) = take i l ++ P.
Proof.
  intros Hi. rewrite app_assoc. apply take_app_length'.
  rewrite length_app, length_take_le by exact Hi. reflexivity.
Qed.

Lemma drop_splice (l P : list byte) (i k : nat) :
  (i <= length l)%nat -> (i + length P <= k)%nat ->
  drop k (take i l ++ P ++ drop (i + length P) l) = drop k l.
Proof.
  intros Hi Hk. rewrite app_assoc, drop_app_ge;
    rewrite length_app, length_take_le by exact Hi; [|exact Hk].
  rewrite drop_drop. f_equal. lia.
Qed.

(** The loop of gec_read on a well-formed request, from counter [i] on. *)
Lemma gec_read_loop_run (priv : gec_priv) (blockaddr readcnt maxlen : Z) :
  fills_reads priv ->
  0 < maxlen <= EC_LPC_PARAM_SIZE ->
  0 <= blockaddr -> blockaddr + readcnt <= 2 ^ 32 ->
  readcnt + maxlen <= C.INT_MAX + 1 ->
  forall (count fuel : nat) (i : Z) (readarr : list byte) (w : world),
    data (programmer w) = Some priv ->
    readcnt <= Z.of_nat (length readarr) ->
    0 <= i < readcnt + maxlen ->
    count = Z.to_nat (ceil_div (readcnt - i) maxlen) ->
    (count < fuel)%nat ->
    exists rv buf' w' new,
      gec_read_loop fuel blockaddr readcnt maxlen i 0 readarr w
        = Ok ((rv, buf'), w')
      /\ trace w' = trace w ++ new
      /\ (Forall succeeded new ->
          map command_sent new =
            map read_command
              (chunks_from count (blockaddr + i) (readcnt - i) maxlen)
          /\ rv = 0
          /\ buf' = take (Z.to_nat i) readarr ++ concat (map payload new)
                    ++ drop (Z.to_nat (Z.max i readcnt)) readarr).
Proof.
  intros Hf Hm Ha Har Hov.
  induction count as [|count IH]; intros fuel i readarr w Hp Hl Hi Hc Hfuel.
  - pose proof (ceil_div_nonpos (readcnt - i) maxlen (proj1 Hm)) as H0.
    assert (readcnt <= i) by lia.
    destruct fuel as [|fuel]; [lia|]. cbn [gec_read_loop].
    rewrite to_unsigned_small by (unfold C.INT_MAX in Hov; lia).
    rewrite (proj2 (Z.ltb_ge i readcnt)) by lia.
    exists 0, readarr, w, [].
    split; [reflexivity|]. split; [symmetry; apply app_nil_r|].
    intros _. split; [reflexivity|]. split; [reflexivity|].
    rewrite Z.max_l by lia. cbn [map concat app].
    symmetry. apply take_drop.
  - destruct (chunk_count_step count _ _ (proj1 Hm) Hc) as [Hpos Hc'].
    destruct fuel as [|fuel]; [lia|].
    rewrite (gec_read_loop_step priv) by (assumption || lia).
    cbn [chunks_from map].
    set (size := Z.min maxlen (readcnt - i)).
    set (c := EC_LPC_COMMAND_FLASH_READ (blockaddr + i) size).
    destruct (status_of priv c w =? 0) eqn:E0; cbn [negb].
    2:{ apply Z.eqb_neq in E0.
        eexists _, _, _, [exchange_of priv c w].
        split; [reflexivity|]. split; [apply trace_after|].
        intros Hall. exfalso. apply E0.
        apply Forall_cons in Hall. exact (proj1 Hall). }
    pose proof (succeeded_exchange_of priv c w E0) as Hs.
    apply Z.eqb_eq in E0. rewrite E0.
    set (P := payload (exchange_of priv c w)).
    assert (HP : length P = Z.to_nat size).
    { apply length_payload; [exact Hf | unfold size; lia]. }
    set (b1 := take (Z.to_nat i) readarr ++ P
               ++ drop (Z.to_nat (i + size)) readarr).
    assert (Hb1 : length b1 = length readarr).
    { unfold b1. rewrite !length_app, length_take_le, length_drop, HP;
        unfold size; lia. }
    destruct (IH fuel (i + maxlen) b1 (after priv c w))
      as (rv & buf' & w' & new & Hrun & Htr & Hpost);
      [exact Hp | lia | lia | rewrite Hc'; f_equal; f_equal; lia | lia |].
    exists rv, buf', w', (exchange_of priv c w :: new).
    split; [exact Hrun|].
    split; [rewrite Htr, trace_after, <- app_assoc; reflexivity|].
    intros Hall. apply Forall_cons in Hall. destruct Hall as [_ Hall].
    destruct (Hpost Hall) as (Hcmds & Hrv & Hbuf).
    replace (blockaddr + (i + maxlen)) with (blockaddr + i + maxlen)
      in Hcmds by lia.
    replace (readcnt - (i + maxlen)) with (readcnt - i - maxlen)
      in Hcmds by lia.
    split; [cbn [map]; rewrite Hcmds; reflexivity|].
    split; [exact Hrv|].
    rewrite Hbuf. cbn [map concat]. fold P.
    rewrite (Z.max_r i readcnt) by lia.
    rewrite <- !app_assoc.
    assert (Hi' : (Z.to_nat i <= length readarr)%nat) by lia.
    assert (Hsum : Z.to_nat (i + size) = (Z.to_nat i + length P)%nat)
      by (rewrite HP; unfold size; lia).
    destruct (Z.le_gt_cases (readcnt - i) maxlen) as [Hle | Hgt].
    + (* the last chunk *)
      rewrite (ceil_div_last (readcnt - i) maxlen) in Hc by lia.
      assert (count = O) as -> by lia.
      cbn [chunks_from map] in Hcmds. apply map_eq_nil in Hcmds.
      rewrite Hcmds. cbn [map concat app].
      rewrite Z.max_l by lia. rewrite take_drop.
      unfold b1. replace (i + size) with readcnt by (unfold size; lia).
      reflexivity.
    + (* a chunk of the maximum size *)
      rewrite Z.max_r by lia.
      assert (Hsz : size = maxlen) by (unfold size; lia).
      replace (Z.to_nat (i + maxlen)) with (Z.to_nat i + length P)%nat
        by (rewrite <- Hsum, Hsz; reflexivity).
      unfold b1. rewrite Hsum, take_splice by exact Hi'.
      rewrite drop_splice; [| exact Hi' | rewrite <- Hsum; lia].
      rewrite <- !app_assoc. reflexivity.
Qed.

(** gec_read returns on every well-formed request. *)
Lemma gec_read_run (priv : gec_priv) (readarr : list byte)
    (blockaddr readcnt : Z) (w : world) :
  data (programmer w) = Some priv ->
  fills_reads priv ->
  read_request w readarr blockaddr readcnt ->
  exists rv buf' w' new,
    gec_read readarr blockaddr readcnt w = Ok ((rv, buf'), w')
    /\ trace w' = trace w ++ new
    /\ (Forall succeeded new ->
        map command_sent new =
          read_commands blockaddr readcnt (max_data_read (programmer w))
        /\ rv = 0
        /\ buf' = concat (map payload new)
                  ++ drop (Z.to_nat readcnt) readarr).
Proof.
  intros Hp Hf (Hm & Ha & Har & Hn & Hov & Hl).
  unfold gec_read, bind, get. unfold read_commands.
  rewrite chunks_chunks_from.
  pose proof (ceil_div_le readcnt _ (proj1 Hm) Hn) as Hle.
  destruct (gec_read_loop_run priv blockaddr readcnt
              (max_data_read (programmer w)) Hf Hm Ha Har Hov
              (Z.to_nat (ceil_div readcnt (max_data_read (programmer w))))
              (S (Z.to_nat readcnt)) 0 readarr w Hp Hl)
    as (rv & buf' & w' & new & Hrun & Htr & Hpost).
  - lia.
  - rewrite Z.sub_0_r. reflexivity.
  - lia.
  - exists rv, buf', w', new.
    split; [exact Hrun|]. split; [exact Htr|].
    intros Hall. destruct (Hpost Hall) as (Hcmds & Hrv & Hbuf).
    rewrite Z.add_0_r, Z.sub_0_r in Hcmds.
    rewrite Z.max_r in Hbuf by exact Hn.
    split; [exact Hcmds|]. split; [exact Hrv | exact Hbuf].
Qed.

Lemma write_post_succeeded (addr nbytes : Z) (cmds : list command)
    (w : world) (new : list exchange) (rv : Z) (w' : world) :
  write_post ACCESS_DENIED addr nbytes cmds w new rv w' ->
  Forall succeeded new ->
  map command_sent new = cmds /\ rv = 0.
Proof.
  intros [H | [H | H]] Hall.
  - destruct H as (_ & Hcmds & Hrv & _). split; assumption.
  - destruct H as (pre & e & -> & _ & He & _). exfalso.
    apply Forall_app in Hall. destruct Hall as [_ Hall].
    apply Forall_cons in Hall. destruct Hall as [Hall _].
    unfold succeeded in Hall. rewrite He in Hall. discriminate.
  - destruct H as (pre & e & -> & _ & He & _). exfalso.
    apply Forall_app in Hall. destruct Hall as [_ Hall].
    apply Forall_cons in Hall. destruct Hall as [Hall _].
    exact (He Hall).
Qed.

(** ** Chunking *)

(** C7: on a well-formed request whose commands all succeed, gec_read and
    gec_write send exactly the commands of the chunks of the request, in
    order: ceil (N / max) commands, none for more than max bytes, each
    starting where the one before it ends, from the offset of the request to
    its end.  gec_read leaves the payloads of its commands, in that order, at
    the start of the destination buffer. *)
Theorem transfers_are_chunked (w : world) (priv : gec_priv) :
  data (programmer w) = Some priv ->
  (forall readarr blockaddr readcnt,
     fills_reads priv ->
     read_request w readarr blockaddr readcnt ->
     let max := max_data_read (programmer w) in
     exists rv buf' w' new,
       gec_read readarr blockaddr readcnt w = Ok ((rv, buf'), w')
       /\ trace w' = trace w ++ new
       /\ (Forall succeeded new ->
           rv = 0
           /\ map command_sent new = read_commands blockaddr readcnt max
           /\ length new = Z.to_nat (ceil_div readcnt max)
           /\ Forall (fun c => 0 < snd c <= max)
                (chunks blockaddr readcnt max)
           /\ covers blockaddr (blockaddr + readcnt)
                (chunks blockaddr readcnt max)
           /\ buf' = concat (map payload new)
                     ++ drop (Z.to_nat readcnt) readarr))
  /\ (forall buf addr nbytes,
       write_request w buf addr nbytes ->
       let max := max_data_write (programmer w) in
       exists rv w' new,
         gec_write ACCESS_DENIED buf addr nbytes w = Ok (rv, w')
         /\ trace w' = trace w ++ new
         /\ (Forall succeeded new ->
             rv = 0
             /\ map command_sent new = write_commands buf addr nbytes max
             /\ length new = Z.to_nat (ceil_div nbytes max)
             /\ Forall (fun c => 0 < snd c <= max) (chunks addr nbytes max)
             /\ covers addr (addr + nbytes) (chunks addr nbytes max))).
Proof.
  intros Hp. split.
  - intros readarr blockaddr readcnt Hf Hreq max.
    destruct (gec_read_run priv readarr blockaddr readcnt w Hp Hf Hreq)
      as (rv & buf' & w' & new & Hrun & Htr & Hpost).
    exists rv, buf', w', new. split; [exact Hrun|]. split; [exact Htr|].
    intros Hall. destruct (Hpost Hall) as (Hcmds & Hrv & Hbuf).
    destruct Hreq as (Hm & _ & _ & Hn & _).
    destruct (chunks_spec blockaddr readcnt max (proj1 Hm) Hn)
      as (Hlen & Hsizes & Hcov).
    split; [exact Hrv|]. split; [exact Hcmds|].
    split; [|split; [exact Hsizes | split; [exact Hcov | exact Hbuf]]].
    rewrite <- Hlen, <- (length_map command_sent new), Hcmds.
    unfold read_commands. apply length_map.
  - intros buf addr nbytes Hreq max.
    destruct (gec_write_run priv buf addr nbytes w Hp Hreq)
      as (rv & w' & new & Hrun & Htr & Hpost).
    exists rv, w', new. split; [exact Hrun|]. split; [exact Htr|].
    intros Hall.
    destruct (write_post_succeeded _ _ _ _ _ _ _ Hpost Hall) as [Hcmds Hrv].
    destruct Hreq as (Hm & _ & _ & Hn & _).
    destruct (chunks_spec addr nbytes max (proj1 Hm) (proj1 Hn))
      as (Hlen & Hsizes & Hcov).
    split; [exact Hrv|]. split; [exact Hcmds|].
    split; [|split; [exact Hsizes | exact Hcov]].
    rewrite <- Hlen, <- (length_map command_sent new), Hcmds.
    unfold write_commands. apply length_map.
Qed.

End Facts.

(** ** The scenarios, run *)

Module Run.

Import Scenario.

Lemma priv_is_detected (need try : Z) (fw : registry)
    (active : lpc_current_image) :
  is_detected (session (Some priv) need try fw active) priv.
Proof. split; [reflexivity | discriminate]. Qed.

Lemma broken_priv_is_detected (need try : Z) (fw : registry)
    (active : lpc_current_image) :
  is_detected (session (Some broken_priv) need try fw active) broken_priv.
Proof. split; [reflexivity | discriminate]. Qed.

Lemma all_new_RO :
  all_new EC_LPC_IMAGE_RO =
    {| offset := 0; size := 0x20000; name := "RO_SECTION"; flags := 1 |}.
Proof. reflexivity. Qed.

Lemma all_new_RW_A :
  all_new EC_LPC_IMAGE_RW_A =
    {| offset := 0x20000; size := 0x20000; name := "RW_SECTION_A";
       flags := 1 |}.
Proof. reflexivity. Qed.

(** The scenario of the specification: prepare on the image records the
    three copies as new and jumps to RO. *)
Example prepare_scenario :
  gec_prepare fmap_find_in_memory candidate candidate_size started =
    Ok (0, after priv (reboot EC_LPC_IMAGE_RO) (set_fwcopy all_new started))
  /\ map (is_new all_new) copies = [true; true; true].
Proof. split; reflexivity. Qed.

(** [erase (0x20000, 0x8000)] while RO runs: the command succeeds,
    try_latest_firmware is set and RW-A stays new. *)
Example erase_inactive_scenario :
  gec_block_erase ACCESS_DENIED 0x20000 0x8000 prepared =
    Ok (0, set_try_latest_firmware 1
             (after priv (EC_LPC_COMMAND_FLASH_ERASE 0x20000 0x8000)
                prepared)).
Proof. reflexivity. Qed.

(** [erase (0, 0x8000)] while RO runs: access denied, RO is marked old and
    need_2nd_pass is set. *)
Example erase_active_scenario :
  gec_block_erase ACCESS_DENIED 0 0x8000 prepared =
    Ok (ACCESS_DENIED,
        set_need_2nd_pass 1
          (set_fwcopy (gec_invalidate_copy 0 0x8000 all_new)
             (after priv (EC_LPC_COMMAND_FLASH_ERASE 0 0x8000) prepared)))
  /\ map (is_new (gec_invalidate_copy 0 0x8000 all_new)) copies =
       [false; true; true].
Proof. split; reflexivity. Qed.

(** C10 at two sessions whose programmer is not detected, both flags set. *)
Lemma not_detected_returns_0_witness :
  (gec_prepare fmap_find_in_memory candidate candidate_size no_priv =
     Ok (0, no_priv)
   /\ gec_need_2nd_pass no_priv = Ok (0, no_priv)
   /\ gec_finish no_priv = Ok (0, no_priv))
  /\ (gec_prepare fmap_find_in_memory candidate candidate_size undetected =
        Ok (0, undetected)
      /\ gec_need_2nd_pass undetected = Ok (0, undetected)
      /\ gec_finish undetected = Ok (0, undetected)).
Proof.
  split.
  - apply (not_detected_returns_0 fmap_find_in_memory no_priv candidate
             candidate_size). left. reflexivity.
  - apply (not_detected_returns_0 fmap_find_in_memory undetected candidate
             candidate_size). right.
    eexists. split; reflexivity.
Defined.

(** C3 with RO stale and RW-A, RW-B new: the jump goes to RW-A. *)
Lemma gec_jump_copy_unspecified_witness :
  (gec_jump_copy EC_LPC_IMAGE_UNKNOWN denied =
     Ok (0, after priv (reboot EC_LPC_IMAGE_RW_A) denied)
   /\ trace (after priv (reboot EC_LPC_IMAGE_RW_A) denied) =
        [{| command_sent := EC_LPC_COMMAND_REBOOT_EC EC_LPC_IMAGE_RW_A 0;
            status := 0; response := [] |}])
  /\ ((exists rv w', gec_jump_copy EC_LPC_IMAGE_UNKNOWN denied = Ok (rv, w')
                     /\ rv <> 0 /\ trace w' = trace denied)
      <-> (forall t, In t copies -> is_new (fwcopy denied) t = false)).
Proof. exact (gec_jump_copy_unspecified denied priv eq_refl). Defined.

(** C5 after the second pass, RO stale and RW-A, RW-B new: finish jumps to
    RW-B, that jump succeeds, and no other jump is attempted. *)
Lemma gec_finish_order_witness :
  gec_finish updated = Ok (0, after priv (reboot EC_LPC_IMAGE_RW_B) updated)
  /\ exists rv w' pre last t,
       gec_finish updated = Ok (rv, w')
       /\ trace w' = trace updated ++ pre ++ [last]
       /\ command_sent last = reboot t
       /\ status last = rv
       /\ Forall failed pre
       /\ map command_sent (pre ++ [last])
            `prefix_of` map reboot (finish_candidates (fwcopy updated))
       /\ (rv <> 0 -> t = EC_LPC_IMAGE_RO).
Proof.
  split; [reflexivity|].
  apply (gec_finish_order updated priv (priv_is_detected _ _ _ _)).
  discriminate.
Defined.

(** C2 fails on the code: on an image without a region map prepare
    returns 0, which is success, not failure; and on an image with one it
    returns failure when the jump to RO fails. *)
Lemma prepare_without_fmap_returns_0 :
  (fmap_find_in_memory [] 0 = None
   /\ gec_prepare fmap_find_in_memory [] 0 started = Ok (0, started)
   /\ ~ prepare_as_stated fmap_find_in_memory [] 0 started)
  /\ (fmap_find_in_memory candidate candidate_size = Some image_fmap
      /\ gec_prepare fmap_find_in_memory candidate candidate_size
           started_broken =
           Ok (EC_LPC_RESULT_ERROR,
               after broken_priv (reboot EC_LPC_IMAGE_RO)
                 (set_fwcopy all_new started_broken))
      /\ ~ prepare_as_stated fmap_find_in_memory candidate candidate_size
            started_broken).
Proof.
  split.
  - split; [reflexivity|]. split; [reflexivity|].
    intros H. destruct (H 0 started eq_refl) as [_ H0].
    apply (H0 eq_refl). reflexivity.
  - split; [reflexivity|]. split; [reflexivity|].
    intros H. destruct (H _ _ eq_refl) as [H0 _].
    discriminate H0. discriminate.
Qed.

(** C2, amended, on the scenario: the map is found, the three copies are
    recorded, the jump to RO succeeds and prepare returns its status, 0. *)
Lemma gec_prepare_detected_witness :
  gec_prepare fmap_find_in_memory candidate candidate_size started =
    Ok (0, after priv (reboot EC_LPC_IMAGE_RO) (set_fwcopy all_new started))
  /\ (forall rv w',
        gec_prepare fmap_find_in_memory candidate candidate_size started =
          Ok (rv, w') ->
        (rv <> 0 <->
         exists fm, fmap_find_in_memory candidate candidate_size = Some fm
           /\ status_of priv (reboot EC_LPC_IMAGE_RO)
                (set_fwcopy (lookup_sections fm (fwcopy started)) started)
              <> 0)).
Proof.
  exact (gec_prepare_detected fmap_find_in_memory started priv candidate
           candidate_size
           (priv_is_detected _ _ _ _)).
Defined.

(** C4 fails on the code: with the flag set, RW-A fresh and the reboot
    command failing, need_2nd_pass returns -1, not a positive value. *)
Lemma need_2nd_pass_jump_fails :
  need_2nd_pass denied_broken = 1
  /\ first_fresh (fwcopy denied_broken) = Some EC_LPC_IMAGE_RW_A
  /\ gec_need_2nd_pass denied_broken =
       Ok (-1, after broken_priv (reboot EC_LPC_IMAGE_RW_A) denied_broken)
  /\ ~ need_2nd_pass_as_stated denied_broken.
Proof.
  split; [reflexivity|]. split; [reflexivity|]. split; [reflexivity|].
  intros H. destruct (H _ _ eq_refl) as [_ H1].
  destruct H1 as [_ H1]; [discriminate|].
  assert (0 < -1) by (apply H1; discriminate). lia.
Qed.

(** C4, amended, with the flag set, RO stale and RW-A new: the jump to RW-A
    succeeds and need_2nd_pass returns 1. *)
Lemma gec_need_2nd_pass_detected_witness :
  gec_need_2nd_pass denied =
    Ok (1, after priv (reboot EC_LPC_IMAGE_RW_A) denied)
  /\ (forall rv w', gec_need_2nd_pass denied = Ok (rv, w') ->
        (rv = 0 <-> need_2nd_pass denied = 0)).
Proof.
  destruct (gec_need_2nd_pass_detected denied priv
              (priv_is_detected _ _ _ _) (or_intror eq_refl))
    as (_ & H1 & H2).
  split; [exact (H1 eq_refl) | exact H2].
Defined.

(** C8 fails on the code: the empty interval at 0x100 intersects no region,
    and invalidate marks RO old all the same, because 0x100 lies in RO. *)
Lemma invalidate_empty_interval :
  flags (all_new EC_LPC_IMAGE_RO) = 1
  /\ ~ intersects (all_new EC_LPC_IMAGE_RO) 0x100 0
  /\ flags (gec_invalidate_copy 0x100 0 all_new EC_LPC_IMAGE_RO) = 0
  /\ ~ invalidate_as_stated 0x100 0 all_new.
Proof.
  assert (Hn : ~ intersects (all_new EC_LPC_IMAGE_RO) 0x100 0).
  { intros (x & _ & Hx). lia. }
  split; [reflexivity|]. split; [exact Hn|]. split; [reflexivity|].
  intros H. destruct (H EC_LPC_IMAGE_RO) as [_ H0]; [left; reflexivity|].
  specialize (H0 Hn). discriminate H0.
Qed.

(** C8, amended, on [invalidate (0, 0x8000)]: RO, which the interval
    intersects, is marked old; RW-A, which it does not, keeps its flag. *)
Lemma gec_invalidate_copy_clears_witness :
  (flags (gec_invalidate_copy 0 0x8000 all_new EC_LPC_IMAGE_RO) = 0
   /\ intersects (all_new EC_LPC_IMAGE_RO) 0 0x8000)
  /\ (flags (gec_invalidate_copy 0 0x8000 all_new EC_LPC_IMAGE_RW_A) = 1
      /\ ~ intersects (all_new EC_LPC_IMAGE_RW_A) 0 0x8000).
Proof.
  assert (HRO : intersects (all_new EC_LPC_IMAGE_RO) 0 0x8000).
  { exists 0. rewrite all_new_RO. cbn. lia. }
  assert (HA : ~ intersects (all_new EC_LPC_IMAGE_RW_A) 0 0x8000).
  { intros (x & H1 & H2). rewrite all_new_RW_A in H1. cbn in H1. lia. }
  split.
  - destruct (gec_invalidate_copy_clears 0 0x8000 all_new EC_LPC_IMAGE_RO)
      as (_ & _ & _ & H); [left; reflexivity|].
    split; [|exact HRO].
    apply H; rewrite ?all_new_RO; cbn; try lia. exact HRO.
  - destruct (gec_invalidate_copy_clears 0 0x8000 all_new EC_LPC_IMAGE_RW_A)
      as (_ & _ & _ & H); [right; left; reflexivity|].
    split; [|exact HA].
    change 1 with (flags (all_new EC_LPC_IMAGE_RW_A)).
    apply H; rewrite ?all_new_RW_A; cbn; try lia. exact HA.
Defined.

(** Closes a comparison of two numerals. *)
Ltac numerals := vm_compute; first [reflexivity | discriminate].

(** C9 on a second pass that starts with RO stale: need_2nd_pass jumps to
    RW-A, the erase, the write and the read of RO succeed, an explicit jump
    goes to RO, finish jumps to RW-B; RO is still stale at the end. *)
Lemma stale_stays_stale_witness :
  do_calls ACCESS_DENIED
    [Need_2nd_pass; Erase 0 0x8000; Write buffer 0 128; Read buffer 0 128;
     Jump EC_LPC_IMAGE_RO; Finish] denied =
    Ok (tt,
        after priv (reboot EC_LPC_IMAGE_RW_B)
          (after priv (reboot EC_LPC_IMAGE_RO)
             (after priv (EC_LPC_COMMAND_FLASH_READ 0 128)
                (set_try_latest_firmware 1
                   (after priv (write_command buffer 0 (64, 64))
                      (after priv (write_command buffer 0 (0, 64))
                         (set_try_latest_firmware 1
                            (after priv (EC_LPC_COMMAND_FLASH_ERASE 0 0x8000)
                               (after priv (reboot EC_LPC_IMAGE_RW_A)
                                  denied)))))))))
  /\ flags (fwcopy denied EC_LPC_IMAGE_RO) = 0
  /\ flags (gec_invalidate_copy 0 0x8000 all_new EC_LPC_IMAGE_RO) = 0.
Proof.
  assert (Hrun :
    do_calls ACCESS_DENIED
      [Need_2nd_pass; Erase 0 0x8000; Write buffer 0 128; Read buffer 0 128;
       Jump EC_LPC_IMAGE_RO; Finish] denied =
      Ok (tt,
          after priv (reboot EC_LPC_IMAGE_RW_B)
            (after priv (reboot EC_LPC_IMAGE_RO)
               (after priv (EC_LPC_COMMAND_FLASH_READ 0 128)
                  (set_try_latest_firmware 1
                     (after priv (write_command buffer 0 (64, 64))
                        (after priv (write_command buffer 0 (0, 64))
                           (set_try_latest_firmware 1
                              (after priv
                                 (EC_LPC_COMMAND_FLASH_ERASE 0 0x8000)
                                 (after priv (reboot EC_LPC_IMAGE_RW_A)
                                    denied))))))))))
    by reflexivity.
  split; [exact Hrun|]. split; [reflexivity|].
  exact (proj1 (stale_stays_stale ACCESS_DENIED _ _ _ _ EC_LPC_IMAGE_RO
                  Hrun eq_refl)).
Defined.

(** C6 fails on the code: a write whose first command fails with
    EC_LPC_RESULT_ERROR, so that no command of the call succeeded, sets
    try_latest_firmware all the same; gec_block_erase, on the same
    controller, returns the error and leaves the flag as it was. *)
Theorem gec_write_failure_sets_try_latest_firmware :
  try_latest_firmware prepared_broken = 0
  /\ gec_write ACCESS_DENIED buffer 0x20000 128 prepared_broken =
       Ok (EC_LPC_RESULT_ERROR,
           set_try_latest_firmware 1
             (after broken_priv (write_command buffer 0x20000 (0x20000, 64))
                prepared_broken))
  /\ Forall failed
       (trace (after broken_priv
                 (write_command buffer 0x20000 (0x20000, 64))
                 prepared_broken))
  /\ try_latest_firmware
       (set_try_latest_firmware 1
          (after broken_priv (write_command buffer 0x20000 (0x20000, 64))
             prepared_broken)) = 1
  /\ gec_block_erase ACCESS_DENIED 0x20000 0x8000 prepared_broken =
       Ok (EC_LPC_RESULT_ERROR,
           after broken_priv (EC_LPC_COMMAND_FLASH_ERASE 0x20000 0x8000)
             prepared_broken)
  /\ try_latest_firmware
       (after broken_priv (EC_LPC_COMMAND_FLASH_ERASE 0x20000 0x8000)
          prepared_broken) = 0.
Proof.
  split; [reflexivity|]. split; [reflexivity|].
  split; [repeat constructor; discriminate|].
  repeat split.
Qed.

Lemma controller_fills_reads : fills_reads priv.
Proof.
  intros off size d H.
  change (size <= Z.of_nat (length (repeat (byte_at off) 128))).
  rewrite repeat_length. unfold EC_LPC_PARAM_SIZE in H. lia.
Qed.

Lemma write_request_running_A : write_request running_A buffer 0x1ffc0 128.
Proof. repeat split; numerals. Qed.

Lemma write_request_prepared : write_request prepared buffer 0x20000 128.
Proof. repeat split; numerals. Qed.

Lemma read_request_prepared : read_request prepared large_buffer 0x100 300.
Proof. repeat split; numerals. Qed.

(** C1 while RW-A runs.  The erase of [0x20000, 0x28000) is denied.  The
    write of [0x1ffc0, 0x20040) has its first chunk, in RO, written and its
    second, in RW-A, denied: both copies are marked old, the one of the
    chunk that was written too, and no command follows the denied one. *)
Lemma access_denied_is_deferred_witness :
  (exists w' e,
     gec_block_erase ACCESS_DENIED 0x20000 0x8000 running_A =
       Ok (ACCESS_DENIED, w')
     /\ trace w' = [e]
     /\ status e = EC_LPC_RESULT_ACCESS_DENIED
     /\ need_2nd_pass w' = 1
     /\ flags (fwcopy w' EC_LPC_IMAGE_RW_A) = 0)
  /\ (exists w' e1 e2,
       gec_write ACCESS_DENIED buffer 0x1ffc0 128 running_A =
         Ok (ACCESS_DENIED, w')
       /\ trace w' = [e1; e2]
       /\ succeeded e1
       /\ status e2 = EC_LPC_RESULT_ACCESS_DENIED
       /\ need_2nd_pass w' = 1
       /\ flags (fwcopy w' EC_LPC_IMAGE_RO) = 0
       /\ flags (fwcopy w' EC_LPC_IMAGE_RW_A) = 0).
Proof.
  destruct (access_denied_is_deferred ACCESS_DENIED running_A priv eq_refl)
    as [He Hw].
  assert (HxRO : intersects (fwcopy running_A EC_LPC_IMAGE_RO) 0x1ffc0 128).
  { exists 0x1ffc0. change (fwcopy running_A) with all_new.
    rewrite all_new_RO. cbn. lia. }
  assert (HxA : forall addr len, addr <= 0x20000 < addr + len ->
            intersects (fwcopy running_A EC_LPC_IMAGE_RW_A) addr len).
  { intros addr len H. exists 0x20000. change (fwcopy running_A) with all_new.
    rewrite all_new_RW_A. cbn. lia. }
  split.
  - destruct (He 0x20000 0x8000)
      as (rv & w' & e & Hrun & Htr & _ & Hden & _).
    assert (Hrun' :
      gec_block_erase ACCESS_DENIED 0x20000 0x8000 running_A =
        Ok (ACCESS_DENIED,
            set_need_2nd_pass 1
              (set_fwcopy (gec_invalidate_copy 0x20000 0x8000 all_new)
                 (after priv (EC_LPC_COMMAND_FLASH_ERASE 0x20000 0x8000)
                    running_A)))) by reflexivity.
    rewrite Hrun' in Hrun. injection Hrun as <- <-.
    apply (app_inj_tail_iff []) in Htr. destruct Htr as [_ <-].
    destruct (Hden eq_refl) as (_ & Hneed & _ & Hov).
    eexists _, _. split; [exact Hrun'|]. split; [reflexivity|].
    split; [reflexivity|]. split; [exact Hneed|].
    apply Hov; [right; left; reflexivity | | | | | apply HxA];
      rewrite ?all_new_RW_A; try numerals. lia.
  - destruct (Hw buffer 0x1ffc0 128 write_request_running_A)
      as (rv & w' & new & Hrun & Htr & Hden & _).
    assert (Hrun' :
      gec_write ACCESS_DENIED buffer 0x1ffc0 128 running_A =
        Ok (ACCESS_DENIED,
            set_need_2nd_pass 1
              (set_fwcopy (gec_invalidate_copy 0x1ffc0 128 all_new)
                 (after priv (write_command buffer 0x1ffc0 (0x20000, 64))
                    (after priv (write_command buffer 0x1ffc0 (0x1ffc0, 64))
                       running_A))))) by reflexivity.
    rewrite Hrun' in Hrun. injection Hrun as <- <-.
    change (trace running_A ++ new) with new in Htr. subst new.
    destruct (Hden (exchange_of priv
                      (write_command buffer 0x1ffc0 (0x20000, 64))
                      (after priv (write_command buffer 0x1ffc0 (0x1ffc0, 64))
                         running_A))
                (or_intror (or_introl eq_refl)) eq_refl)
      as (_ & Hneed & _ & Hov & _).
    eexists _, _, _. split; [exact Hrun'|]. split; [reflexivity|].
    split; [reflexivity|]. split; [reflexivity|]. split; [exact Hneed|].
    split.
    + apply Hov; [left; reflexivity | | | | | exact HxRO];
        change (fwcopy running_A) with all_new; rewrite ?all_new_RO;
        numerals.
    + apply Hov; [right; left; reflexivity | | | | | apply HxA];
        change (fwcopy running_A) with all_new; rewrite ?all_new_RW_A;
        try numerals. lia.
Defined.

(** C7 while RO runs: a read of 300 bytes at 0x100, with at most 128 bytes
    a command, takes the three commands of its chunks and leaves their
    payloads in order in the buffer; a write of 128 bytes at 0x20000, with at
    most 64 bytes a command, takes two. *)
Lemma transfers_are_chunked_witness :
  (exists buf' w',
     gec_read large_buffer 0x100 300 prepared = Ok ((0, buf'), w')
     /\ map command_sent (trace w') =
          [EC_LPC_COMMAND_FLASH_READ 0x100 128;
           EC_LPC_COMMAND_FLASH_READ 0x180 128;
           EC_LPC_COMMAND_FLASH_READ 0x200 44]
     /\ length (trace w') = Z.to_nat (ceil_div 300 128)
     /\ covers 0x100 (0x100 + 300) (chunks 0x100 300 128)
     /\ buf' = repeat (byte_at 0x100) 128 ++ repeat (byte_at 0x180) 128
               ++ repeat (byte_at 0x200) 44)
  /\ (exists w',
       gec_write ACCESS_DENIED buffer 0x20000 128 prepared = Ok (0, w')
       /\ map command_sent (trace w') =
            [EC_LPC_COMMAND_FLASH_WRITE 0x20000 64 (repeat xa5 64);
             EC_LPC_COMMAND_FLASH_WRITE 0x20040 64 (repeat xa5 64)]
       /\ length (trace w') = Z.to_nat (ceil_div 128 64)
       /\ covers 0x20000 (0x20000 + 128) (chunks 0x20000 128 64)).
Proof.
  destruct (transfers_are_chunked ACCESS_DENIED prepared priv eq_refl)
    as [Hr Hw].
  split.
  - destruct (Hr large_buffer 0x100 300 controller_fills_reads
                read_request_prepared)
      as (rv & buf' & w' & new & Hrun & Htr & Hpost).
    assert (Hrun' :
      gec_read large_buffer 0x100 300 prepared =
        Ok ((0, repeat (byte_at 0x100) 128 ++ repeat (byte_at 0x180) 128
                ++ repeat (byte_at 0x200) 44),
            after priv (EC_LPC_COMMAND_FLASH_READ 0x200 44)
              (after priv (EC_LPC_COMMAND_FLASH_READ 0x180 128)
                 (after priv (EC_LPC_COMMAND_FLASH_READ 0x100 128)
                    prepared)))) by reflexivity.
    rewrite Hrun' in Hrun. injection Hrun as <- <- <-.
    change (trace prepared ++ new) with new in Htr. subst new.
    destruct Hpost as (_ & Hcmds & Hlen & _ & Hcov & _).
    { repeat constructor. }
    eexists _, _. split; [exact Hrun'|].
    split; [exact Hcmds|]. split; [exact Hlen|].
    split; [exact Hcov | reflexivity].
  - destruct (Hw buffer 0x20000 128 write_request_prepared)
      as (rv & w' & new & Hrun & Htr & Hpost).
    assert (Hrun' :
      gec_write ACCESS_DENIED buffer 0x20000 128 prepared =
        Ok (0, set_try_latest_firmware 1
                 (after priv (write_command buffer 0x20000 (0x20040, 64))
                    (after priv (write_command buffer 0x20000 (0x20000, 64))
                       prepared)))) by reflexivity.
    rewrite Hrun' in Hrun. injection Hrun as <- <-.
    change (trace prepared ++ new) with new in Htr. subst new.
    destruct Hpost as (_ & Hcmds & Hlen & _ & Hcov).
    { repeat constructor. }
    eexists. split; [exact Hrun'|].
    split; [exact Hcmds|]. split; [exact Hlen | exact Hcov].
Defined.

End Run.

(** * More of the driver: frames, invariants and edge cases *)

(** ** What every function of the driver respects *)

Section Frame.

Context {D : Type}.
Variable fmap_find_in_memory : list byte -> Z -> option fmap.
Variable ACCESS_DENIED : Z.

Local Abbreviation world := (@world D).

(** A relation between worlds, and the commands under which it holds. *)
Variable R : world -> world -> Prop.
Variable P : command -> Prop.

Hypothesis R_refl : forall w, R w w.
Hypothesis R_trans : forall w1 w2 w3, R w1 w2 -> R w2 w3 -> R w1 w3.
Hypothesis R_sent : forall e d w, P (command_sent e) -> R w (sent e d w).
Hypothesis R_need : forall w, R w (set_need_2nd_pass 1 w).
Hypothesis R_try : forall w, R w (set_try_latest_firmware 1 w).
Hypothesis R_invalidate :
  forall addr len w,
    R w (set_fwcopy (gec_invalidate_copy addr len (fwcopy w)) w).
Hypothesis R_lookup :
  forall fm w, R w (set_fwcopy (lookup_sections fm (fwcopy w)) w).

Hypothesis P_read : forall off size, P (EC_LPC_COMMAND_FLASH_READ off size).
Hypothesis P_write :
  forall off size data, P (EC_LPC_COMMAND_FLASH_WRITE off size data).
Hypothesis P_erase : forall off size, P (EC_LPC_COMMAND_FLASH_ERASE off size).
Hypothesis P_reboot : forall t, P (EC_LPC_COMMAND_REBOOT_EC t 0).

Lemma respects_ret {A : Type} (a : A) : respects R (ret a).
Proof. intros w a' w' H. injection H as _ <-. apply R_refl. Qed.

Lemma respects_fault {A : Type} : respects R (fault (A := A)).
Proof. intros w a' w' H. discriminate. Qed.

Lemma respects_get : respects R get.
Proof. intros w a' w' H. injection H as _ <-. apply R_refl. Qed.

Lemma respects_bind {A B : Type} (m : M world A) (k : A -> M world B) :
  respects R m -> (forall a, respects R (k a)) -> respects R (bind m k).
Proof.
  intros Hm Hk w b w' H. unfold bind in H.
  destruct (m w) as [[a w1]| |] eqn:E; try discriminate.
  eapply R_trans; [eapply Hm, E | eapply Hk, H].
Qed.

Lemma respects_modify (f : world -> world) :
  (forall w, R w (f w)) -> respects R (modify f).
Proof. intros Hf w a w' H. injection H as _ <-. apply Hf. Qed.

Lemma respects_priv_ec_command (c : command) :
  P c -> respects R (priv_ec_command c).
Proof.
  intros Hc w a w' H. unfold priv_ec_command in H.
  destruct (data (programmer w)) as [priv|]; [|discriminate].
  destruct (ec_command priv c (ec w)) as [[rc r] d].
  injection H as _ <-. apply R_sent. exact Hc.
Qed.

(** Walks through a monadic body. *)
Ltac respects_step :=
  match goal with
  | |- respects _ (bind _ _) => apply respects_bind; [|intros ?]
  | |- respects _ (ret _) => apply respects_ret
  | |- respects _ fault => apply respects_fault
  | |- respects _ get => apply respects_get
  | |- respects _ (modify (set_need_2nd_pass 1)) =>
      apply respects_modify, R_need
  | |- respects _ (modify (set_try_latest_firmware 1)) =>
      apply respects_modify, R_try
  | |- respects _ (modify (fun w => set_fwcopy (gec_invalidate_copy _ _ _) _))
      => apply respects_modify; intros ?; apply R_invalidate
  | |- respects _ (modify (fun w => set_fwcopy (lookup_sections _ _) _)) =>
      apply respects_modify; intros ?; apply R_lookup
  | |- respects _ (priv_ec_command _) =>
      apply respects_priv_ec_command;
      first [apply P_read | apply P_write | apply P_erase | apply P_reboot]
  | |- respects _ (if ?b then _ else _) => destruct b
  | |- respects _ (match ?x with _ => _ end) => destruct x
  | |- respects _ _ => assumption
  end.

Lemma respects_gec_jump_copy (t : lpc_current_image) :
  respects R (gec_jump_copy t).
Proof. unfold gec_jump_copy. repeat respects_step. Qed.

Lemma respects_gec_prepare (image : list byte) (size : Z) :
  respects R (gec_prepare fmap_find_in_memory image size).
Proof.
  unfold gec_prepare. repeat respects_step. apply respects_gec_jump_copy.
Qed.

Lemma respects_gec_need_2nd_pass : respects R gec_need_2nd_pass.
Proof.
  unfold gec_need_2nd_pass.
  repeat (respects_step || apply respects_gec_jump_copy).
Qed.

Lemma respects_return_0_if_jumped (t : lpc_current_image)
    (rest : M world Z) :
  respects R rest -> respects R (return_0_if_jumped t rest).
Proof.
  intros H. unfold return_0_if_jumped.
  repeat (respects_step || apply respects_gec_jump_copy).
Qed.

Lemma respects_gec_finish : respects R gec_finish.
Proof.
  unfold gec_finish. repeat respects_step.
  apply respects_return_0_if_jumped, respects_return_0_if_jumped,
    respects_gec_jump_copy.
Qed.

Lemma respects_memcpy_to (dst : list byte) (i : Z) (src : list byte)
    (n : Z) :
  respects R (memcpy_to dst i src n).
Proof. unfold memcpy_to. repeat respects_step. Qed.

Lemma respects_memcpy_from (cap : Z) (buf : list byte) (i n : Z) :
  respects R (memcpy_from cap buf i n).
Proof. unfold memcpy_from. repeat respects_step. Qed.

Lemma respects_int_add (a b : Z) : respects R (int_add a b).
Proof. unfold int_add. repeat respects_step. Qed.

Lemma respects_gec_read_loop (fuel : nat) (blockaddr readcnt maxlen : Z) :
  forall (i rc : Z) (readarr : list byte),
    respects R (gec_read_loop fuel blockaddr readcnt maxlen i rc readarr).
Proof.
  induction fuel as [|fuel IH]; intros i rc readarr.
  - intros w a w' H. discriminate.
  - cbn [gec_read_loop].
    repeat (respects_step || apply respects_memcpy_to
            || apply respects_int_add || apply IH).
Qed.

Lemma respects_gec_read (readarr : list byte) (blockaddr readcnt : Z) :
  respects R (gec_read readarr blockaddr readcnt).
Proof.
  unfold gec_read. repeat respects_step. apply respects_gec_read_loop.
Qed.

Lemma respects_gec_block_erase (blockaddr len : Z) :
  respects R (gec_block_erase ACCESS_DENIED blockaddr len).
Proof. unfold gec_block_erase. repeat respects_step. Qed.

Lemma respects_gec_write_loop (fuel : nat) (buf : list byte)
    (addr nbytes maxlen : Z) :
  forall i rc : Z,
    respects R (gec_write_loop ACCESS_DENIED fuel buf addr nbytes maxlen i rc).
Proof.
  induction fuel as [|fuel IH]; intros i rc.
  - intros w a w' H. discriminate.
  - cbn [gec_write_loop]. unfold gec_write_end.
    repeat (respects_step || apply respects_memcpy_from || apply IH).
Qed.

Lemma respects_gec_write (buf : list byte) (addr nbytes : Z) :
  respects R (gec_write ACCESS_DENIED buf addr nbytes).
Proof.
  unfold gec_write, gec_write_end. repeat respects_step.
  apply respects_gec_write_loop.
Qed.

Lemma respects_do_call (c : call) : respects R (do_call ACCESS_DENIED c).
Proof.
  destruct c; cbn [do_call]; apply respects_bind;
    auto using respects_gec_block_erase, respects_gec_write,
      respects_gec_read, respects_gec_jump_copy, respects_gec_need_2nd_pass,
      respects_gec_finish;
    intros ?; apply respects_ret.
Qed.

Lemma respects_do_calls (cs : list call) :
  respects R (do_calls ACCESS_DENIED cs).
Proof.
  induction cs as [|c cs IH]; cbn [do_calls].
  - apply respects_ret.
  - apply respects_bind; [apply respects_do_call | intros _; exact IH].
Qed.

Lemma respects_do_session (cs : list session_call) :
  respects R (do_session fmap_find_in_memory ACCESS_DENIED cs).
Proof.
  induction cs as [|c cs IH]; cbn [do_session].
  - apply respects_ret.
  - apply respects_bind; [|intros _; exact IH].
    destruct c as [image size | c]; cbn [do_session_call].
    + apply respects_bind; [apply respects_gec_prepare|].
      intros _. apply respects_ret.
    + apply respects_do_call.
Qed.

End Frame.

(** ** Invariants of a session *)

Section Invariants.

Context {D : Type}.
Variable fmap_find_in_memory : list byte -> Z -> option fmap.
Variable ACCESS_DENIED : Z.

Local Abbreviation world := (@world D).
Local Abbreviation gec_priv := (@gec_priv D).

Lemma only_sent_refl (P : command -> Prop) (w : world) : only_sent P w w.
Proof.
  repeat split. exists []. split; [symmetry; apply app_nil_r | constructor].
Qed.

Lemma only_sent_trans (P : command -> Prop) (w1 w2 w3 : world) :
  only_sent P w1 w2 -> only_sent P w2 w3 -> only_sent P w1 w3.
Proof.
  intros (Hp & Hn & Ht & Hf & n1 & Htr & Hall)
         (Hp' & Hn' & Ht' & Hf' & n2 & Htr' & Hall').
  split; [congruence|]. split; [congruence|]. split; [congruence|].
  split; [congruence|]. exists (n1 ++ n2).
  split; [rewrite Htr', Htr, app_assoc; reflexivity|].
  apply Forall_app. split; assumption.
Qed.

Lemma only_sent_sent (P : command -> Prop) (e : exchange) (d : D)
    (w : world) :
  P (command_sent e) -> only_sent P w (sent e d w).
Proof.
  intros H. repeat split. exists [e]. split; [reflexivity|].
  constructor; [exact H | constructor].
Qed.

Lemma flags_kept_refl (w : world) : flags_kept w w.
Proof. repeat split; trivial. Qed.

Lemma flags_kept_trans (w1 w2 w3 : world) :
  flags_kept w1 w2 -> flags_kept w2 w3 -> flags_kept w1 w3.
Proof.
  intros (Hp & H1 & H2 & H3 & H4) (Hp' & H1' & H2' & H3' & H4').
  split; [congruence|]. repeat split; auto.
Qed.

Lemma ranges_kept_refl (w : world) : ranges_kept w w.
Proof. split; [reflexivity|]. intros t. repeat split. Qed.

Lemma ranges_kept_trans (w1 w2 w3 : world) :
  ranges_kept w1 w2 -> ranges_kept w2 w3 -> ranges_kept w1 w3.
Proof.
  intros [H0 H] [H0' H']. split; [congruence|].
  intros t. destruct (H t) as (Ho & Hs & Hn).
  destruct (H' t) as (Ho' & Hs' & Hn'). repeat split; congruence.
Qed.

Lemma ranges_kept_invalidate (addr len : Z) (w : world) :
  ranges_kept w (set_fwcopy (gec_invalidate_copy addr len (fwcopy w)) w).
Proof.
  split; cbn [fwcopy set_fwcopy].
  - rewrite gec_invalidate_copy_entry.
    rewrite bool_decide_eq_false_2 by (intros H; apply H; reflexivity).
    reflexivity.
  - intros t. rewrite gec_invalidate_copy_entry.
    destruct (bool_decide (t <> EC_LPC_IMAGE_UNKNOWN)
              && in_range addr len (fwcopy w t)); repeat split.
Qed.

(** What the loop of gec_prepare leaves in entry 0: what was there. *)
Lemma lookup_area_entry (fa : fmap_area) (fw : registry)
    (t : lpc_current_image) :
  lookup_area fa fw t =
    if bool_decide (t <> EC_LPC_IMAGE_UNKNOWN)
       && String.eqb (sections t) (name fa)
    then set_flags 1 fa
    else fw t.
Proof.
  unfold lookup_area, copies. cbn [fold_left].
  destruct (String.eqb (sections EC_LPC_IMAGE_RO) (name fa)) eqn:ERO;
  destruct (String.eqb (sections EC_LPC_IMAGE_RW_A) (name fa)) eqn:EA;
  destruct (String.eqb (sections EC_LPC_IMAGE_RW_B) (name fa)) eqn:EB;
  destruct t; cbv beta iota delta [store];
    repeat match goal with
      | |- context [decide (?a = ?b)] =>
          let d := eval vm_compute in (decide (a = b)) in
          change (decide (a = b)) with d; cbv beta iota
      | |- context [bool_decide (?a <> ?b)] =>
          let d := eval vm_compute in (bool_decide (a <> b)) in
          change (bool_decide (a <> b)) with d; cbv beta iota
      end;
    cbn [andb]; rewrite ?ERO, ?EA, ?EB; reflexivity.
Qed.

Lemma last_named_app (t : lpc_current_image) (l : list fmap_area)
    (fa : fmap_area) :
  last_named t (l ++ [fa]) = if named t fa then Some fa else last_named t l.
Proof. unfold last_named. rewrite rev_unit. reflexivity. Qed.

(** [last_named] finds the last area of the name. *)
Lemma last_named_spec (t : lpc_current_image) (l : list fmap_area) :
  match last_named t l with
  | Some fa =>
      exists l1 l2, l = l1 ++ fa :: l2
        /\ name fa = sections t
        /\ Forall (fun fb => name fb <> sections t) l2
  | None => Forall (fun fb => name fb <> sections t) l
  end.
Proof.
  induction l as [|fa l IH] using rev_ind.
  - constructor.
  - rewrite last_named_app. unfold named at 1.
    destruct (String.eqb (sections t) (name fa)) eqn:E.
    + apply String.eqb_eq in E. exists l, []. repeat split; [|constructor].
      symmetry. exact E.
    + apply String.eqb_neq in E.
      destruct (last_named t l) as [fb|].
      * destruct IH as (l1 & l2 & -> & Hn & Hall).
        exists l1, (l2 ++ [fa]). rewrite <- app_assoc. repeat split; trivial.
        apply Forall_app. split; [exact Hall|].
        constructor; [congruence | constructor].
      * apply Forall_app. split; [exact IH|].
        constructor; [congruence | constructor].
Qed.

Lemma lookup_sections_app (l : list fmap_area) (fa : fmap_area)
    (fw : registry) :
  lookup_sections {| areas := l ++ [fa] |} fw =
    lookup_area fa (lookup_sections {| areas := l |} fw).
Proof. unfold lookup_sections. cbn [areas]. apply fold_left_app. Qed.

(** Each entry after the loops of gec_prepare. *)
Lemma lookup_sections_eq (fm : fmap) (fw : registry)
    (t : lpc_current_image) :
  lookup_sections fm fw t =
    match (if bool_decide (t <> EC_LPC_IMAGE_UNKNOWN)
           then last_named t (areas fm) else None) with
    | Some fa => set_flags 1 fa
    | None => fw t
    end.
Proof.
  destruct fm as [l]. cbn [areas]. revert t.
  induction l as [|fa l IH] using rev_ind; intros t.
  - destruct (bool_decide (t <> EC_LPC_IMAGE_UNKNOWN)); reflexivity.
  - rewrite lookup_sections_app, lookup_area_entry, last_named_app, IH.
    fold (named t fa).
    destruct (bool_decide (t <> EC_LPC_IMAGE_UNKNOWN)); cbn [andb];
      [|reflexivity].
    destruct (named t fa); reflexivity.
Qed.

Lemma copies_known (t : lpc_current_image) :
  In t copies -> t <> EC_LPC_IMAGE_UNKNOWN.
Proof.
  intros Hin ->. unfold copies in Hin. simpl in Hin.
  repeat destruct Hin as [Hin | Hin]; try discriminate. exact Hin.
Qed.

(** X1: the loops of gec_prepare leave in each entry RO, RW-A, RW-B of the
    registry the last area of the map that bears the section name of the
    entry, marked new; an entry with no area of its name in the map is left
    as it was, neither emptied nor marked old, and entry 0 is never
    written. *)
Theorem lookup_sections_entry (fm : fmap) (fw : registry)
    (t : lpc_current_image) :
  lookup_sections fm fw EC_LPC_IMAGE_UNKNOWN = fw EC_LPC_IMAGE_UNKNOWN
  /\ (In t copies ->
      match last_named t (areas fm) with
      | Some fa =>
          lookup_sections fm fw t = set_flags 1 fa
          /\ exists l1 l2, areas fm = l1 ++ fa :: l2
               /\ name fa = sections t
               /\ Forall (fun fb => name fb <> sections t) l2
      | None =>
          lookup_sections fm fw t = fw t
          /\ Forall (fun fb => name fb <> sections t) (areas fm)
      end).
Proof.
  split.
  - rewrite lookup_sections_eq,
      bool_decide_eq_false_2 by (intros H0; apply H0; reflexivity).
    reflexivity.
  - intros Hin. pose proof (last_named_spec t (areas fm)) as Hs.
    rewrite lookup_sections_eq,
      bool_decide_eq_true_2 by (apply copies_known, Hin).
    destruct (last_named t (areas fm)); split; trivial.
Qed.

(** X2: a second prepare marks a denied copy new again.  Whatever was
    invalidated since, the loops of gec_prepare mark new every copy whose
    section is in the map, with the range the map gives; run twice on the
    same map they leave what one run leaves. *)
Theorem prepare_marks_new_again (fm : fmap) (fw : registry) (addr len : Z)
    (t : lpc_current_image) (fa : fmap_area) :
  In t copies ->
  In fa (areas fm) ->
  name fa = sections t ->
  is_new (lookup_sections fm (gec_invalidate_copy addr len fw)) t = true
  /\ lookup_sections fm (gec_invalidate_copy addr len fw) t =
       lookup_sections fm fw t
  /\ lookup_sections fm (lookup_sections fm fw) t = lookup_sections fm fw t.
Proof.
  intros Hin Hfa Hname. unfold is_new.
  rewrite !(lookup_sections_eq fm).
  rewrite bool_decide_eq_true_2 by (apply copies_known, Hin).
  pose proof (last_named_spec t (areas fm)) as Hs.
  destruct (last_named t (areas fm)) as [fb|].
  - repeat split.
  - exfalso. rewrite Forall_forall in Hs.
    apply (Hs fa); [apply list_elem_of_In, Hfa | exact Hname].
Qed.

Lemma lookup_sections_entry_0 (fm : fmap) (fw : registry) :
  lookup_sections fm fw EC_LPC_IMAGE_UNKNOWN = fw EC_LPC_IMAGE_UNKNOWN.
Proof.
  destruct fm as [l]. induction l as [|fa l IH] using rev_ind.
  - reflexivity.
  - rewrite lookup_sections_app, lookup_area_entry, IH.
    rewrite bool_decide_eq_false_2 by (intros H; apply H; reflexivity).
    reflexivity.
Qed.

Lemma flags_kept_same (w w' : world) :
  programmer w' = programmer w ->
  need_2nd_pass w' = need_2nd_pass w ->
  try_latest_firmware w' = try_latest_firmware w ->
  flags_kept w w'.
Proof.
  intros Hp Hn Ht. split; [exact Hp|]. rewrite Hn, Ht. repeat split; trivial.
Qed.

(** X3: the session flags are never cleared.  Over every sequence of
    prepare, erase, write, read, jump, need_2nd_pass and finish calls that
    runs to its end, need_2nd_pass and try_latest_firmware stay 1 once they
    are 1 and stay 0 or 1 if they were, the programmer (its limits and its
    private data) is not changed, and entry 0 of the registry is not
    written. *)
Theorem session_flags_are_kept (cs : list session_call) (w w' : world)
    (u : unit) :
  do_session fmap_find_in_memory ACCESS_DENIED cs w = Ok (u, w') ->
  programmer w' = programmer w
  /\ (flag (need_2nd_pass w) -> flag (need_2nd_pass w'))
  /\ (flag (try_latest_firmware w) -> flag (try_latest_firmware w'))
  /\ (need_2nd_pass w = 1 -> need_2nd_pass w' = 1)
  /\ (try_latest_firmware w = 1 -> try_latest_firmware w' = 1)
  /\ fwcopy w' EC_LPC_IMAGE_UNKNOWN = fwcopy w EC_LPC_IMAGE_UNKNOWN.
Proof.
  intros Hrun.
  assert (H1 : flags_kept w w').
  { revert Hrun.
    apply (respects_do_session fmap_find_in_memory ACCESS_DENIED flags_kept
             (fun _ => True)); trivial.
    - apply flags_kept_refl.
    - apply flags_kept_trans.
    - intros e d w0 _. apply flags_kept_same; reflexivity.
    - intros w0. repeat split; trivial; intros _; right; reflexivity.
    - intros w0. repeat split; trivial; intros _; right; reflexivity.
    - intros addr len w0. apply flags_kept_same; reflexivity.
    - intros fm w0. apply flags_kept_same; reflexivity. }
  assert (H2 : entry_0_kept w w').
  { revert Hrun.
    apply (respects_do_session fmap_find_in_memory ACCESS_DENIED
             entry_0_kept (fun _ => True)); trivial.
    - intros w0. reflexivity.
    - intros w1 w2 w3 H H'. unfold entry_0_kept in *. congruence.
    - intros e d w0 _. reflexivity.
    - intros w0. reflexivity.
    - intros w0. reflexivity.
    - intros addr len w0. apply ranges_kept_invalidate.
    - intros fm w0. apply lookup_sections_entry_0. }
  destruct H1 as (Hp & Ha & Hb & Hc & Hd). repeat split; assumption.
Qed.

(** X4: only prepare writes ranges.  Over every sequence of erase, write,
    read, jump, need_2nd_pass and finish calls that runs to its end, the
    offset, size and name of every entry of the registry are what they
    were. *)
Theorem registry_ranges_are_kept (cs : list call) (w w' : world) (u : unit) :
  do_calls ACCESS_DENIED cs w = Ok (u, w') ->
  forall t, offset (fwcopy w' t) = offset (fwcopy w t)
            /\ size (fwcopy w' t) = size (fwcopy w t)
            /\ name (fwcopy w' t) = name (fwcopy w t).
Proof.
  intros Hrun.
  apply (respects_do_calls ACCESS_DENIED ranges_kept (fun _ => True))
    in Hrun; trivial.
  - exact (proj2 Hrun).
  - apply ranges_kept_refl.
  - apply ranges_kept_trans.
  - intros e d w0 _. split; [reflexivity|]. intros t. repeat split.
  - intros w0. split; [reflexivity|]. intros t. repeat split.
  - intros w0. split; [reflexivity|]. intros t. repeat split.
  - apply ranges_kept_invalidate.
Qed.

End Invariants.

(** ** The transfers, whatever the request *)

Section Transfers.

Context {D : Type}.
Variable ACCESS_DENIED : Z.

Local Abbreviation world := (@world D).
Local Abbreviation gec_priv := (@gec_priv D).

(** One turn of the loop of gec_read that returns, on any request: the loop
    is over, or the command failed, or it succeeded, the copy into the
    buffer and the increment of the counter were defined and the rest of the
    loop returned. *)
Lemma gec_read_loop_turn (fuel : nat) (blockaddr readcnt maxlen i rc : Z)
    (readarr : list byte) (w : world) (rv : Z) (buf' : list byte)
    (w' : world) :
  gec_read_loop (S fuel) blockaddr readcnt maxlen i rc readarr w =
    Ok ((rv, buf'), w') ->
  (rv = rc /\ buf' = readarr /\ w' = w /\ readcnt <= C.to_unsigned i)
  \/ exists priv,
       data (programmer w) = Some priv
       /\ C.to_unsigned i < readcnt
       /\ let size :=
            C.min (C.to_unsigned (readcnt - i)) (C.to_unsigned maxlen) in
          let c :=
            EC_LPC_COMMAND_FLASH_READ (C.to_unsigned (blockaddr + i)) size in
          let r :=
            take (Z.to_nat EC_LPC_PARAM_SIZE) (response_of priv c w) in
          (status_of priv c w <> 0 /\ rv = status_of priv c w
           /\ buf' = readarr /\ w' = after priv c w)
          \/ (status_of priv c w = 0
              /\ 0 <= i /\ 0 <= size
              /\ i + size <= Z.of_nat (length readarr)
              /\ size <= Z.of_nat (length r)
              /\ i + maxlen <= C.INT_MAX
              /\ gec_read_loop fuel blockaddr readcnt maxlen (i + maxlen)
                   (status_of priv c w)
                   (take (Z.to_nat i) readarr ++ take (Z.to_nat size) r
                    ++ drop (Z.to_nat (i + size)) readarr)
                   (after priv c w) = Ok ((rv, buf'), w')).
Proof.
  cbn [gec_read_loop].
  destruct (C.to_unsigned i <? readcnt) eqn:Ei.
  2:{ intros H. injection H as <- <- <-. left. apply Z.ltb_ge in Ei. auto. }
  apply Z.ltb_lt in Ei.
  destruct (data (programmer w)) as [priv|] eqn:Ep.
  2:{ unfold bind at 1, priv_ec_command. rewrite Ep. discriminate. }
  unfold bind at 1. rewrite (priv_ec_command_eq _ w priv Ep). cbn [fst snd].
  intros H. right. exists priv. split; [reflexivity|]. split; [exact Ei|].
  cbv zeta.
  set (size := C.min (C.to_unsigned (readcnt - i)) (C.to_unsigned maxlen))
    in *.
  set (c := EC_LPC_COMMAND_FLASH_READ (C.to_unsigned (blockaddr + i)) size)
    in *.
  destruct (status_of priv c w =? 0) eqn:Es; cbn [negb] in H.
  - apply Z.eqb_eq in Es. right.
    unfold bind at 1, memcpy_to in H.
    destruct ((0 <=? i) && (0 <=? size)
              && (i + size <=? Z.of_nat (length readarr))
              && (size <=? Z.of_nat (length
                    (take (Z.to_nat EC_LPC_PARAM_SIZE)
                       (response_of priv c w))))) eqn:Em;
      [|discriminate].
    apply andb_prop in Em. destruct Em as [Em E4].
    apply andb_prop in Em. destruct Em as [Em E3].
    apply andb_prop in Em. destruct Em as [E1 E2].
    apply Z.leb_le in E1, E2, E3, E4.
    unfold ret at 1 in H. unfold bind at 1, int_add in H.
    destruct ((C.INT_MIN <=? i + maxlen) && (i + maxlen <=? C.INT_MAX))
      eqn:Ea; [|discriminate].
    apply andb_prop in Ea. destruct Ea as [_ Ea]. apply Z.leb_le in Ea.
    unfold ret at 1 in H. repeat split; assumption.
  - apply Z.eqb_neq in Es. left. injection H as <- <- <-. auto.
Qed.

(** The loop of gec_read writes no byte of the buffer from [readcnt] on,
    and keeps its length. *)
Lemma gec_read_loop_buffer (blockaddr readcnt maxlen : Z) :
  0 <= readcnt < 2 ^ 32 ->
  forall (fuel : nat) (i rc : Z) (readarr : list byte) (w : world) (rv : Z)
         (buf' : list byte) (w' : world),
    i <= C.INT_MAX ->
    gec_read_loop fuel blockaddr readcnt maxlen i rc readarr w =
      Ok ((rv, buf'), w') ->
    length buf' = length readarr
    /\ drop (Z.to_nat readcnt) buf' = drop (Z.to_nat readcnt) readarr.
Proof.
  intros Hn. induction fuel as [|fuel IH];
    intros i rc readarr w rv buf' w' Hi H; [discriminate|].
  apply gec_read_loop_turn in H.
  destruct H as [(_ & -> & _) | (priv & Hp & Hlt & H)]; [split; reflexivity|].
  cbv zeta in H.
  destruct H as [(_ & _ & -> & _) | (_ & H0 & Hs & Hl & Hr & Ha & H)];
    [split; reflexivity|].
  unfold C.INT_MAX in *.
  rewrite (to_unsigned_small i) in * by lia.
  rewrite (to_unsigned_small (readcnt - i)) in * by lia.
  set (size := C.min (readcnt - i) (C.to_unsigned maxlen)) in *.
  assert (Hsz : size <= readcnt - i).
  { unfold size, C.min.
    destruct (readcnt - i <? C.to_unsigned maxlen) eqn:E;
      [apply Z.ltb_lt in E | apply Z.ltb_ge in E]; lia. }
  apply IH in H; [|unfold C.INT_MAX; lia].
  destruct H as [Hlen Hdrop]. rewrite Hlen, Hdrop. split.
  - rewrite !length_app, length_take_le, length_take_le, length_drop by lia.
    lia.
  - rewrite app_assoc, drop_app_ge;
      rewrite length_app, length_take_le, length_take_le by lia; [|lia].
    rewrite drop_drop. f_equal. lia.
Qed.

(** The loop of gec_read stops at the first command that fails and returns
    its status. *)
Lemma gec_read_loop_stops (blockaddr readcnt maxlen : Z) :
  forall (fuel : nat) (i rc : Z) (readarr : list byte) (w : world) (rv : Z)
         (buf' : list byte) (w' : world),
    gec_read_loop fuel blockaddr readcnt maxlen i rc readarr w =
      Ok ((rv, buf'), w') ->
    exists new,
      trace w' = trace w ++ new
      /\ ((new = [] /\ rv = rc /\ buf' = readarr)
          \/ exists pre e,
               new = pre ++ [e] /\ Forall succeeded pre /\ rv = status e).
Proof.
  induction fuel as [|fuel IH];
    intros i rc readarr w rv buf' w' H; [discriminate|].
  apply gec_read_loop_turn in H.
  destruct H as [(-> & -> & -> & _) | (priv & Hp & Hlt & H)].
  { exists []. rewrite app_nil_r. auto. }
  cbv zeta in H.
  destruct H as [(Hs & -> & -> & ->) | (Hs & _ & _ & _ & _ & _ & H)].
  - eexists. split; [apply trace_after|]. right.
    eexists [], _. repeat split. constructor.
  - apply IH in H. destruct H as (new & Htr & H).
    rewrite trace_after, <- app_assoc in Htr. cbn [app] in Htr.
    eexists. split; [exact Htr|]. right.
    destruct H as [(-> & -> & _) | (pre & e & -> & Hall & ->)].
    + eexists [], _. repeat split. constructor.
    + eexists (_ :: pre), e. repeat split.
      constructor; [exact Hs | exact Hall].
Qed.

(** X5: gec_read only reads.  Whatever the request, when it returns it has
    sent read commands only and has changed neither the session flags, nor
    the registry, nor the programmer; the buffer has the length it had, and
    none of its bytes from [readcnt] on is written. *)
Theorem gec_read_only_reads (readarr : list byte) (blockaddr readcnt : Z)
    (w w' : world) (rv : Z) (buf' : list byte) :
  0 <= readcnt < 2 ^ 32 ->
  gec_read readarr blockaddr readcnt w = Ok ((rv, buf'), w') ->
  only_sent is_read w w'
  /\ length buf' = length readarr
  /\ drop (Z.to_nat readcnt) buf' = drop (Z.to_nat readcnt) readarr.
Proof.
  intros Hn H. split.
  - revert H. apply (respects_gec_read (only_sent is_read) is_read).
    + apply only_sent_refl.
    + apply only_sent_trans.
    + apply only_sent_sent.
    + intros off size. exists off, size. reflexivity.
  - unfold gec_read, bind, get in H.
    eapply gec_read_loop_buffer in H;
      [exact H | exact Hn | unfold C.INT_MAX; lia].
Qed.

(** X6: gec_read stops at the first command that fails.  Whatever the
    request, when it returns every command it sent but the last one
    succeeded, and it returns the status of the last one; when it sends no
    command it returns 0 and leaves the buffer as it was. *)
Theorem gec_read_stops_at_failure (readarr : list byte)
    (blockaddr readcnt : Z) (w w' : world) (rv : Z) (buf' : list byte) :
  gec_read readarr blockaddr readcnt w = Ok ((rv, buf'), w') ->
  exists new,
    trace w' = trace w ++ new
    /\ ((new = [] /\ rv = 0 /\ buf' = readarr)
        \/ exists pre e,
             new = pre ++ [e] /\ Forall succeeded pre /\ rv = status e).
Proof.
  intros H. unfold gec_read, bind, get in H.
  exact (gec_read_loop_stops _ _ _ _ _ _ _ _ _ _ _ H).
Qed.

Lemma returns_ret (priv : gec_priv) {A : Type} (a : A) :
  returns priv (ret a).
Proof. intros w _. exists a, w. split; reflexivity. Qed.

Lemma returns_get (priv : gec_priv) : returns priv get.
Proof. intros w _. exists w, w. split; reflexivity. Qed.

Lemma returns_bind (priv : gec_priv) {A B : Type} (m : M world A)
    (k : A -> M world B) :
  returns priv m -> (forall a, returns priv (k a)) ->
  returns priv (bind m k).
Proof.
  intros Hm Hk w Hp. unfold bind.
  destruct (Hm w Hp) as (a & w1 & -> & H1).
  rewrite <- H1 in Hp. destruct (Hk a w1 Hp) as (b & w2 & -> & H2).
  exists b, w2. split; [reflexivity | congruence].
Qed.

Lemma returns_priv_ec_command (priv : gec_priv) (c : command) :
  returns priv (priv_ec_command c).
Proof.
  intros w Hp. rewrite (priv_ec_command_eq c w priv Hp).
  eexists _, _. split; reflexivity.
Qed.

Ltac returns_step :=
  match goal with
  | |- returns _ (bind _ _) => apply returns_bind; [|intros ?]
  | |- returns _ (ret _) => apply returns_ret
  | |- returns _ get => apply returns_get
  | |- returns _ (priv_ec_command _) => apply returns_priv_ec_command
  | |- returns _ (if ?b then _ else _) => destruct b
  | |- returns _ _ => assumption
  end.

Lemma returns_gec_jump_copy (priv : gec_priv) (t : lpc_current_image) :
  returns priv (gec_jump_copy t).
Proof. unfold gec_jump_copy. repeat returns_step. Qed.

Lemma returns_return_0_if_jumped (priv : gec_priv) (t : lpc_current_image)
    (rest : M world Z) :
  returns priv rest -> returns priv (return_0_if_jumped t rest).
Proof.
  intros H. unfold return_0_if_jumped.
  repeat (returns_step || apply returns_gec_jump_copy).
Qed.

Lemma returns_do_call_jump (priv : gec_priv) (c : call) :
  is_jump c -> returns priv (do_call ACCESS_DENIED c).
Proof.
  intros Hc. destruct c as [| | |t| |]; try contradiction; clear Hc;
    cbn [do_call]; apply returns_bind;
    try (intros ?; apply returns_ret).
  - apply returns_gec_jump_copy.
  - unfold gec_need_2nd_pass.
    repeat (returns_step || apply returns_gec_jump_copy).
  - unfold gec_finish. repeat returns_step.
    apply returns_return_0_if_jumped, returns_return_0_if_jumped,
      returns_gec_jump_copy.
Qed.

Lemma is_reboot_reboot (t : lpc_current_image) :
  is_reboot (EC_LPC_COMMAND_REBOOT_EC t 0).
Proof. exists t. reflexivity. Qed.

Lemma respects_do_call_jump (c : call) :
  is_jump c ->
  respects (D := D) (only_sent is_reboot) (do_call ACCESS_DENIED c).
Proof.
  intros Hc.
  pose proof (only_sent_refl (D := D) is_reboot) as Hrefl.
  pose proof (only_sent_trans (D := D) is_reboot) as Htrans.
  pose proof (only_sent_sent (D := D) is_reboot) as Hsent.
  destruct c as [| | |t| |]; try contradiction; cbn [do_call];
    (apply (respects_bind _ Htrans); [|intros ?; apply (respects_ret _ Hrefl)]).
  - exact (respects_gec_jump_copy _ is_reboot Hrefl Htrans Hsent
             is_reboot_reboot t).
  - exact (respects_gec_need_2nd_pass _ is_reboot Hrefl Htrans Hsent
             is_reboot_reboot).
  - exact (respects_gec_finish _ is_reboot Hrefl Htrans Hsent
             is_reboot_reboot).
Qed.

(** X7: the jump functions only reboot.  With private data, gec_jump_copy,
    gec_need_2nd_pass and gec_finish return on every world; they send
    reboot commands with reboot_flags 0 only, and change neither the session
    flags, nor the registry, nor the programmer. *)
Theorem jumps_only_reboot (c : call) (w : world) (priv : gec_priv) :
  data (programmer w) = Some priv ->
  is_jump c ->
  exists w',
    do_call ACCESS_DENIED c w = Ok (tt, w') /\ only_sent is_reboot w w'.
Proof.
  intros Hp Hc.
  destruct (returns_do_call_jump priv c Hc w Hp) as ([] & w' & H & _).
  exists w'. split; [exact H|].
  exact (respects_do_call_jump c Hc w tt w' H).
Qed.

Lemma chunks_from_within (max : Z) (count : nat) :
  forall off rem,
    0 < max -> count = Z.to_nat (ceil_div rem max) ->
    Forall (fun c => off <= fst c /\ fst c + snd c <= off + rem)
      (chunks_from count off rem max).
Proof.
  induction count as [|count IH]; intros off rem Hm Hc.
  - constructor.
  - destruct (chunk_count_step count rem max Hm Hc) as [Hpos Hc'].
    cbn [chunks_from]. constructor; [cbn; lia|].
    eapply Forall_impl; [apply (IH (off + max) (rem - max) Hm Hc')|].
    cbv beta. intros c. lia.
Qed.

Lemma write_commands_within (buf : list byte) (addr nbytes max : Z) :
  0 < max -> nbytes <= Z.of_nat (length buf) ->
  Forall (writes_within addr nbytes max)
    (write_commands buf addr nbytes max).
Proof.
  intros Hm Hb. unfold write_commands. rewrite chunks_chunks_from.
  apply Forall_map.
  pose proof (chunks_from_within max _ addr nbytes Hm eq_refl) as H1.
  pose proof (chunks_from_sizes max _ addr nbytes Hm eq_refl) as H2.
  assert (H : Forall (fun c => (addr <= fst c
                                /\ fst c + snd c <= addr + nbytes)
                               /\ 0 < snd c <= max)
                (chunks_from (Z.to_nat (ceil_div nbytes max)) addr nbytes
                   max)).
  { apply Forall_and. split; assumption. }
  clear H1 H2. eapply Forall_impl; [exact H|].
  intros [off size] ((H1 & H2) & H3). cbn [fst snd] in *.
  unfold write_command, slice. cbn [fst snd].
  eexists _, _, _. split; [reflexivity|].
  split; [exact H1|]. split; [exact H2|]. split; [exact H3|].
  rewrite length_take, length_drop. lia.
Qed.

Lemma Forall_prefix {A : Type} (P : A -> Prop) (l1 l2 : list A) :
  l1 `prefix_of` l2 -> Forall P l2 -> Forall P l1.
Proof. intros [k ->] H. apply Forall_app in H. tauto. Qed.

(** The commands of a call of gec_write are an initial part of the commands
    of its chunks. *)
Lemma write_post_prefix (addr nbytes : Z) (cmds : list command) (w : world)
    (new : list exchange) (rv : Z) (w' : world) :
  write_post ACCESS_DENIED addr nbytes cmds w new rv w' ->
  map command_sent new `prefix_of` cmds.
Proof.
  intros [H | [H | H]].
  - destruct H as (_ & <- & _). reflexivity.
  - destruct H as (pre & e & _ & _ & _ & H & _). exact H.
  - destruct H as (pre & e & _ & _ & _ & _ & H & _). exact H.
Qed.

(** X8: gec_write stays in the range it was given.  On a well-formed
    request it returns, whatever statuses the controller answers, and every
    command it has sent is a write of 1 to max_data_write bytes that lie in
    [addr, addr + nbytes) and carries as many bytes as its size says; it
    sends no more than ceil (nbytes / max) commands. *)
Theorem gec_write_stays_in_range (w : world) (priv : gec_priv)
    (buf : list byte) (addr nbytes : Z) :
  data (programmer w) = Some priv ->
  write_request w buf addr nbytes ->
  exists rv w' new,
    gec_write ACCESS_DENIED buf addr nbytes w = Ok (rv, w')
    /\ trace w' = trace w ++ new
    /\ Forall (fun e =>
                 writes_within addr nbytes (max_data_write (programmer w))
                   (command_sent e)) new
    /\ (length new
        <= Z.to_nat (ceil_div nbytes (max_data_write (programmer w))))%nat.
Proof.
  intros Hp Hreq.
  destruct (gec_write_run ACCESS_DENIED priv buf addr nbytes w Hp Hreq)
    as (rv & w' & new & Hrun & Htr & Hpost).
  exists rv, w', new. split; [exact Hrun|]. split; [exact Htr|].
  apply write_post_prefix in Hpost.
  destruct Hreq as (Hm & _ & _ & Hn & Hb). split.
  - apply Forall_map.
    eapply Forall_prefix; [exact Hpost|].
    apply write_commands_within; [apply Hm | exact Hb].
  - apply prefix_length in Hpost. rewrite length_map in Hpost.
    unfold write_commands in Hpost.
    rewrite length_map in Hpost. unfold chunks in Hpost.
    rewrite length_map, length_seqZ in Hpost. exact Hpost.
Qed.

Lemma concat_slices (buf : list byte) (max : Z) (count : nat) :
  forall k rem,
    0 < max -> 0 <= k -> count = Z.to_nat (ceil_div rem max) ->
    concat (map (fun c => take (Z.to_nat (snd c))
                            (drop (Z.to_nat (fst c)) buf))
              (chunks_from count k rem max))
    = take (Z.to_nat rem) (drop (Z.to_nat k) buf).
Proof.
  induction count as [|count IH]; intros k rem Hm Hk Hc.
  - pose proof (ceil_div_nonpos rem max Hm).
    replace (Z.to_nat rem) with O by lia. reflexivity.
  - destruct (chunk_count_step count rem max Hm Hc) as [Hpos Hc'].
    cbn [chunks_from map concat fst snd].
    rewrite (IH (k + max) (rem - max) Hm) by (lia || exact Hc').
    destruct (Z.le_gt_cases rem max) as [Hle | Hgt].
    + replace (Z.to_nat (rem - max)) with O by lia.
      rewrite Z.min_r by lia. cbn [take]. apply app_nil_r.
    + rewrite Z.min_l by lia.
      replace (Z.to_nat (k + max)) with (Z.to_nat k + Z.to_nat max)%nat
        by lia.
      rewrite <- drop_drop, take_take_drop. f_equal. lia.
Qed.

Lemma written_write_commands (buf : list byte) (addr nbytes max : Z) :
  0 < max ->
  concat (map written (write_commands buf addr nbytes max))
  = take (Z.to_nat nbytes) buf.
Proof.
  intros Hm. unfold write_commands. rewrite chunks_chunks_from.
  rewrite map_map.
  pose proof (chunks_from_seqZ 0 nbytes max
                (Z.to_nat (ceil_div nbytes max)) 0) as H0.
  pose proof (chunks_from_seqZ addr nbytes max
                (Z.to_nat (ceil_div nbytes max)) 0) as Ha.
  rewrite Z.mul_0_l, Z.add_0_r, Z.sub_0_r in H0, Ha.
  pose proof (concat_slices buf max _ 0 nbytes Hm (Z.le_refl 0) eq_refl)
    as Hc.
  change (drop (Z.to_nat 0) buf) with buf in Hc. rewrite <- Hc.
  rewrite Ha, H0, !map_map. f_equal. apply map_ext. intros k.
  unfold write_command, slice, chunk. cbn [written fst snd].
  f_equal. f_equal. lia.
Qed.

(** X9: gec_write sends the buffer.  On a well-formed request, the bytes
    its commands carry, put one after the other in the order sent, are an
    initial part of the first [nbytes] bytes of [buf]; they are all of them
    when every command succeeded. *)
Theorem gec_write_sends_the_buffer (w : world) (priv : gec_priv)
    (buf : list byte) (addr nbytes : Z) :
  data (programmer w) = Some priv ->
  write_request w buf addr nbytes ->
  exists rv w' new,
    gec_write ACCESS_DENIED buf addr nbytes w = Ok (rv, w')
    /\ trace w' = trace w ++ new
    /\ concat (map (fun e => written (command_sent e)) new)
         `prefix_of` take (Z.to_nat nbytes) buf
    /\ (Forall succeeded new ->
        concat (map (fun e => written (command_sent e)) new)
        = take (Z.to_nat nbytes) buf).
Proof.
  intros Hp Hreq.
  destruct (gec_write_run ACCESS_DENIED priv buf addr nbytes w Hp Hreq)
    as (rv & w' & new & Hrun & Htr & Hpost).
  exists rv, w', new. split; [exact Hrun|]. split; [exact Htr|].
  destruct Hreq as (Hm & _).
  rewrite <- (written_write_commands buf addr nbytes _ (proj1 Hm)).
  rewrite <- (map_map command_sent written new). split.
  - destruct (write_post_prefix _ _ _ _ _ _ _ Hpost) as [k ->].
    rewrite map_app, concat_app. eexists. reflexivity.
  - intros Hall.
    destruct (write_post_succeeded ACCESS_DENIED _ _ _ _ _ _ _ Hpost Hall)
      as [-> _].
    reflexivity.
Qed.

(** One turn of the loop of gec_write that returns, on any request. *)
Lemma gec_write_loop_turn (fuel : nat) (buf : list byte)
    (addr nbytes maxlen i rc : Z) (w : world) (rv : Z) (w' : world) :
  gec_write_loop ACCESS_DENIED (S fuel) buf addr nbytes maxlen i rc w =
    Ok (rv, w') ->
  (rv = rc /\ w' = set_try_latest_firmware 1 w
   /\ nbytes <= C.to_unsigned i)
  \/ exists priv,
       data (programmer w) = Some priv
       /\ C.to_unsigned i < nbytes
       /\ let size :=
            C.min (C.to_unsigned (nbytes - i)) (C.to_unsigned maxlen) in
          let c :=
            EC_LPC_COMMAND_FLASH_WRITE (C.to_unsigned (addr + i)) size
              (take (Z.to_nat size) (drop (Z.to_nat i) buf)) in
          0 <= i /\ 0 <= size <= FLASH_WRITE_DATA_SIZE
          /\ i + size <= Z.of_nat (length buf)
          /\ ((status_of priv c w = EC_LPC_RESULT_ACCESS_DENIED
               /\ rv = ACCESS_DENIED
               /\ w' = set_need_2nd_pass 1
                         (set_fwcopy
                            (gec_invalidate_copy addr nbytes (fwcopy w))
                            (after priv c w)))
              \/ (status_of priv c w <> EC_LPC_RESULT_ACCESS_DENIED
                  /\ status_of priv c w <> 0
                  /\ rv = status_of priv c w
                  /\ w' = set_try_latest_firmware 1 (after priv c w))
              \/ (status_of priv c w = 0
                  /\ gec_write_loop ACCESS_DENIED fuel buf addr nbytes
                       maxlen (C.to_int (C.to_unsigned i + size))
                       (status_of priv c w) (after priv c w)
                     = Ok (rv, w'))).
Proof.
  cbn [gec_write_loop].
  destruct (C.to_unsigned i <? nbytes) eqn:Ei.
  2:{ intros H. injection H as <- <-. left. apply Z.ltb_ge in Ei. auto. }
  apply Z.ltb_lt in Ei.
  set (size := C.min (C.to_unsigned (nbytes - i)) (C.to_unsigned maxlen)).
  unfold bind at 1, memcpy_from.
  destruct ((0 <=? i) && (0 <=? size)
            && (i + size <=? Z.of_nat (length buf))
            && (size <=? FLASH_WRITE_DATA_SIZE)) eqn:Em; [|discriminate].
  apply andb_prop in Em. destruct Em as [Em E4].
  apply andb_prop in Em. destruct Em as [Em E3].
  apply andb_prop in Em. destruct Em as [E1 E2].
  apply Z.leb_le in E1, E2, E3, E4.
  unfold ret at 1.
  destruct (data (programmer w)) as [priv|] eqn:Ep.
  2:{ unfold bind at 1, priv_ec_command. rewrite Ep. discriminate. }
  unfold bind at 1. rewrite (priv_ec_command_eq _ w priv Ep). cbn [fst snd].
  intros H. right. exists priv. split; [reflexivity|]. split; [exact Ei|].
  cbv zeta. fold size.
  set (c := EC_LPC_COMMAND_FLASH_WRITE (C.to_unsigned (addr + i)) size
              (take (Z.to_nat size) (drop (Z.to_nat i) buf))) in *.
  split; [exact E1|]. split; [split; assumption|]. split; [exact E3|].
  destruct (status_of priv c w =? EC_LPC_RESULT_ACCESS_DENIED) eqn:E.
  - apply Z.eqb_eq in E. left. injection H as <- <-. auto.
  - apply Z.eqb_neq in E. right.
    destruct (status_of priv c w =? 0) eqn:Es; cbn [negb] in H.
    + apply Z.eqb_eq in Es. right. auto.
    + apply Z.eqb_neq in Es. left. injection H as <- <-. auto.
Qed.

Lemma marked_on_denial_refl (w : world) : marked_on_denial w w.
Proof. exists []. rewrite app_nil_r. auto. Qed.

Lemma marked_on_denial_trans (w1 w2 w3 : world) :
  marked_on_denial w1 w2 -> marked_on_denial w2 w3 ->
  marked_on_denial w1 w3.
Proof.
  intros (n1 & H1 & K1) (n2 & H2 & K2). exists (n1 ++ n2).
  split; [rewrite H2, H1; apply eq_sym, app_assoc|].
  intros Hall. apply Forall_app in Hall. destruct Hall as [Ha Hb].
  destruct (K1 Ha) as [<- <-]. exact (K2 Hb).
Qed.

Lemma marked_on_denial_sent (e : exchange) (d : D) (w : world) :
  True -> marked_on_denial w (sent e d w).
Proof. intros _. exists [e]. split; [reflexivity|]. auto. Qed.

Lemma marked_on_denial_try (w : world) :
  marked_on_denial w (set_try_latest_firmware 1 w).
Proof. exists []. split; [symmetry; apply app_nil_r|]. auto. Qed.

(** After a denial, anything goes. *)
Lemma marked_on_denial_denied (priv : gec_priv) (c : command) (w w' : world) :
  denial (exchange_of priv c w) ->
  trace w' = trace (after priv c w) ->
  marked_on_denial w w'.
Proof.
  intros Hd Htr. exists [exchange_of priv c w].
  split; [rewrite Htr; apply trace_after|].
  intros Hall. apply Forall_cons in Hall. destruct Hall as [Hn _].
  contradiction.
Qed.

Lemma marked_on_denial_gec_block_erase (blockaddr len : Z) :
  respects (D := D) marked_on_denial
    (gec_block_erase ACCESS_DENIED blockaddr len).
Proof.
  intros w rv w' H.
  destruct (data (programmer w)) as [priv|] eqn:Ep.
  2:{ unfold gec_block_erase, bind at 1, priv_ec_command in H.
      rewrite Ep in H. discriminate. }
  rewrite (gec_block_erase_run ACCESS_DENIED priv blockaddr len w Ep) in H.
  destruct (status_of priv _ w =? EC_LPC_RESULT_ACCESS_DENIED) eqn:E.
  - apply Z.eqb_eq in E. injection H as _ <-.
    apply (marked_on_denial_denied priv
             (EC_LPC_COMMAND_FLASH_ERASE blockaddr len)); [|reflexivity].
    split; [exact E|]. left. eexists _, _. reflexivity.
  - destruct (negb (status_of priv _ w =? 0)); injection H as _ <-.
    + apply marked_on_denial_sent. exact I.
    + eapply marked_on_denial_trans;
        [apply marked_on_denial_sent; exact I | apply marked_on_denial_try].
Qed.

Lemma marked_on_denial_gec_write_loop (buf : list byte)
    (addr nbytes maxlen : Z) :
  forall (fuel : nat) (i rc : Z),
    respects (D := D) marked_on_denial
      (gec_write_loop ACCESS_DENIED fuel buf addr nbytes maxlen i rc).
Proof.
  induction fuel as [|fuel IH]; intros i rc w rv w' H; [discriminate|].
  apply gec_write_loop_turn in H.
  destruct H as [(_ & -> & _) | (priv & Hp & _ & H)];
    [apply marked_on_denial_try|].
  cbv zeta in H. destruct H as (_ & _ & _ & H).
  destruct H as [(E & _ & ->) | [(_ & _ & _ & ->) | (_ & H)]].
  - eapply marked_on_denial_denied; [|reflexivity].
    split; [exact E|]. right. eexists _, _, _. reflexivity.
  - eapply marked_on_denial_trans;
      [apply marked_on_denial_sent; exact I | apply marked_on_denial_try].
  - eapply marked_on_denial_trans;
      [apply marked_on_denial_sent; exact I | eapply IH, H].
Qed.

Lemma marked_on_denial_do_call (c : call) :
  respects (D := D) marked_on_denial (do_call ACCESS_DENIED c).
Proof.
  pose proof marked_on_denial_refl as Hrefl.
  pose proof marked_on_denial_trans as Htrans.
  pose proof marked_on_denial_sent as Hsent.
  destruct c as [blockaddr len|buf addr nbytes|readarr blockaddr readcnt|t| |];
    cbn [do_call];
    (apply (respects_bind _ Htrans);
     [|intros ?; apply (respects_ret _ Hrefl)]).
  - apply marked_on_denial_gec_block_erase.
  - unfold gec_write. apply (respects_bind _ Htrans).
    + apply (respects_get _ Hrefl).
    + intros w0. apply marked_on_denial_gec_write_loop.
  - exact (respects_gec_read _ (fun _ => True) Hrefl Htrans Hsent
             (fun _ _ => I) readarr blockaddr readcnt).
  - exact (respects_gec_jump_copy _ (fun _ => True) Hrefl Htrans Hsent
             (fun _ => I) t).
  - exact (respects_gec_need_2nd_pass _ (fun _ => True) Hrefl Htrans Hsent
             (fun _ => I)).
  - exact (respects_gec_finish _ (fun _ => True) Hrefl Htrans Hsent
             (fun _ => I)).
Qed.

(** X10: copies are marked old, and a second pass is asked for, on access
    denied only.  Over every sequence of erase, write, read, jump,
    need_2nd_pass and finish calls that runs to its end, if the controller
    answered no erase and no write command with access denied, the registry
    and need_2nd_pass are what they were at the start. *)
Theorem registry_changes_on_denial_only (cs : list call) (w w' : world)
    (u : unit) :
  do_calls ACCESS_DENIED cs w = Ok (u, w') ->
  exists new,
    trace w' = trace w ++ new
    /\ (Forall (fun e => ~ denial e) new ->
        fwcopy w' = fwcopy w /\ need_2nd_pass w' = need_2nd_pass w).
Proof.
  revert w w' u. induction cs as [|c cs IH]; intros w w' u H.
  - injection H as _ <-. apply marked_on_denial_refl.
  - cbn [do_calls] in H. unfold bind at 1 in H.
    destruct (do_call ACCESS_DENIED c w) as [[[] w1]| |] eqn:E;
      try discriminate.
    eapply marked_on_denial_trans;
      [exact (marked_on_denial_do_call c w tt w1 E) | exact (IH _ _ _ H)].
Qed.

Lemma In_copies (t : lpc_current_image) :
  t <> EC_LPC_IMAGE_UNKNOWN -> In t copies.
Proof.
  intros H. destruct t; [contradiction | | |]; cbn; auto.
Qed.

(** A copy that is new after an invalidation was new before it and is not
    in the range. *)
Lemma is_new_after_invalidate (addr len : Z) (fw : registry)
    (t : lpc_current_image) :
  t <> EC_LPC_IMAGE_UNKNOWN ->
  is_new (gec_invalidate_copy addr len fw) t =
    is_new fw t && negb (in_range addr len (fw t)).
Proof.
  intros Ht. unfold is_new. rewrite gec_invalidate_copy_entry.
  rewrite bool_decide_eq_true_2 by exact Ht. cbn [andb].
  destruct (in_range addr len (fw t)); cbn [set_flags flags negb].
  - rewrite andb_false_r. reflexivity.
  - rewrite andb_true_r. reflexivity.
Qed.

(** X11: the second pass does not run the copy that was denied.  When an
    erase is answered with access denied on a detected programmer, the
    gec_need_2nd_pass that follows reboots the controller into a copy that
    was new before the erase and that the invalidation of the erased range
    has left new, and returns 1 if that reboot succeeds and -1 if not; if
    the erase has left no copy new, it returns -1 and sends nothing. *)
Theorem second_pass_avoids_denied_copy (w : world) (priv : gec_priv)
    (blockaddr len : Z) :
  is_detected w priv ->
  status_of priv (EC_LPC_COMMAND_FLASH_ERASE blockaddr len) w =
    EC_LPC_RESULT_ACCESS_DENIED ->
  exists w1 rv w2,
    gec_block_erase ACCESS_DENIED blockaddr len w = Ok (ACCESS_DENIED, w1)
    /\ gec_need_2nd_pass w1 = Ok (rv, w2)
    /\ ((rv = -1 /\ w2 = w1
         /\ forall t, In t copies -> is_new (fwcopy w) t = true ->
                      in_range blockaddr len (fwcopy w t) = true)
        \/ exists t,
             w2 = after priv (reboot t) w1
             /\ In t copies
             /\ is_new (fwcopy w) t = true
             /\ in_range blockaddr len (fwcopy w t) = false
             /\ rv = if status_of priv (reboot t) w1 =? 0 then 1 else -1).
Proof.
  intros Hd Hs. pose proof Hd as [Hp Hdet].
  pose proof (gec_block_erase_run ACCESS_DENIED priv blockaddr len w Hp)
    as Hrun.
  cbv zeta in Hrun. rewrite Hs, Z.eqb_refl in Hrun.
  set (w1 := set_need_2nd_pass 1 _) in Hrun.
  assert (Hd1 : is_detected w1 priv) by (split; [exact Hp | exact Hdet]).
  assert (Hfw : fwcopy w1 = gec_invalidate_copy blockaddr len (fwcopy w))
    by reflexivity.
  exists w1.
  unfold gec_need_2nd_pass, bind, get.
  rewrite (is_detected_true w1 priv Hd1).
  change (need_2nd_pass w1) with 1.
  change (negb (1 =? 0)) with true. cbv beta iota delta [negb].
  destruct (first_fresh (fwcopy w1)) as [t|] eqn:Ef.
  - rewrite (gec_jump_copy_unknown_some w1 priv t Hp Ef).
    destruct (first_fresh_known _ _ Ef) as [Ht Hnew].
    rewrite Hfw, is_new_after_invalidate in Hnew by exact Ht.
    apply andb_prop in Hnew. destruct Hnew as [Hnew Hin].
    apply negb_true_iff in Hin.
    destruct (status_of priv (reboot t) w1 =? 0) eqn:E.
    + eexists _, _. split; [exact Hrun|]. split; [reflexivity|].
      right. exists t. rewrite E.
      repeat split; auto using In_copies.
    + eexists _, _. split; [exact Hrun|]. split; [reflexivity|].
      right. exists t. rewrite E.
      repeat split; auto using In_copies.
  - rewrite (gec_jump_copy_unknown_none w1 Ef).
    change (1 =? 0) with false. cbv beta iota.
    eexists _, _. split; [exact Hrun|]. split; [reflexivity|].
    left. split; [reflexivity|]. split; [reflexivity|].
    intros t Hin Hnew.
    pose proof (proj1 (first_fresh_none _) Ef t Hin) as Hold.
    assert (Ht : t <> EC_LPC_IMAGE_UNKNOWN).
    { intros ->. cbn in Hin. intuition discriminate. }
    rewrite Hfw, is_new_after_invalidate, Hnew in Hold by exact Ht.
    cbn [andb] in Hold. apply negb_false_iff in Hold. exact Hold.
Qed.

Lemma C_min_0 (a : Z) : C.min (C.to_unsigned a) (C.to_unsigned 0) = 0.
Proof.
  unfold C.min, C.to_unsigned. change (0 mod 2 ^ 32) with 0.
  destruct (a mod 2 ^ 32 <? 0) eqn:E; [|reflexivity].
  apply Z.ltb_lt in E. pose proof (Z.mod_pos_bound a (2 ^ 32)). lia.
Qed.

(** X12: a limit of 0 bytes a command never ends.  With max_data_write 0
    the loop of gec_write, and with max_data_read 0 the loop of gec_read,
    send commands for 0 bytes and do not advance: on a controller that
    answers success, a request for one byte or more runs out of any fuel. *)
Theorem zero_limit_never_ends (priv : gec_priv) (buf readarr : list byte)
    (addr blockaddr n : Z) (fuel : nat) (rc : Z) (w : world) :
  (forall c d, fst (fst (ec_command priv c d)) = 0) ->
  0 < n ->
  data (programmer w) = Some priv ->
  gec_write_loop ACCESS_DENIED fuel buf addr n 0 0 rc w = OutOfFuel
  /\ gec_read_loop fuel blockaddr n 0 0 rc readarr w = OutOfFuel.
Proof.
  intros Hok Hn. revert rc w readarr.
  induction fuel as [|fuel IH]; intros rc w readarr Hp; [split; reflexivity|].
  split.
  - cbn [gec_write_loop]. rewrite C_min_0.
    change (C.to_unsigned 0) with 0.
    rewrite (proj2 (Z.ltb_lt 0 n) Hn).
    unfold bind at 1. rewrite memcpy_from_ok by (unfold FLASH_WRITE_DATA_SIZE; lia).
    unfold bind at 1. rewrite (priv_ec_command_eq _ w priv Hp). cbn [fst].
    unfold status_of at 1 2 3. rewrite Hok.
    change (0 =? EC_LPC_RESULT_ACCESS_DENIED) with false.
    change (negb (0 =? 0)) with false. cbv iota.
    change (C.to_int (0 + 0)) with 0.
    apply (IH _ _ readarr). exact Hp.
  - cbn [gec_read_loop]. rewrite C_min_0.
    change (C.to_unsigned 0) with 0.
    rewrite (proj2 (Z.ltb_lt 0 n) Hn).
    unfold bind at 1. rewrite (priv_ec_command_eq _ w priv Hp). cbn [fst snd].
    unfold status_of at 1 2. rewrite Hok.
    change (negb (0 =? 0)) with false. cbv iota.
    unfold bind at 1. rewrite memcpy_to_ok by lia.
    unfold bind at 1. rewrite int_add_ok by (unfold C.INT_MIN, C.INT_MAX; lia).
    apply IH. exact Hp.
Qed.

Lemma gec_read_loop_within (blockaddr readcnt maxlen : Z) :
  0 < maxlen <= C.INT_MAX ->
  0 <= blockaddr -> readcnt < 2 ^ 32 -> blockaddr + readcnt <= 2 ^ 32 ->
  forall (fuel : nat) (i rc : Z) (readarr : list byte) (w : world) (rv : Z)
         (buf' : list byte) (w' : world),
    0 <= i <= C.INT_MAX ->
    gec_read_loop fuel blockaddr readcnt maxlen i rc readarr w =
      Ok ((rv, buf'), w') ->
    exists new,
      trace w' = trace w ++ new
      /\ Forall (fun e =>
                   reads_within blockaddr readcnt maxlen (command_sent e))
           new.
Proof.
  intros Hm Ha Hr Har. induction fuel as [|fuel IH];
    intros i rc readarr w rv buf' w' Hi H; [discriminate|].
  apply gec_read_loop_turn in H.
  destruct H as [(_ & _ & -> & _) | (priv & Hp & Hlt & H)].
  { exists []. rewrite app_nil_r. auto. }
  cbv zeta in H. unfold C.INT_MAX in *.
  rewrite (to_unsigned_small i) in * by lia.
  rewrite (to_unsigned_small (blockaddr + i)) in H by lia.
  rewrite C_min_unsigned in H by lia.
  assert (Hc : reads_within blockaddr readcnt maxlen
                 (EC_LPC_COMMAND_FLASH_READ (blockaddr + i)
                    (Z.min maxlen (readcnt - i)))).
  { eexists _, _. split; [reflexivity|]. lia. }
  destruct H as [(_ & _ & _ & ->) | (_ & _ & _ & _ & _ & Hadd & H)].
  - eexists. split; [apply trace_after|]. constructor; [exact Hc|constructor].
  - apply IH in H; [|unfold C.INT_MAX; lia].
    destruct H as (new & Htr & Hall).
    rewrite trace_after, <- app_assoc in Htr.
    eexists. split; [exact Htr|]. constructor; [exact Hc | exact Hall].
Qed.

(** X13: gec_read stays in the range it was given.  With a limit of 1 byte
    or more and a range of 32-bit values that does not wrap, every command
    gec_read has sent when it returns is a read of 1 to max_data_read bytes
    that lie in [blockaddr, blockaddr + readcnt), whatever statuses the
    controller answers and whatever it leaves in the response buffer. *)
Theorem gec_read_stays_in_range (readarr : list byte)
    (blockaddr readcnt : Z) (w w' : world) (rv : Z) (buf' : list byte) :
  0 < max_data_read (programmer w) <= C.INT_MAX ->
  0 <= blockaddr -> readcnt < 2 ^ 32 -> blockaddr + readcnt <= 2 ^ 32 ->
  gec_read readarr blockaddr readcnt w = Ok ((rv, buf'), w') ->
  exists new,
    trace w' = trace w ++ new
    /\ Forall (fun e =>
                 reads_within blockaddr readcnt
                   (max_data_read (programmer w)) (command_sent e)) new.
Proof.
  intros Hm Ha Hr Har H. unfold gec_read, bind, get in H.
  eapply gec_read_loop_within in H;
    [exact H | exact Hm | exact Ha | exact Hr | exact Har
    | unfold C.INT_MAX; lia].
Qed.

Lemma in_range_set_flags (addr len v : Z) (fa : fmap_area) :
  in_range addr len (set_flags v fa) = in_range addr len fa.
Proof. reflexivity. Qed.

(** X14: invalidations commute, and a second one of the same range changes
    nothing: the registry after two denied ranges does not depend on the
    order in which they were denied. *)
Theorem gec_invalidate_copy_commutes (a1 l1 a2 l2 : Z) (fw : registry)
    (t : lpc_current_image) :
  gec_invalidate_copy a1 l1 (gec_invalidate_copy a2 l2 fw) t =
    gec_invalidate_copy a2 l2 (gec_invalidate_copy a1 l1 fw) t
  /\ gec_invalidate_copy a1 l1 (gec_invalidate_copy a1 l1 fw) t =
       gec_invalidate_copy a1 l1 fw t.
Proof.
  rewrite !(gec_invalidate_copy_entry _ _ (gec_invalidate_copy _ _ _)).
  rewrite !gec_invalidate_copy_entry.
  destruct (bool_decide (t <> EC_LPC_IMAGE_UNKNOWN)); cbn [andb];
    [|split; reflexivity].
  destruct (in_range a1 l1 (fw t)) eqn:E1;
    destruct (in_range a2 l2 (fw t)) eqn:E2;
    rewrite ?in_range_set_flags, ?E1, ?E2; split; reflexivity.
Qed.

End Transfers.

(** ** The probe of the flash size *)

Section Probe_facts.

Import Probe.

(** X15: gec_probe_size rounds down.  When the info command fails it
    returns 0 and leaves the chip as it was.  When it succeeds with an erase
    block size of 0 the division has no defined behaviour.  Otherwise it
    returns 1 and describes a chip of no more bytes than the controller
    reported: the blocks of the eraser and the kilobytes of total_size both
    fit in flash_size, short of it by less than one block and less than one
    kilobyte; they are the same bytes when flash_size is a multiple of
    both. *)
Theorem gec_probe_size_rounds_down (TEST_OK_PREW rc : Z)
    (info : lpc_response_flash_info) (flash : flashchip) :
  0 <= flash_size info ->
  0 <= erase_block_size info ->
  (rc <> 0 ->
   gec_probe_size TEST_OK_PREW (Some (rc, info)) flash = Ok (0, flash))
  /\ (rc = 0 -> erase_block_size info = 0 ->
      gec_probe_size TEST_OK_PREW (Some (rc, info)) flash = Fault)
  /\ (rc = 0 -> erase_block_size info <> 0 ->
      exists flash',
        gec_probe_size TEST_OK_PREW (Some (rc, info)) flash = Ok (1, flash')
        /\ eraseblock_size flash' * eraseblock_count flash'
           <= flash_size info
           < eraseblock_size flash' * (eraseblock_count flash' + 1)
        /\ total_size flash' * 1024 <= flash_size info
           < (total_size flash' + 1) * 1024
        /\ (flash_size info mod erase_block_size info = 0 ->
            flash_size info mod 1024 = 0 ->
            eraseblock_size flash' * eraseblock_count flash'
            = total_size flash' * 1024)).
Proof.
  intros Hf He. unfold gec_probe_size. split; [|split].
  - intros Hrc. apply Z.eqb_neq in Hrc. rewrite Hrc. reflexivity.
  - intros -> ->. reflexivity.
  - intros -> Hne. cbn [Z.eqb negb].
    rewrite (proj2 (Z.eqb_neq _ 0) Hne).
    eexists. split; [reflexivity|]. cbn [eraseblock_size eraseblock_count
                                          total_size].
    pose proof (Z.div_mod (flash_size info) (erase_block_size info)) as H1.
    pose proof (Z.mod_pos_bound (flash_size info) (erase_block_size info))
      as H2.
    pose proof (Z.div_mod (flash_size info) 1024) as H3.
    pose proof (Z.mod_pos_bound (flash_size info) 1024) as H4.
    split; [nia|]. split; [lia|]. intros H5 H6. nia.
Qed.

End Probe_facts.

(** * The programmer of 3COM network cards *)

Section Nic3com_facts.

Import Nic3com.

Variable pci_read_long : pci_dev -> Z -> Z.

(** [x & ~0x03] on a [uint32_t]: [x] with its two low bits cleared. *)
Lemma land_not_3 (x : Z) :
  0 <= x < 2 ^ 32 -> Z.land x (C.to_unsigned (Z.lnot 0x03)) = 4 * (x / 4).
Proof.
  intros Hx.
  change (C.to_unsigned (Z.lnot 3))
    with (Z.land (Z.lnot (Z.ones 2)) (Z.ones 32)).
  rewrite Z.land_assoc, Z.land_ones, <- Z.ldiff_land, Z.ldiff_ones_r by lia.
  rewrite Z.shiftr_div_pow2, Z.shiftl_mul_pow2 by lia.
  change (2 ^ 2) with 4.
  pose proof (Z.div_mod x 4) as H1.
  pose proof (Z.mod_pos_bound x 4) as H2.
  rewrite Z.mod_small; lia.
Qed.

Lemma validated_address (x : Z) :
  let addr := Z.land (C.to_unsigned x) (C.to_unsigned (Z.lnot 0x03)) in
  addr mod 4 = 0
  /\ addr <= C.to_unsigned x < addr + 4
  /\ addr <> C.to_unsigned (-1).
Proof.
  cbv zeta.
  pose proof (Z.mod_pos_bound x (2 ^ 32)) as Hx. fold (C.to_unsigned x) in Hx.
  rewrite land_not_3 by lia.
  pose proof (Z.div_mod (C.to_unsigned x) 4) as H1.
  pose proof (Z.mod_pos_bound (C.to_unsigned x) 4) as H2.
  split; [rewrite Z.mul_comm; apply Z.mod_mul; lia|].
  split; [lia|].
  change (C.to_unsigned (-1)) with 4294967295. lia.
Qed.

Lemma supported_spec (id : Z) : supported id <-> supportedb id = true.
Proof.
  unfold supported, supportedb. rewrite existsb_exists. split.
  - intros (n & name & Hin & Hn & Hid). exists n. split; [exact Hin|].
    rewrite Hn. apply Z.eqb_eq. symmetry. exact Hid.
  - intros (n & Hin & H). destruct (device_name n) as [name|] eqn:E;
      [|discriminate].
    exists n, name. apply Z.eqb_eq in H. auto.
Qed.

(** X16: the address that says no card is unambiguous.  nic3com_validate
    never reads past the end of its table; it returns 0xffffffff, having
    printed nothing, exactly when the device id is none of the table: the
    address of a card of the table has its two low bits clear.  The zeroed
    entry that ends the table is no card: a device id of 0 is not found. *)
Theorem nic3com_validate_sentinel (dev : pci_dev) :
  exists addr out,
    nic3com_validate pci_read_long dev = Some (addr, out)
    /\ (addr = 0xffffffff <-> ~ supported (pci_device_id dev))
    /\ (out = [] <-> ~ supported (pci_device_id dev))
    /\ ~ supported 0.
Proof.
  assert (H0 : ~ supported 0).
  { rewrite supported_spec. discriminate. }
  unfold nic3com_validate, nics.
  cbn [nic3com_validate_from nic device_name device_id status].
  repeat match goal with
    | |- context [negb (pci_device_id dev =? ?k)] =>
        destruct (pci_device_id dev =? k) eqn:?; cbn [negb]; cbv iota
    end;
    (eexists _, _; split; [reflexivity|]);
    try match goal with
      | E : (pci_device_id dev =? _) = true |- _ =>
          apply Z.eqb_eq in E; rewrite E;
          pose proof (validated_address (pci_read_long dev PCI_IO_BASE_ADDRESS))
            as (_ & _ & Hne);
          assert (Hs : supported (pci_device_id dev))
            by (rewrite E, supported_spec; reflexivity);
          rewrite E in Hs;
          split; [|split; [|exact H0]];
          (split; [intros H; first [contradiction | discriminate]
                  | intros H; contradiction])
      end.
  assert (Hn : ~ supported (pci_device_id dev)).
  { rewrite supported_spec. unfold supportedb, nics.
    cbn [existsb nic device_name device_id].
    repeat match goal with
      | E : (pci_device_id dev =? _) = false |- _ => rewrite E; clear E
      end.
    discriminate. }
  split; [|split; [|exact H0]]; split; trivial.
Qed.

(** X17: the address of a card of the table.  For a device of the table,
    nic3com_validate returns the I/O base address register with its two low
    bits cleared, a multiple of 4 no more than 3 below the register; it
    prints the card, and the warning that the card is untested for every
    card but the 3C905C (0x9200). *)
Theorem nic3com_validate_address (dev : pci_dev) :
  supported (pci_device_id dev) ->
  exists addr name,
    let bar := C.to_unsigned (pci_read_long dev PCI_IO_BASE_ADDRESS) in
    let found :=
      Found_NIC name PCI_VENDOR_ID_3COM (pci_device_id dev) addr in
    nic3com_validate pci_read_long dev =
      Some (addr,
            if pci_device_id dev =? 0x9200 then [found]
            else [found; UNTESTED])
    /\ addr mod 4 = 0
    /\ addr <= bar < addr + 4.
Proof.
  intros Hs. unfold nic3com_validate, nics.
  cbn [nic3com_validate_from nic device_name device_id status].
  pose proof (validated_address (pci_read_long dev PCI_IO_BASE_ADDRESS))
    as (Hmod & Hle & _).
  repeat match goal with
    | |- context [negb (pci_device_id dev =? ?k)] =>
        destruct (pci_device_id dev =? k) eqn:?; cbn [negb]; cbv iota
    end;
    try match goal with
      | E : (pci_device_id dev =? _) = true |- _ =>
          apply Z.eqb_eq in E; rewrite E;
          eexists _, _; split; [reflexivity|]; split; assumption
      end.
  exfalso. revert Hs. rewrite supported_spec. unfold supportedb, nics.
  cbn [existsb nic device_name device_id].
  repeat match goal with
    | E : (pci_device_id dev =? _) = false |- _ => rewrite E; clear E
    end.
  discriminate.
Qed.

End Nic3com_facts.

(** * The further properties, run *)

Module More_run.

Import Scenario Cases Run.

(** X3 on a session that starts while RW-A runs: prepare records the copies
    and jumps to RO, the erase of RO is denied; need_2nd_pass, which was 0,
    is 1 at the end, try_latest_firmware is still 0. *)
Lemma session_flags_are_kept_witness :
  do_session fmap_find_in_memory ACCESS_DENIED
    [Prepare candidate candidate_size; Call (Erase 0 0x8000)] started =
    Ok (tt,
        set_need_2nd_pass 1
          (set_fwcopy (gec_invalidate_copy 0 0x8000 all_new)
             (after priv (EC_LPC_COMMAND_FLASH_ERASE 0 0x8000)
                (after priv (reboot EC_LPC_IMAGE_RO)
                   (set_fwcopy all_new started)))))
  /\ flag (need_2nd_pass started)
  /\ flag 1
  /\ flag (try_latest_firmware started).
Proof.
  assert (Hrun :
    do_session fmap_find_in_memory ACCESS_DENIED
      [Prepare candidate candidate_size; Call (Erase 0 0x8000)] started =
      Ok (tt,
          set_need_2nd_pass 1
            (set_fwcopy (gec_invalidate_copy 0 0x8000 all_new)
               (after priv (EC_LPC_COMMAND_FLASH_ERASE 0 0x8000)
                  (after priv (reboot EC_LPC_IMAGE_RO)
                     (set_fwcopy all_new started)))))) by reflexivity.
  destruct (session_flags_are_kept fmap_find_in_memory ACCESS_DENIED _ _ _ _
              Hrun) as (_ & Hn & Ht & _).
  assert (H0 : flag (need_2nd_pass started)) by (left; reflexivity).
  assert (H1 : flag (try_latest_firmware started)) by (left; reflexivity).
  split; [exact Hrun|]. split; [exact H0|]. split; [exact (Hn H0)|].
  exact H1.
Defined.

(** X4 on an erase of RO that is denied, followed by need_2nd_pass: RO is
    marked old, and its range is what it was. *)
Lemma registry_ranges_are_kept_witness :
  do_calls ACCESS_DENIED [Erase 0 0x8000; Need_2nd_pass] prepared =
    Ok (tt,
        after priv (reboot EC_LPC_IMAGE_RW_A)
          (set_need_2nd_pass 1
             (set_fwcopy (gec_invalidate_copy 0 0x8000 all_new)
                (after priv (EC_LPC_COMMAND_FLASH_ERASE 0 0x8000)
                   prepared))))
  /\ offset (gec_invalidate_copy 0 0x8000 all_new EC_LPC_IMAGE_RO) = 0
  /\ size (gec_invalidate_copy 0 0x8000 all_new EC_LPC_IMAGE_RO) = 0x20000.
Proof.
  assert (Hrun :
    do_calls ACCESS_DENIED [Erase 0 0x8000; Need_2nd_pass] prepared =
      Ok (tt,
          after priv (reboot EC_LPC_IMAGE_RW_A)
            (set_need_2nd_pass 1
               (set_fwcopy (gec_invalidate_copy 0 0x8000 all_new)
                  (after priv (EC_LPC_COMMAND_FLASH_ERASE 0 0x8000)
                     prepared))))) by reflexivity.
  destruct (registry_ranges_are_kept ACCESS_DENIED _ _ _ _ Hrun
              EC_LPC_IMAGE_RO) as (Ho & Hs & _).
  split; [exact Hrun|]. split; [exact Ho | exact Hs].
Defined.

(** X5 on a read of 300 bytes into a buffer of 300. *)
Lemma gec_read_only_reads_witness :
  exists buf' w',
    gec_read large_buffer 0x100 300 prepared = Ok ((0, buf'), w')
    /\ only_sent is_read prepared w'
    /\ length buf' = length large_buffer
    /\ drop 300 buf' = drop 300 large_buffer.
Proof.
  assert (Hrun :
    gec_read large_buffer 0x100 300 prepared =
      Ok ((0, repeat (byte_at 0x100) 128 ++ repeat (byte_at 0x180) 128
              ++ repeat (byte_at 0x200) 44),
          after priv (EC_LPC_COMMAND_FLASH_READ 0x200 44)
            (after priv (EC_LPC_COMMAND_FLASH_READ 0x180 128)
               (after priv (EC_LPC_COMMAND_FLASH_READ 0x100 128)
                  prepared)))) by reflexivity.
  eexists _, _. split; [exact Hrun|].
  apply (gec_read_only_reads large_buffer 0x100 300 prepared _ 0 _);
    [split; numerals | exact Hrun].
Defined.

(** X6 on a controller that fails every command: the first read is the
    last, and its status is returned. *)
Lemma gec_read_stops_at_failure_witness :
  gec_read buffer 0 128 prepared_broken =
    Ok ((EC_LPC_RESULT_ERROR, buffer),
        after broken_priv (EC_LPC_COMMAND_FLASH_READ 0 128) prepared_broken)
  /\ exists new,
       trace (after broken_priv (EC_LPC_COMMAND_FLASH_READ 0 128)
                prepared_broken) = trace prepared_broken ++ new
       /\ ((new = [] /\ EC_LPC_RESULT_ERROR = 0 /\ buffer = buffer)
           \/ exists pre e,
                new = pre ++ [e] /\ Forall succeeded pre
                /\ EC_LPC_RESULT_ERROR = status e).
Proof.
  assert (Hrun :
    gec_read buffer 0 128 prepared_broken =
      Ok ((EC_LPC_RESULT_ERROR, buffer),
          after broken_priv (EC_LPC_COMMAND_FLASH_READ 0 128)
            prepared_broken)) by reflexivity.
  split; [exact Hrun|].
  exact (gec_read_stops_at_failure _ _ _ _ _ _ _ Hrun).
Defined.

(** X7 on finish after an update, RW-B being new. *)
Lemma jumps_only_reboot_witness :
  exists w',
    do_call ACCESS_DENIED Finish updated = Ok (tt, w')
    /\ only_sent is_reboot updated w'.
Proof. exact (jumps_only_reboot ACCESS_DENIED Finish updated priv eq_refl I).
Defined.

(** X8 and X9 on the write over the end of RO while RW-A runs, whose second
    command is denied. *)
Lemma gec_write_stays_in_range_witness :
  exists rv w' new,
    gec_write ACCESS_DENIED buffer 0x1ffc0 128 running_A = Ok (rv, w')
    /\ trace w' = trace running_A ++ new
    /\ Forall (fun e => writes_within 0x1ffc0 128 64 (command_sent e)) new
    /\ (length new <= Z.to_nat (ceil_div 128 64))%nat.
Proof.
  exact (gec_write_stays_in_range ACCESS_DENIED running_A priv buffer
           0x1ffc0 128 eq_refl write_request_running_A).
Defined.

Lemma gec_write_sends_the_buffer_witness :
  exists rv w' new,
    gec_write ACCESS_DENIED buffer 0x1ffc0 128 running_A = Ok (rv, w')
    /\ trace w' = trace running_A ++ new
    /\ concat (map (fun e => written (command_sent e)) new)
         `prefix_of` take 128 buffer
    /\ (Forall succeeded new ->
        concat (map (fun e => written (command_sent e)) new)
        = take 128 buffer).
Proof.
  exact (gec_write_sends_the_buffer ACCESS_DENIED running_A priv buffer
           0x1ffc0 128 eq_refl write_request_running_A).
Defined.

(** X10 on an erase and a write of RW-A while RO runs: no command is
    denied, and the registry and need_2nd_pass are what they were. *)
Lemma registry_changes_on_denial_only_witness :
  do_calls ACCESS_DENIED [Erase 0x20000 0x8000; Write buffer 0x20000 128]
    prepared =
    Ok (tt,
        set_try_latest_firmware 1
          (after priv (write_command buffer 0x20000 (0x20040, 64))
             (after priv (write_command buffer 0x20000 (0x20000, 64))
                (set_try_latest_firmware 1
                   (after priv (EC_LPC_COMMAND_FLASH_ERASE 0x20000 0x8000)
                      prepared)))))
  /\ exists new,
       trace
         (set_try_latest_firmware 1
            (after priv (write_command buffer 0x20000 (0x20040, 64))
               (after priv (write_command buffer 0x20000 (0x20000, 64))
                  (set_try_latest_firmware 1
                     (after priv (EC_LPC_COMMAND_FLASH_ERASE 0x20000 0x8000)
                        prepared)))))
       = trace prepared ++ new
       /\ (Forall (fun e => ~ denial e) new ->
           all_new = fwcopy prepared /\ 0 = need_2nd_pass prepared).
Proof.
  assert (Hrun :
    do_calls ACCESS_DENIED [Erase 0x20000 0x8000; Write buffer 0x20000 128]
      prepared =
      Ok (tt,
          set_try_latest_firmware 1
            (after priv (write_command buffer 0x20000 (0x20040, 64))
               (after priv (write_command buffer 0x20000 (0x20000, 64))
                  (set_try_latest_firmware 1
                     (after priv (EC_LPC_COMMAND_FLASH_ERASE 0x20000 0x8000)
                        prepared)))))) by reflexivity.
  split; [exact Hrun|].
  exact (registry_changes_on_denial_only ACCESS_DENIED _ _ _ _ Hrun).
Defined.

(** X11 while RW-A runs: the erase of RW-A is denied, and need_2nd_pass
    reboots into RO, which the erased range does not touch. *)
Lemma second_pass_avoids_denied_copy_witness :
  status_of priv (EC_LPC_COMMAND_FLASH_ERASE 0x20000 0x8000) running_A =
    EC_LPC_RESULT_ACCESS_DENIED
  /\ exists w1 rv w2,
       gec_block_erase ACCESS_DENIED 0x20000 0x8000 running_A =
         Ok (ACCESS_DENIED, w1)
       /\ gec_need_2nd_pass w1 = Ok (rv, w2)
       /\ ((rv = -1 /\ w2 = w1
            /\ forall t, In t copies ->
                  is_new (fwcopy running_A) t = true ->
                  in_range 0x20000 0x8000 (fwcopy running_A t) = true)
           \/ exists t,
                w2 = after priv (reboot t) w1
                /\ In t copies
                /\ is_new (fwcopy running_A) t = true
                /\ in_range 0x20000 0x8000 (fwcopy running_A t) = false
                /\ rv = if status_of priv (reboot t) w1 =? 0 then 1 else -1).
Proof.
  split; [reflexivity|].
  exact (second_pass_avoids_denied_copy ACCESS_DENIED running_A priv
           0x20000 0x8000 (priv_is_detected _ _ _ _) eq_refl).
Defined.

(** X12 on a programmer that advertises limits of 0: a request for one byte
    runs out of a fuel of 1000 turns. *)
Lemma zero_limit_never_ends_witness :
  data (programmer no_limit) = Some obliging_priv
  /\ gec_write_loop ACCESS_DENIED 1000 buffer 0x20000 1 0 0 0 no_limit =
       OutOfFuel
  /\ gec_read_loop 1000 0x20000 1 0 0 0 buffer no_limit = OutOfFuel.
Proof.
  split; [reflexivity|].
  exact (zero_limit_never_ends ACCESS_DENIED obliging_priv buffer buffer
           0x20000 0x20000 1 1000 0 no_limit (fun _ _ => eq_refl)
           eq_refl eq_refl).
Defined.

(** X13 on the read of 300 bytes at 0x100. *)
Lemma gec_read_stays_in_range_witness :
  exists buf' w' new,
    gec_read large_buffer 0x100 300 prepared = Ok ((0, buf'), w')
    /\ trace w' = trace prepared ++ new
    /\ Forall (fun e => reads_within 0x100 300 128 (command_sent e)) new.
Proof.
  assert (Hrun :
    gec_read large_buffer 0x100 300 prepared =
      Ok ((0, repeat (byte_at 0x100) 128 ++ repeat (byte_at 0x180) 128
              ++ repeat (byte_at 0x200) 44),
          after priv (EC_LPC_COMMAND_FLASH_READ 0x200 44)
            (after priv (EC_LPC_COMMAND_FLASH_READ 0x180 128)
               (after priv (EC_LPC_COMMAND_FLASH_READ 0x100 128)
                  prepared)))) by reflexivity.
  edestruct (gec_read_stays_in_range large_buffer 0x100 300 prepared)
    as (new & Htr & Hall);
    [split; numerals | numerals | numerals | numerals | exact Hrun |].
  eexists _, _, new. split; [exact Hrun|]. split; [exact Htr | exact Hall].
Defined.

(** X15 on a flash of 384 KB with blocks of 2 KB: 192 blocks. *)
Lemma gec_probe_size_rounds_down_witness :
  exists flash',
    Probe.gec_probe_size 7 (Some (0, info_384K)) blank_chip = Ok (1, flash')
    /\ Probe.eraseblock_count flash' = 192
    /\ Probe.eraseblock_size flash' * Probe.eraseblock_count flash'
       = Probe.total_size flash' * 1024.
Proof.
  destruct (gec_probe_size_rounds_down 7 0 info_384K blank_chip)
    as (_ & _ & H); [numerals | numerals |].
  destruct (H eq_refl) as (flash' & Hrun & _ & _ & Heq); [numerals|].
  exists flash'. split; [exact Hrun|].
  split; [|apply Heq; reflexivity].
  assert (Hrun' :
    Probe.gec_probe_size 7 (Some (0, info_384K)) blank_chip =
      Ok (1, {| Probe.total_size := 384; Probe.page_size := 64;
                Probe.tested := 7; Probe.eraseblock_size := 0x800;
                Probe.eraseblock_count := 192; Probe.wp := true |}))
    by reflexivity.
  rewrite Hrun' in Hrun. injection Hrun as <-. reflexivity.
Defined.

(** X17 on a 3C905C whose I/O base address register reads 0xe001: the
    address is 0xe000, and no warning is printed. *)
Lemma nic3com_validate_address_witness :
  Nic3com.supported (Nic3com.pci_device_id card_3C905C)
  /\ exists addr name,
       Nic3com.nic3com_validate pci_read_long card_3C905C =
         Some (addr,
               [Nic3com.Found_NIC name Nic3com.PCI_VENDOR_ID_3COM 0x9200
                  addr])
       /\ addr = 0xe000.
Proof.
  assert (Hs : Nic3com.supported (Nic3com.pci_device_id card_3C905C)).
  { eexists _, _. split; [do 7 right; left; reflexivity|].
    split; reflexivity. }
  split; [exact Hs|].
  destruct (nic3com_validate_address pci_read_long card_3C905C Hs)
    as (addr & name & Hrun & _ & _).
  exists addr, name. split; [exact Hrun|].
  assert (Hrun' :
    Nic3com.nic3com_validate pci_read_long card_3C905C =
      Some (0xe000,
            [Nic3com.Found_NIC "3C905C: EtherLink 10/100 PCI (TX)"
               Nic3com.PCI_VENDOR_ID_3COM 0x9200 0xe000]))
    by reflexivity.
  rewrite Hrun' in Hrun. injection Hrun as <- _. reflexivity.
Defined.

(** X2 on the image of the scenarios, after the erase of RO was denied. *)
Lemma prepare_marks_new_again_witness :
  is_new (gec_invalidate_copy 0 0x8000 all_new) EC_LPC_IMAGE_RO = false
  /\ is_new (lookup_sections image_fmap
               (gec_invalidate_copy 0 0x8000 all_new)) EC_LPC_IMAGE_RO = true.
Proof.
  split; [reflexivity|].
  exact (proj1 (prepare_marks_new_again image_fmap all_new 0 0x8000
                  EC_LPC_IMAGE_RO RO_area
                  (or_introl eq_refl) (or_introl eq_refl) eq_refl)).
Defined.

End More_run.
